(** * node-emberplus: the Ember+ tree server and its S101 client sessions

    A shallow embedding of [server.js] (the [TreeServer] dispatcher and
    its subscription registry) and of the request queue of [S101Client]
    in [client.js], with the properties of the specification stated and
    proved over it.

    Conventions of the embedding.
    - JavaScript objects that are mutated in place live in one explicit
      store, [Server]: the tree, the live-client set, the subscription
      registry, the client objects (a heap indexed by a client id) and
      the log of emitted events.  A reference to a tree element is the
      list of numbers leading to it from the root.
    - [undefined] is [None]; a thrown exception is [Throw].
    - [EventEmitter.emit] appends to the event log (listeners are user
      code and are not part of the sources).
    - BER encoding and S101 framing ([ber.js], [s101.js]) are not part
      of the sources: a node handed to [sendBERNode] on an open socket
      is recorded as written. *)

From stdpp Require Import gmap strings list pretty.

Set Warnings "-register-all,-clear-no-such-hyp".

(** ** JavaScript values and coercions *)

Inductive Value :=
  | VInteger (z : Z)
  | VString (s : string)
  | VBoolean (b : bool).

Global Instance Value_eq_dec : EqDecision Value.
Proof. solve_decision. Defined.

Inductive JsError :=
  | Error (msg : string)            (* new Error(msg) *)
  | TypeError (msg : string)        (* property access on undefined / null *)
  | ReferenceError (msg : string).  (* use of an undeclared name *)

Global Instance JsError_eq_dec : EqDecision JsError.
Proof. solve_decision. Defined.

Inductive Result (A : Type) :=
  | Ok (a : A)
  | Throw (e : JsError).
Arguments Ok {A} a.
Arguments Throw {A} e.

(** *** Numbers

    A JavaScript number as far as a comparison needs it: [NaN], an
    infinity, or a finite double, kept as the integers [m] and [e] of
    its value [m * 2 ^ e]. *)
Inductive JsNumber :=
  | NaN
  | Infinity (negative : bool)
  | Finite (m e : Z).

(** The double nearest to the rational [n / d], for [n] and [d]
    positive: the quotient is scaled into 53 bits (fewer below the
    normal range, whose least exponent is -1074), rounded to the nearest
    integer, ties to even; from [2 ^ 1024] on the result is infinite. *)
Definition round_half_even (n d : Z) : Z :=
  let m := (n / d)%Z in
  let r := (n mod d)%Z in
  if (d <? 2 * r)%Z || ((2 * r =? d)%Z && Z.odd m) then (m + 1)%Z else m.

Definition round_double (n d : Z) : JsNumber :=
  let k := (Z.log2 n - Z.log2 d)%Z in
  let above := if (0 <=? k)%Z then (d * 2 ^ k <=? n)%Z else (d <=? n * 2 ^ (- k))%Z in
  let l := if above then k else (k - 1)%Z in
  let e := Z.max (l - 52) (-1074) in
  let m := if (0 <=? e)%Z then round_half_even n (d * 2 ^ e)
           else round_half_even (n * 2 ^ (- e)) d in
  if (0 <=? e)%Z && (2 ^ 1024 <=? m * 2 ^ e)%Z then Infinity false else Finite m e.

(** The number [sign * digits * base ^ exponent] as a double. *)
Definition number_of (negative : bool) (mantissa exponent : Z) : JsNumber :=
  if (mantissa =? 0)%Z then Finite 0 0
  else
    let r := if (0 <=? exponent)%Z then round_double (mantissa * 10 ^ exponent) 1
             else round_double mantissa (10 ^ (- exponent)) in
    match r with
    | Finite m e => Finite (if negative then - m else m) e
    | Infinity _ => Infinity negative
    | NaN => NaN
    end.

(** How a number compares with an integer; nothing for [NaN]. *)
Definition compare_number (x : JsNumber) (a : Z) : option comparison :=
  match x with
  | NaN => None
  | Infinity negative => Some (if negative then Lt else Gt)
  | Finite m e =>
      Some (if (0 <=? e)%Z then (m * 2 ^ e ?= a)%Z else (m ?= a * 2 ^ (- e))%Z)
  end.

(** *** Strings as numbers

    [StringToNumber].  A string is the sequence of its bytes, in UTF-8.
    White space and line terminators are trimmed at both ends; what is
    left is empty (the number 0), a binary, octal or hexadecimal integer
    with its prefix and no sign, or an optional sign followed by
    [Infinity] or by a decimal literal with an optional fraction and an
    optional exponent.  Any other string is [NaN]. *)
Definition code (a : Ascii.ascii) : Z := Z.of_nat (Ascii.nat_of_ascii a).

(** The number of bytes of the white space character a sequence begins
    with, 0 when it begins with none: TAB, LF, VT, FF, CR, SP, and
    U+00A0, U+1680, U+2000 to U+200A, U+2028, U+2029, U+202F, U+205F,
    U+3000 and U+FEFF in UTF-8. *)
Definition white_space (l : list Z) : nat :=
  match l with
  | c :: r =>
      if ((9 <=? c) && (c <=? 13) || (c =? 32))%Z then 1
      else
        match r with
        | c2 :: r2 =>
            if ((c =? 194) && (c2 =? 160))%Z then 2
            else
              match r2 with
              | c3 :: _ =>
                  if ((c =? 225) && (c2 =? 154) && (c3 =? 128)
                      || (c =? 226) && (c2 =? 128)
                         && ((128 <=? c3) && (c3 <=? 138)
                             || (c3 =? 168) || (c3 =? 169) || (c3 =? 175))
                      || (c =? 226) && (c2 =? 129) && (c3 =? 159)
                      || (c =? 227) && (c2 =? 128) && (c3 =? 128)
                      || (c =? 239) && (c2 =? 187) && (c3 =? 191))%Z
                  then 3 else 0
              | [] => 0
              end
        | [] => 0
        end
  | [] => 0
  end.

Fixpoint skip_white_space (fuel : nat) (l : list Z) : list Z :=
  match fuel with
  | O => l
  | S fuel' =>
      match white_space l with
      | O => l
      | k => skip_white_space fuel' (drop k l)
      end
  end.

Definition trim_start (l : list Z) : list Z := skip_white_space (length l) l.

(** The value of a character as a digit of the base, if it is one. *)
Definition digit_of (base c : Z) : option Z :=
  let d := if ((48 <=? c) && (c <=? 57))%Z then Some (c - 48)%Z
           else if ((97 <=? c) && (c <=? 102))%Z then Some (c - 87)%Z
           else if ((65 <=? c) && (c <=? 70))%Z then Some (c - 55)%Z
           else None in
  match d with
  | Some v => if (v <? base)%Z then Some v else None
  | None => None
  end.

(** The digits a sequence begins with, and what follows them. *)
Fixpoint take_digits (base : Z) (l : list Z) : list Z * list Z :=
  match l with
  | c :: r =>
      match digit_of base c with
      | Some v => let '(ds, rest) := take_digits base r in (v :: ds, rest)
      | None => ([], l)
      end
  | [] => ([], [])
  end.

Definition digits_to_number (base : Z) (ds : list Z) : Z :=
  foldl (λ acc d, base * acc + d)%Z 0%Z ds.

(** A sign, if the sequence begins with one. *)
Definition take_sign (l : list Z) : bool * list Z :=
  match l with
  | 45%Z :: r => (true, r)
  | 43%Z :: r => (false, r)
  | _ => (false, l)
  end.

(** The exponent part [e], [E] with an optional sign and at least one
    digit; when it is not well formed nothing is taken. *)
Definition take_exponent (l : list Z) : Z * list Z :=
  match l with
  | c :: r =>
      if ((c =? 101) || (c =? 69))%Z then
        let '(negative, r1) := take_sign r in
        match take_digits 10 r1 with
        | ([], _) => (0%Z, l)
        | (ds, rest) =>
            (if negative then (- digits_to_number 10 ds)%Z
             else digits_to_number 10 ds, rest)
        end
      else (0%Z, l)
  | [] => (0%Z, l)
  end.

(** The text [Infinity]. *)
Definition take_infinity (l : list Z) : option (list Z) :=
  match l with
  | 73%Z :: 110%Z :: 102%Z :: 105%Z :: 110%Z :: 105%Z :: 116%Z :: 121%Z :: r => Some r
  | _ => None
  end.

(** An integer with the prefix [0b], [0o] or [0x] (in either case). *)
Definition non_decimal_literal (l : list Z) : option (JsNumber * list Z) :=
  match l with
  | 48%Z :: x :: r =>
      let base := if ((x =? 98) || (x =? 66))%Z then Some 2%Z
                  else if ((x =? 111) || (x =? 79))%Z then Some 8%Z
                  else if ((x =? 120) || (x =? 88))%Z then Some 16%Z
                  else None in
      match base with
      | Some b =>
          match take_digits b r with
          | ([], _) => None
          | (ds, rest) => Some (number_of false (digits_to_number b ds) 0, rest)
          end
      | None => None
      end
  | _ => None
  end.

(** A decimal literal with its sign. *)
Definition decimal_literal (l : list Z) : option (JsNumber * list Z) :=
  let '(negative, l1) := take_sign l in
  match take_infinity l1 with
  | Some rest => Some (Infinity negative, rest)
  | None =>
      let '(integer, r1) := take_digits 10 l1 in
      let '(fraction, r2) :=
        match r1 with
        | 46%Z :: r => take_digits 10 r
        | _ => ([], r1)
        end in
      match integer, fraction with
      | [], [] => None
      | _, _ =>
          let '(exponent, rest) := take_exponent r2 in
          Some (number_of negative (digits_to_number 10 (integer ++ fraction))
                  (exponent - Z.of_nat (length fraction)), rest)
      end
  end.

Definition numeric_literal (l : list Z) : option (JsNumber * list Z) :=
  match non_decimal_literal l with
  | Some r => Some r
  | None => decimal_literal l
  end.

Definition string_to_number (s : string) : JsNumber :=
  match trim_start (code <$> String.list_ascii_of_string s) with
  | [] => Finite 0 0
  | l =>
      match numeric_literal l with
      | Some (n, rest) =>
          match trim_start rest with
          | [] => n
          | _ => NaN
          end
      | None => NaN
      end
  end.

(** [ToNumber] of a value. *)
Definition to_number (v : Value) : JsNumber :=
  match v with
  | VInteger z => Finite z 0
  | VString s => string_to_number s
  | VBoolean b => Finite (if b then 1 else 0) 0
  end.

(** [a >= v] with [a] a number: false when [v] converts to [NaN]. *)
Definition js_ge (a : Z) (v : Value) : bool :=
  match compare_number (to_number v) a with
  | Some Gt | None => false
  | Some _ => true
  end.

Fixpoint join (sep : string) (l : list string) : string :=
  match l with
  | [] => EmptyString
  | [x] => x
  | x :: l' => x +:+ sep +:+ join sep l'
  end.

(** ** The Ember+ data model

    [ember.js] is not among the sources.  The enumerations, the tree of
    nodes, parameters and matrices, the path of an element and the
    operations on the source set of a matrix connection follow sections
    3, 4.4 and 6 of the specification. *)

(** Modelled from the spec: the access levels of a parameter
    ([ParameterAccess] of [ember.js]). *)
Inductive ParameterAccess := AccessNone | AccessRead | AccessWrite | AccessReadWrite.

(** Modelled from the spec: the [value] of the enumeration item, as
    tested by [setValue] ([access.value > 1], that is, above [read]). *)
Definition access_value (a : ParameterAccess) : Z :=
  match a with
  | AccessNone => 0
  | AccessRead => 1
  | AccessWrite => 2
  | AccessReadWrite => 3
  end.

(** Modelled from the spec: [MatrixOperation] and [MatrixDisposition] of
    [ember.js]. *)
Inductive MatrixOperation := absolute | connect | disconnect.
Inductive MatrixDisposition := tally | modified | pending | locked.

Global Instance MatrixOperation_eq_dec : EqDecision MatrixOperation.
Proof. solve_decision. Defined.
Global Instance MatrixDisposition_eq_dec : EqDecision MatrixDisposition.
Proof. solve_decision. Defined.

(** Modelled from the spec: the command constants of [ember.js]; the
    numbers are those of the Ember+ command set. *)
Definition Subscribe : Z := 30.
Definition Unsubscribe : Z := 31.
Definition GetDirectory : Z := 32.

(** A path: the numbers from the root to an element.  The source keeps
    it as the dot-joined string of these numbers. *)
Definition Path := list Z.

(** Modelled from the spec: the contents of a parameter of [ember.js],
    with the properties the dispatcher reads. *)
Record ParameterContents := mkParameterContents {
  value : option Value;
  access : option ParameterAccess;
  streamIdentifier : option Z
}.

(** Modelled from the spec: the kinds of tree element of [ember.js].  The
    contents of a matrix are its own properties by name ([targetCount]
    among them); its connections map a target to its set of sources. *)
Inductive Kind :=
  | KRoot
  | KNode
  | KParameter (contents : option ParameterContents)
  | KMatrix (contents : option (gmap string Value))
            (connections : option (gmap Z (gset Z))).

(** Modelled from the spec: a tree element of [ember.js].  [qualified]
    tells whether the element object is of a qualified class and so
    answers [isQualified()]. *)
Inductive Element := Elem {
  number : Z;
  qualified : bool;
  kind : Kind;
  children : list Element
}.

(** Modelled from the spec: the class tests [isParameter()] and
    [isMatrix()] of [ember.js]. *)
Definition isParameter (e : Element) : bool :=
  match kind e with KParameter _ => true | _ => false end.

Definition isMatrix (e : Element) : bool :=
  match kind e with KMatrix _ _ => true | _ => false end.

(** Modelled from the spec: [isStream()] of [ember.js]; only parameters
    carry a stream identifier. *)
Definition isStream (e : Element) : bool :=
  match kind e with
  | KParameter (Some c) => bool_decide (is_Some (streamIdentifier c))
  | _ => false
  end.

Definition isQualified (e : Element) : bool := qualified e.

Fixpoint find_child (n : Z) (l : list Element) : option Element :=
  match l with
  | [] => None
  | c :: l' => if decide (number c = n) then Some c else find_child n l'
  end.

(** Modelled from the spec: [getElementByPath] of [ember.js], one number
    per level. *)
Fixpoint getElementByPath (p : Path) (e : Element) : option Element :=
  match p with
  | [] => Some e
  | n :: p' =>
      match find_child n (children e) with
      | Some c => getElementByPath p' c
      | None => None
      end
  end.

Fixpoint update_child (n : Z) (f : Element → Element) (l : list Element)
  : list Element :=
  match l with
  | [] => []
  | c :: l' =>
      if decide (number c = n) then f c :: l' else c :: update_child n f l'
  end.

(** In-place mutation of the element a path refers to. *)
Fixpoint update_at (p : Path) (f : Element → Element) (e : Element) : Element :=
  match p with
  | [] => f e
  | n :: p' =>
      Elem (number e) (qualified e) (kind e)
           (update_child n (update_at p' f) (children e))
  end.

Definition set_kind (k : Kind) (e : Element) : Element :=
  Elem (number e) (qualified e) k (children e).

(** Modelled from the spec: the three operations on the source set of a
    connection ([setSources], [connectSources], [disconnectSources]). *)
Definition setSources (sources : list Z) (current : gset Z) : gset Z :=
  list_to_set sources.
Definition connectSources (sources : list Z) (current : gset Z) : gset Z :=
  current ∪ list_to_set sources.
Definition disconnectSources (sources : list Z) (current : gset Z) : gset Z :=
  current ∖ list_to_set sources.

(** ** Decoded requests *)

Inductive EmberClass :=
  | CCommand | CNode | CParameter | CMatrixNode
  | CQualifiedNode | CQualifiedParameter | CQualifiedMatrix.

Global Instance EmberClass_eq_dec : EqDecision EmberClass.
Proof. solve_decision. Defined.

Record MatrixConnection := mkMatrixConnection {
  target : Z;
  sources : list Z;
  operation : option MatrixOperation
}.

(** An element of a decoded message: its class ([instanceof]), then the
    properties the dispatcher reads. *)
Inductive ReqElement := Req {
  r_class : EmberClass;
  r_path : option Path;
  r_number : option Z;
  r_contents : option (option Value);      (* contents, and contents.value *)
  r_connections : option (list MatrixConnection);
  r_children : option (list ReqElement)
}.

Record Root := mkRoot { elements : option (list ReqElement) }.

(** ** Messages sent to clients *)

(** Modelled from the spec: what [getDuplicate] and [update] of
    [ember.js] copy of an element, its number and contents, children
    trimmed. *)
Record ElementView := mkView { v_number : Z; v_kind : Kind }.

Definition view (e : Element) : ElementView := mkView (number e) (kind e).

Record ConResult := mkConResult {
  c_target : Z;
  c_sources : gset Z;
  c_disposition : option MatrixDisposition;
  c_operation : option MatrixOperation
}.

Inductive Leaf :=
  | LeafBare                                            (* getTreeBranch() *)
  | LeafElement (self : ElementView) (kids : list ElementView)
  | LeafMatrix (conns : gmap Z ConResult).

(** Modelled from the spec: the roots built by [getMinimal],
    [getTreeBranch] and [toQualified] of [ember.js] (response shaping):
    the minimal root, a tree branch of nested single children down to a
    path, or one qualified element. *)
Inductive Msg :=
  | MinimalRoot
  | TreeBranch (path : Path) (leaf : Leaf)
  | QualifiedMsg (path : Path) (leaf : Leaf).

(** ** Client sessions (S101Client) *)

(** The closures handed to [addRequest], defunctionalised.  [WSend] and
    [WRequest] are the two closures the sources build ([queueMessage]
    and the [emberTree] listener of the server); the other three stand
    for closures of callers that call back into the client they are
    queued on. *)
Inductive Work :=
  | WSend (node : option Msg)      (* () => { self.sendBERNode(node) } *)
  | WRequest (root : option Root)  (* the server's emberTree callback *)
  | WQueue (node : option Msg)     (* () => { client.queueMessage(node) } *)
  | WAdd (w : Work)                (* () => { client.addRequest(w) } *)
  | WSeq (w1 w2 : Work).           (* () => { w1(); w2() } *)

Record Client := mkClient {
  remote : string;                 (* address:port of the socket *)
  connected : bool;                (* socket !== null *)
  written : list Msg;              (* nodes written to the socket *)
  request : option ReqElement;
  pendingRequests : list Work;
  activeRequest : option Work
}.

Definition set_written (l : list Msg) (c : Client) : Client :=
  mkClient (remote c) (connected c) l (request c) (pendingRequests c) (activeRequest c).
Definition set_request (r : option ReqElement) (c : Client) : Client :=
  mkClient (remote c) (connected c) (written c) r (pendingRequests c) (activeRequest c).
Definition set_pending (l : list Work) (c : Client) : Client :=
  mkClient (remote c) (connected c) (written c) (request c) l (activeRequest c).
Definition set_active (a : option Work) (c : Client) : Client :=
  mkClient (remote c) (connected c) (written c) (request c) (pendingRequests c) a.

Definition isConnected (c : Client) : bool := connected c.

(** [sendBER]: frames are written only on an open socket. *)
Definition sendBER (data : Msg) (c : Client) : Client :=
  if isConnected c then set_written (written c ++ [data]) c else c.

(** [sendBERNode]: nothing for a falsy node. *)
Definition sendBERNode (node : option Msg) (c : Client) : Client :=
  match node with
  | None => c
  | Some n => sendBER n c
  end.

(** ** The server *)

Inductive Ret :=
  | RUndefined
  | RRoot                      (* the string "root" *)
  | RPathString (p : Path)     (* node.path *)
  | RPathArray (p : Path).     (* the array of numbers built by handleNode *)

Inductive MatrixEvent := matrix_change | matrix_connect | matrix_disconnect.

Inductive Event :=
  | EError (e : JsError)
  | EErrorString (s : string)
  | EValueChange (element : Path) (previous : option Value)
  | EMatrix (type : MatrixEvent) (tgt : Z) (srcs : list Z) (client : string)
  | ERequest (client : string) (root : option Root) (path : Ret).

Record Server := mkServer {
  tree : Element;
  clients : gset nat;                     (* the live clients *)
  subscribers : gmap Path (list nat);     (* path -> Set, in insertion order *)
  sessions : gmap nat Client;             (* the client objects *)
  events : list Event
}.

Definition set_tree (t : Element) (s : Server) : Server :=
  mkServer t (clients s) (subscribers s) (sessions s) (events s).
Definition set_subscribers (m : gmap Path (list nat)) (s : Server) : Server :=
  mkServer (tree s) (clients s) m (sessions s) (events s).
Definition set_sessions (m : gmap nat Client) (s : Server) : Server :=
  mkServer (tree s) (clients s) (subscribers s) m (events s).
Definition emit (e : Event) (s : Server) : Server :=
  mkServer (tree s) (clients s) (subscribers s) (sessions s) (events s ++ [e]).

(** A method call on the client object [cid] (no effect for an id that
    refers to no client object). *)
Definition on_client (cid : nat) (f : Client → Client) (s : Server) : Server :=
  set_sessions (alter f cid (sessions s)) s.

(** [Set.prototype.add] and [delete] on a set kept in insertion order. *)
Definition set_add (c : nat) (l : list nat) : list nat :=
  if decide (c ∈ l) then l else l ++ [c].
Definition set_delete (c : nat) (l : list nat) : list nat :=
  filter (λ x, x ≠ c) l.

Definition path_string (sep : string) (p : Path) : string :=
  join sep (pretty <$> p).

(** Every decoded element is a plain object: [String(element)] is
    ["[object Object]"], and an array prints its items joined by
    commas. *)
Definition array_to_string (l : list ReqElement) : string :=
  join "," ((λ _, "[object Object]") <$> l).

(** [root.elements < 1], an array compared with a number: the array is
    converted to a string and then to a number. *)
Definition elements_lt_one (l : list ReqElement) : bool :=
  match compare_number (string_to_number (array_to_string l)) 1 with
  | Some Lt => true
  | _ => false
  end.

Definition deref (p : Path) (s : Server) : option Element :=
  getElementByPath p (tree s).

Definition undefined_element : JsError :=
  TypeError "Cannot read properties of undefined".

(** [client.remoteAddress()]: the socket is [null] once closed. *)
Definition remoteAddress (cid : nat) (s : Server) : Result string :=
  match sessions s !! cid with
  | Some c =>
      if connected c then Ok (remote c)
      else Throw (TypeError "Cannot read properties of null")
  | None => Throw undefined_element
  end.

Definition subscribe (client : nat) (element : Path) (s : Server) : Server :=
  let path := element in
  let current := default [] (subscribers s !! path) in
  set_subscribers (<[path := set_add client current]> (subscribers s)) s.

Definition unsubscribe (client : nat) (element : Path) (s : Server) : Server :=
  let path := element in
  match subscribers s !! path with
  | None => s
  | Some l => set_subscribers (<[path := set_delete client l]> (subscribers s)) s
  end.

Definition getResponse (p : Path) (e : Element) : Msg :=
  TreeBranch p (LeafElement (view e) (view <$> children e)).

Definition getQualifiedResponse (p : Path) (e : Element) : Msg :=
  QualifiedMsg p (LeafElement (view e) (view <$> children e)).

Definition set_value (v : Value) (c : ParameterContents) : ParameterContents :=
  mkParameterContents (Some v) (access c) (streamIdentifier c).

(** [setValue]: the body runs inside a promise executor, synchronously;
    the promise itself is never settled. *)
Definition setValue (element : Path) (v : Value) (origin : option nat)
    (key : option string) (s : Server) : Server :=
  match deref element s with
  | None => s
  | Some e =>
      match kind e with
      | KParameter (Some c) =>
          match access c with
          | Some a =>
              if bool_decide (1 < access_value a)%Z then
                let orginalvalue := value c in
                let t := update_at element
                           (set_kind (KParameter (Some (set_value v c)))) (tree s) in
                emit (EValueChange element orginalvalue) (set_tree t s)
              else s
          | None => s
          end
      | KMatrix (Some c) conns =>
          match key with
          | Some k =>
              if bool_decide (is_Some (c !! k)) then
                let t := update_at element
                           (set_kind (KMatrix (Some (<[k := v]> c)) conns)) (tree s) in
                emit (EValueChange element None) (set_tree t s)
              else s
          | None => s
          end
      | _ => s
      end
  end.

(** The [sources] argument of the server-side matrix API, which is
    handed over unchecked. *)
Inductive Sources :=
  | SUndefined
  | SNumber (z : Z)
  | SArray (l : list Z).

Definition contents_defined (e : Element) : bool :=
  match kind e with
  | KParameter (Some _) | KMatrix (Some _) _ => true
  | KNode => true                       (* a NodeContents *)
  | _ => false
  end.

Definition targetCount (e : Element) : option Value :=
  match kind e with
  | KMatrix (Some c) _ => c !! "targetCount"
  | _ => None
  end.

(** The three first messages interpolate [path], which is not declared
    in this function: building them raises a [ReferenceError]. *)
Definition validateMatrixOperation (matrix : option Element) (tgt : Z)
    (srcs : Sources) : Result () :=
  match matrix with
  | None => Throw (ReferenceError "path is not defined")
  | Some m =>
      if negb (contents_defined m) then Throw (ReferenceError "path is not defined")
      else match targetCount m with
      | None => Throw (ReferenceError "path is not defined")
      | Some tc =>
          if bool_decide (tgt < 0)%Z || js_ge tgt tc then
            Throw (Error ("target id " +:+ pretty tgt +:+ " out of range 0 - "
                          +:+ match tc with
                              | VInteger n => pretty n
                              | VString x => x
                              | VBoolean b => if b then "true" else "false"
                              end))
          else match srcs with
          | SUndefined => Throw undefined_element
          | SNumber _ => Throw (Error "invalid sources format")
          | SArray _ => Ok ()
          end
      end
  end.

Definition matrix_connections (e : Element) : option (gmap Z (gset Z)) :=
  match kind e with
  | KMatrix _ conns => conns
  | _ => None
  end.

Definition set_connection (t : Z) (srcs : gset Z) (e : Element) : Element :=
  match kind e with
  | KMatrix c (Some conns) => set_kind (KMatrix c (Some (<[t := srcs]> conns))) e
  | _ => e
  end.

Section Dispatcher.

(** [call cid w s]: the invocation [this.activeRequest()] of the
    closure [w] taken from the queue of client [cid]. *)
Variable call : nat → Work → Server → Server.

Definition makeRequest (cid : nat) (s : Server) : Server :=
  match sessions s !! cid with
  | Some c =>
      match activeRequest c, pendingRequests c with
      | None, w :: rest =>
          let s1 := on_client cid (λ c, set_active (Some w) (set_pending rest c)) s in
          let s2 := call cid w s1 in
          on_client cid (set_active None) s2
      | _, _ => s
      end
  | None => s
  end.

Definition addRequest (cid : nat) (cb : Work) (s : Server) : Server :=
  makeRequest cid
    (on_client cid (λ c, set_pending (pendingRequests c ++ [cb]) c) s).

Definition queueMessage (cid : nat) (node : option Msg) (s : Server) : Server :=
  addRequest cid (WSend node) s.

(** One turn of the loop of [updateSubscribers]. *)
Definition notify (path : Path) (response : Msg) (origin : option nat)
    (client : nat) (s : Server) : Server :=
  if decide (origin = Some client) then s
  else if decide (client ∈ clients s) then queueMessage client (Some response) s
  else
    set_subscribers
      (<[path := set_delete client (default [] (subscribers s !! path))]>
         (subscribers s)) s.

(** [updateSubscribers]: the loop runs over the entries the set holds
    on entry; the only change the loop itself makes to the set is to
    delete the entry under the cursor.  (A closure run by
    [queueMessage] that would add entries to this very set during the
    loop is not followed by the model.) *)
Definition updateSubscribers (path : Path) (response : Msg)
    (origin : option nat) (s : Server) : Server :=
  match subscribers s !! path with
  | None => s
  | Some l => foldl (λ s c, notify path response origin c s) s l
  end.

Definition handleError (client : option nat) (node : option Msg)
    (s : Server) : Server :=
  match client with
  | Some c =>
      let res := match node with None => MinimalRoot | Some n => n end in
      on_client c (sendBERNode (Some res)) s
  | None => s
  end.

Definition handleGetDirectory (client : option nat) (element : Path)
    (s : Server) : Result () * Server :=
  match client with
  | None => (Ok (), s)
  | Some c =>
      match deref element s with
      | None => (Throw undefined_element, s)
      | Some e =>
          let s1 :=
            if (isMatrix e || isParameter e) && negb (isStream e)
            then subscribe c element s
            else foldl (λ s child, subscribe c (element ++ [number child]) s)
                       s (children e) in
          match request <$> sessions s1 !! c with
          | Some (Some rq) =>
              let res := match r_path rq with
                         | None => getResponse element e
                         | Some _ => getQualifiedResponse element e
                         end in
              (Ok (), on_client c (sendBERNode (Some res)) s1)
          | _ => (Throw (TypeError "Cannot read properties of null"), s1)
          end
      end
  end.

Definition handleSubscribe (client : nat) (element : Path) (s : Server) : Server :=
  subscribe client element s.

Definition handleUnSubscribe (client : nat) (element : Path) (s : Server) : Server :=
  unsubscribe client element s.

Definition handleCommand (client : nat) (element : Path) (cmd : option Z)
    (s : Server) : Result () * Server :=
  if decide (cmd = Some GetDirectory) then handleGetDirectory (Some client) element s
  else if decide (cmd = Some Subscribe) then (Ok (), handleSubscribe client element s)
  else if decide (cmd = Some Unsubscribe) then (Ok (), handleUnSubscribe client element s)
  else
    (Ok (), emit (EError (Error ("invalid command " +:+
                   match cmd with Some n => pretty n | None => "undefined" end))) s).

(** The body of the loop of [handleMatrixConnections] for one
    connection; [acc] is [res.connections]. *)
Definition applyConnection (client : option nat) (matrix : Path)
    (response : bool) (connection : MatrixConnection)
    (acc : gmap Z ConResult) (s : Server)
    : Result (gmap Z ConResult) * Server :=
  match deref matrix s ≫= matrix_connections with
  | None => (Throw undefined_element, s)
  | Some conns =>
      match conns !! target connection with
      | None => (Throw undefined_element, s)
      | Some current =>
          let '(result, emitType) :=
            match operation connection with
            | None | Some absolute =>
                (setSources (sources connection) current, matrix_change)
            | Some connect =>
                (connectSources (sources connection) current, matrix_connect)
            | Some disconnect =>
                (disconnectSources (sources connection) current, matrix_disconnect)
            end in
          let s1 := set_tree (update_at matrix
                       (set_connection (target connection) result) (tree s)) s in
          if response then
            let conResult := mkConResult (target connection) result (Some modified) None in
            let acc1 := <[target connection := conResult]> acc in
            match client with
            | None => (Throw undefined_element, s1)
            | Some c =>
                match remoteAddress c s1 with
                | Ok addr =>
                    (Ok acc1, emit (EMatrix emitType (target connection)
                                      (sources connection) addr) s1)
                | Throw e => (Throw e, s1)
                end
            end
          else
            let conResult := mkConResult (target connection) result None (Some absolute) in
            (Ok (<[target connection := conResult]> acc), s1)
      end
  end.

Fixpoint applyConnections (client : option nat) (matrix : Path)
    (response : bool) (connections : list MatrixConnection)
    (acc : gmap Z ConResult) (s : Server)
    : Result (gmap Z ConResult) * Server :=
  match connections with
  | [] => (Ok acc, s)
  | connection :: rest =>
      match applyConnection client matrix response connection acc s with
      | (Ok acc1, s1) => applyConnections client matrix response rest acc1 s1
      | (Throw e, s1) => (Throw e, s1)
      end
  end.

Definition handleMatrixConnections (client : option nat) (matrix : Path)
    (connections : option (list MatrixConnection)) (response : bool)
    (s : Server) : Result () * Server :=
  match deref matrix s with
  | None => (Throw undefined_element, s)
  | Some m =>
      let root : Result (Leaf → Msg) :=
        if isQualified m then Ok (QualifiedMsg matrix)
        else match matrix with
             | [] => Throw (TypeError "Cannot read properties of null")
             | _ => Ok (TreeBranch matrix)
             end in
      match root with
      | Throw e => (Throw e, s)
      | Ok root =>
          match applyConnections client matrix response
                  (default [] connections) ∅ s with
          | (Throw e, s1) => (Throw e, s1)
          | (Ok res, s1) =>
              let msg := root (LeafMatrix res) in
              let s2 := match client with
                        | Some c => on_client c (sendBERNode (Some msg)) s1
                        | None => s1
                        end in
              (Ok (), updateSubscribers matrix msg client s2)
          end
      end
  end.

Definition doMatrixOperation (path : Path) (tgt : Z) (srcs : Sources)
    (op : MatrixOperation) (s : Server) : Result () * Server :=
  let matrix := deref path s in
  match validateMatrixOperation matrix tgt srcs with
  | Throw e => (Throw e, s)
  | Ok _ =>
      let connection :=
        mkMatrixConnection tgt
          (match srcs with SArray l => l | _ => [] end) (Some op) in
      handleMatrixConnections None path (Some [connection]) false s
  end.

Definition matrixConnect (path : Path) (tgt : Z) (srcs : Sources) :=
  doMatrixOperation path tgt srcs connect.
Definition matrixDisconnect (path : Path) (tgt : Z) (srcs : Sources) :=
  doMatrixOperation path tgt srcs disconnect.
Definition matrixSet (path : Path) (tgt : Z) (srcs : Sources) :=
  doMatrixOperation path tgt srcs absolute.

Definition handleQualifiedMatrix (client : nat) (element : Path)
    (matrix : ReqElement) (s : Server) : Result () * Server :=
  handleMatrixConnections (Some client) element (r_connections matrix) true s.

Definition handleQualifiedParameter (client : nat) (element : Path)
    (parameter : ReqElement) (s : Server) : Result () * Server :=
  match r_contents parameter with
  | None => (Throw undefined_element, s)
  | Some None => (Ok (), s)
  | Some (Some v) =>
      let s1 := setValue element v (Some client) None s in
      match deref element s1 with
      | None => (Throw undefined_element, s1)
      | Some e =>
          let res := getQualifiedResponse element e in
          let s2 := on_client client (sendBERNode (Some res)) s1 in
          (Ok (), updateSubscribers element res (Some client) s2)
      end
  end.

Definition single_command (node : ReqElement) : option ReqElement :=
  match r_children node with
  | Some [c] => if decide (r_class c = CCommand) then Some c else None
  | _ => None
  end.

Definition handleQualifiedNode (client : nat) (node : ReqElement)
    (s : Server) : Result Ret * Server :=
  match r_path node with
  | None => (Throw undefined_element, s)
  | Some path =>
      match deref path s with
      | None =>
          let s1 := emit (EError (Error ("unknown element at path " +:+
                                         path_string "." path))) s in
          (Ok RUndefined, handleError (Some client) None s1)
      | Some _ =>
          let element := path in
          let r :=
            match single_command node with
            | Some c => handleCommand client element (r_number c) s
            | None =>
                if decide (r_class node = CQualifiedMatrix)
                then handleQualifiedMatrix client element node s
                else if decide (r_class node = CQualifiedParameter)
                then handleQualifiedParameter client element node s
                else (Ok (), s)
            end in
          match r with
          | (Ok _, s1) => (Ok (RPathString path), s1)
          | (Throw e, s1) => (Throw e, s1)
          end
      end
  end.

(** The [while] loop of [handleNode]: down the first children of the
    request, collecting numbers, to the command or the deepest
    element.  [None] when an element without a number is met.  The
    loop always ends on an element, so the test [cmd === undefined]
    that follows it in the source never holds. *)
Fixpoint traverse (element : ReqElement) (path : list Z)
    : option (list Z * ReqElement) :=
  match r_number element with
  | None => None
  | Some n =>
      if decide (r_class element = CCommand) then Some (path, element)
      else
        match r_children element with
        | Some (first :: _) => traverse first (path ++ [n])
        | _ => Some (path ++ [n], element)
        end
  end.

Definition handleNode (client : nat) (node : ReqElement)
    (s : Server) : Result Ret * Server :=
  match traverse node [] with
  | None => (Ok RUndefined, emit (EErrorString "invalid request") s)
  | Some (path, cmd) =>
      match deref path s with
      | None =>
          let s1 := emit (EError (Error ("unknown element at path " +:+
                                         path_string "," path))) s in
          (Ok RUndefined, handleError (Some client) None s1)
      | Some e =>
          let element := path in
          if decide (r_class cmd = CCommand) then
            match handleCommand client element (r_number cmd) s with
            | (Ok _, s1) => (Ok (RPathArray path), s1)
            | (Throw err, s1) => (Throw err, s1)
            end
          else
            match r_class cmd, r_connections cmd, r_contents cmd with
            | CMatrixNode, Some conns, _ =>
                match handleMatrixConnections (Some client) element (Some conns) true s with
                | (Ok _, s1) => (Ok (RPathArray path), s1)
                | (Throw err, s1) => (Throw err, s1)
                end
            | CParameter, _, Some (Some v) =>
                let s1 := setValue element v (Some client) None s in
                match deref element s1 with
                | None => (Throw undefined_element, s1)
                | Some e1 =>
                    let res := getResponse element e1 in
                    let s2 := on_client client (sendBERNode (Some res)) s1 in
                    (Ok (RPathArray path),
                     updateSubscribers element res (Some client) s2)
                end
            | _, _, _ =>
                let s1 := emit (EError (Error "invalid request format")) s in
                (Ok RUndefined,
                 handleError (Some client) (Some (TreeBranch element LeafBare)) s1)
            end
      end
  end.

Definition invalid_request : Event := EError (Error "invalid request").

Definition handleRoot (client : nat) (root : option Root) (s : Server)
    : Result Ret * Server :=
  match root ≫= elements with
  | None => (Ok RUndefined, emit invalid_request s)
  | Some els =>
      if elements_lt_one els then (Ok RUndefined, emit invalid_request s)
      else
        let node := head els in
        let s1 := on_client client (set_request node) s in
        match node with
        | None => (Throw undefined_element, s1)
        | Some node =>
            if bool_decide (is_Some (r_path node)) then
              handleQualifiedNode client node s1
            else if decide (r_class node = CCommand) then
              match handleCommand client [] (r_number node) s1 with
              | (Ok _, s2) => (Ok RRoot, s2)
              | (Throw e, s2) => (Throw e, s2)
              end
            else handleNode client node s1
        end
  end.

(** The closure the server hands to [addRequest] for each decoded
    message. *)
Definition requestCallback (client : nat) (root : option Root)
    (s : Server) : Server :=
  match handleRoot client root s with
  | (Ok path, s1) =>
      match remoteAddress client s1 with
      | Ok addr => emit (ERequest addr root path) s1
      | Throw e => emit (EError e) s1
      end
  | (Throw e, s1) => emit (EError e) s1
  end.

(** The [emberTree] listener installed for each connection. *)
Definition onEmberTree (client : nat) (root : option Root) (s : Server) : Server :=
  addRequest client (WRequest root) s.

End Dispatcher.

(** Running a closure.  The recursion goes through the queue (a closure
    may add a request, whose pump may run another closure), so it is
    bounded by [fuel]; one unit is spent per nested invocation. *)
Fixpoint invoke (fuel : nat) (cid : nat) (w : Work) (s : Server) : Server :=
  match fuel with
  | O => s
  | S fuel' =>
      match w with
      | WSend node => on_client cid (sendBERNode node) s
      | WRequest root => requestCallback (invoke fuel') cid root s
      | WQueue node => queueMessage (invoke fuel') cid node s
      | WAdd w' => addRequest (invoke fuel') cid w' s
      | WSeq w1 w2 => invoke fuel' cid w2 (invoke fuel' cid w1 s)
      end
  end.

Arguments invoke : simpl never.

(** * The rest of the server *)

(** ** Connections

    The listeners the server installs for each connection, with the
    part of the [S101Client] constructor that feeds them.  The events
    they emit ([connection], [disconnect], [clientError]) are kept in a
    log of their own, beside the store. *)

Inductive Lifecycle :=
  | LConnection (address : string)
  | LDisconnect (address : string)
  | LClientError (address : string) (error : JsError).

Record Listener := mkListener {
  server : Server;
  lifecycle : list Lifecycle
}.

Definition set_clients (l : gset nat) (s : Server) : Server :=
  mkServer (tree s) l (subscribers s) (sessions s) (events s).
Definition set_connected (b : bool) (c : Client) : Client :=
  mkClient (remote c) b (written c) (request c) (pendingRequests c) (activeRequest c).

(** The identity of a client object that has just been created: one no
    client object has yet. *)
Definition newClient (s : Server) : nat := fresh (dom (sessions s)).

(** [addClient] and the [connection] listener: the client object is
    created on an open socket, with no request, an empty queue and no
    active request, and is added to the live set. *)
Definition onConnection (address : string) (w : Listener) : Listener :=
  let s := server w in
  let client := newClient s in
  let s1 := set_sessions
              (<[client := mkClient address true [] None [] None]> (sessions s)) s in
  let s2 := set_clients ({[client]} ∪ clients s1) s1 in
  mkListener s2 (lifecycle w ++ [LConnection address]).

(** The [close] event of the socket: the [disconnected] listener of the
    server runs first (the client leaves the live set, its address is
    read and emitted), then the socket is set to [null].  An exception
    of the listener leaves the socket as it is. *)
Definition onClose (client : nat) (w : Listener) : Result () * Listener :=
  let s1 := set_clients (clients (server w) ∖ {[client]}) (server w) in
  match remoteAddress client s1 with
  | Ok addr =>
      (Ok (), mkListener (on_client client (set_connected false) s1)
                (lifecycle w ++ [LDisconnect addr]))
  | Throw e => (Throw e, mkListener s1 (lifecycle w))
  end.

(** The [error] listener of the server on a client. *)
Definition onClientError (client : nat) (error : JsError) (w : Listener)
    : Result () * Listener :=
  match remoteAddress client (server w) with
  | Ok addr => (Ok (), mkListener (server w) (lifecycle w ++ [LClientError addr error]))
  | Throw e => (Throw e, w)
  end.

Section Entries.

Variable call : nat → Work → Server → Server.

(** The [emberPacket] listener of the client.  [decoded] is what
    [ember.Root.decode] makes of the packet: a root, [undefined], or an
    exception, which the client emits as its [error]. *)
Definition onEmberPacket (client : nat) (decoded : Result (option Root))
    (w : Listener) : Result () * Listener :=
  match decoded with
  | Ok (Some root) =>
      (Ok (), mkListener (onEmberTree call client (Some root) (server w)) (lifecycle w))
  | Ok None => (Ok (), w)
  | Throw e => onClientError client e w
  end.

(** [replaceElement].  [path] is [element.getPath()].  The element found
    at the path is replaced in the children of its parent, and the
    subscribers of the path are sent the new element, nobody being the
    origin.  The [_parent] of the root is [null], as in
    [handleMatrixConnections]: for the root the test against [undefined]
    does not hold, and reading the children of [null] throws. *)
Definition replaceElement (path : Path) (element : Element) (s : Server)
    : Result () * Server :=
  match deref path s with
  | None =>
      (Throw (Error ("Could not find element at path " +:+ path_string "." path)), s)
  | Some _ =>
      match path with
      | [] => (Throw (TypeError "Cannot read properties of null"), s)
      | _ :: _ =>
          let s1 := set_tree (update_at path (λ _, element) (tree s)) s in
          let res := getResponse (removelast path ++ [number element]) element in
          (Ok (), updateSubscribers call path res None s1)
      end
  end.

(** What reaches the server: a connection, the closing of a socket, a
    packet and what it decodes to, a socket error, and the calls of the
    application on the server. *)
Inductive Input :=
  | IConnection (address : string)
  | IClose (client : nat)
  | IPacket (client : nat) (decoded : Result (option Root))
  | ISocketError (client : nat) (error : JsError)
  | IMatrix (op : MatrixOperation) (path : Path) (tgt : Z) (srcs : Sources)
  | ISetValue (element : Path) (v : Value) (origin : option nat) (key : option string)
  | IReplace (path : Path) (element : Element).

(** The store after an input; an exception goes to the caller and the
    store stays as the exception left it. *)
Definition step (i : Input) (w : Listener) : Listener :=
  match i with
  | IConnection address => onConnection address w
  | IClose client => (onClose client w).2
  | IPacket client decoded => (onEmberPacket client decoded w).2
  | ISocketError client error => (onClientError client error w).2
  | IMatrix op path tgt srcs =>
      mkListener (doMatrixOperation call path tgt srcs op (server w)).2 (lifecycle w)
  | ISetValue element v origin key =>
      mkListener (setValue element v origin key (server w)) (lifecycle w)
  | IReplace path element =>
      mkListener (replaceElement path element (server w)).2 (lifecycle w)
  end.

Definition run (inputs : list Input) (w : Listener) : Listener :=
  foldl (λ w i, step i w) w inputs.

End Entries.

(** The server as constructed: no client, no subscription, no event. *)
Definition initial (t : Element) : Listener :=
  mkListener (mkServer t ∅ ∅ ∅ []) [].

(** ** Trees from JSON

    [JSONtoTree], with [parseObj] and [parseMatrixContent].  A content
    is a JSON object; the record has the properties these functions
    read.  The tree is built as the dispatcher sees it: number, kind,
    the contents that [setValue], the matrix operations and
    [GetDirectory] read, and children.  Contents with [labels] are not
    covered. *)

Record JsonConnection := mkJsonConnection {
  jc_target : option Z;
  jc_sources : list Z
}.

Inductive Json := mkJson {
  j_number : option Z;
  j_value : option Value;
  j_type : option string;
  j_access : option string;
  j_mode : option string;
  j_targetCount : option Z;
  j_connections : option (list JsonConnection);
  j_streamIdentifier : option Z;
  j_other : gmap string Value;       (* the properties of other names *)
  j_children : option (list Json)
}.

(** The type and the mode of a matrix are checked against the names
    of the enumerations; the item is kept under its name.  The type is
    looked at first. *)
Definition parseMatrixContent (content : Json) : Result (gmap string Value) :=
  let with_type : Result (gmap string Value) :=
    match j_type content with
    | None => Ok ∅
    | Some t =>
        if decide (t = "oneToN" ∨ t = "oneToOne" ∨ t = "nToN")
        then Ok {[ "type" := VString t ]}
        else Throw (Error ("Invalid matrix type " +:+ t))
    end in
  match with_type with
  | Throw e => Throw e
  | Ok m =>
      match j_mode content with
      | None => Ok m
      | Some md =>
          if decide (md = "linear" ∨ md = "nonLinear")
          then Ok (<[ "mode" := VString md ]> m)
          else Throw (Error ("Invalid matrix mode " +:+ md))
      end
  end.

(** The connections of a matrix: those the content lists (a target
    defaults to 0, a later entry for a target replaces an earlier one),
    or else one connection without sources per target below the
    count. *)
Definition parseConnections (content : Json) (count : Z) : gmap Z (gset Z) :=
  match j_connections content with
  | Some l =>
      foldl (λ m c, <[default 0%Z (jc_target c) := setSources (jc_sources c) ∅]> m) ∅ l
  | None => list_to_map ((λ t, (t, ∅)) <$> seqZ 0 count)
  end.

(** What the loop over the properties that are left copies to the
    contents of a matrix, beside [targetCount]. *)
Definition copied (content : Json) : gmap string Value :=
  from_option (λ a, {[ "access" := VString a ]}) ∅ (j_access content) ∪
  from_option (λ n, {[ "streamIdentifier" := VInteger n ]}) ∅
    (j_streamIdentifier content) ∪
  j_other content.

Section FromJSON.

(** [ParameterAccess.get] of the enumeration library, which is not
    among the sources. *)
Variable ParameterAccess_get : string → option ParameterAccess.

(** The access of a parameter, as [setValue] reads it: the item
    [ParameterAccess.get] gives for a truthy [access] ([undefined],
    rendered [None], for a name that is no access level), [read] when
    the content has no [access].  An empty string is falsy: it stays
    among the properties of the content and is copied over the default;
    a string has no [value], so that it permits no write either. *)
Definition parseAccess (content : Json) : option ParameterAccess :=
  match j_access content with
  | None => Some AccessRead
  | Some a => if decide (a = EmptyString) then None else ParameterAccess_get a
  end.

(** The element built for a content, before its children: a parameter
    for a content with a value, a matrix for one with a target count,
    a node otherwise. *)
Definition parseKind (content : Json) : Result Kind :=
  match j_value content with
  | Some v =>
      Ok (KParameter (Some (mkParameterContents (Some v) (parseAccess content)
                              (j_streamIdentifier content))))
  | None =>
      match j_targetCount content with
      | Some count =>
          match parseMatrixContent content with
          | Throw e => Throw e
          | Ok m =>
              Ok (KMatrix (Some (<[ "targetCount" := VInteger count ]>
                                   (m ∪ copied content)))
                    (Some (parseConnections content count)))
          end
      | None => Ok KNode
      end
  end.

(** One turn of the loop of [parseObj], on the content at index [i]. *)
Fixpoint parseContent (i : Z) (content : Json) {struct content} : Result Element :=
  let number := default i (j_number content) in
  match parseKind content with
  | Throw e => Throw e
  | Ok k =>
      let kids :=
        match j_children content with
        | None => Ok []
        | Some children =>
            (fix loop (i : Z) (obj : list Json) : Result (list Element) :=
               match obj with
               | [] => Ok []
               | c :: obj' =>
                   match parseContent i c with
                   | Throw e => Throw e
                   | Ok e =>
                       match loop (i + 1)%Z obj' with
                       | Throw err => Throw err
                       | Ok es => Ok (e :: es)
                       end
                   end
               end) 0%Z children
        end in
      match kids with
      | Throw e => Throw e
      | Ok es => Ok (Elem number false k es)
      end
  end.

(** [parseObj] from index [i] on: the children added to the parent. *)
Fixpoint parseObj (i : Z) (obj : list Json) : Result (list Element) :=
  match obj with
  | [] => Ok []
  | c :: obj' =>
      match parseContent i c with
      | Throw e => Throw e
      | Ok e =>
          match parseObj (i + 1)%Z obj' with
          | Throw err => Throw err
          | Ok es => Ok (e :: es)
          end
      end
  end.

Definition JSONtoTree (obj : list Json) : Result Element :=
  match parseObj 0 obj with
  | Throw e => Throw e
  | Ok es => Ok (Elem 0 false KRoot es)
  end.

End FromJSON.

(** * Stating the properties *)

(** ** Sessions and the registry *)

(** A client with nothing queued and no request active, as every client
    is between two requests. *)
Definition idle (c : Client) : Prop :=
  pendingRequests c = [] ∧ activeRequest c = None.

(** The entries a fan-out drops, the clients it notifies, and the
    condition that the clients it notifies are idle. *)
Definition stale (origin : option nat) (s : Server) (x : nat) : Prop :=
  origin ≠ Some x ∧ x ∉ clients s.

Definition notified (origin : option nat) (s : Server) (k : list nat) (x : nat) : Prop :=
  x ∈ k ∧ origin ≠ Some x ∧ x ∈ clients s.

Definition idle_subscribers (origin : option nat) (s : Server) (k : list nat) : Prop :=
  ∀ x c, notified origin s k x → sessions s !! x = Some c → idle c.

Definition subscribed (client : nat) (path : Path) (s : Server) : Prop :=
  client ∈ default [] (subscribers s !! path).

Global Instance subscribed_dec client path s : Decision (subscribed client path s).
Proof. unfold subscribed. apply _. Defined.
Global Typeclasses Opaque subscribed.

(** ** Parameters and matrices *)

(** What a parameter-set request leaves behind: the element at the
    path, the event log, and the session of every client. *)
Definition parameter_set_outcome (client : nat) (p : Path) (e' : Element)
    (emitted : list Event) (res : Msg) (s s' : Server) : Prop :=
  deref p s' = Some e' ∧
  events s' = events s ++ emitted ∧
  ∀ x, sessions s' !! x =
       if decide (x = client ∨ (subscribed x p s ∧ x ∈ clients s))
       then sendBERNode (Some res) <$> sessions s !! x
       else sessions s !! x.

(** The matrix operations in the words of the specification: absolute
    replaces the source set of the target, connect unions the sources
    into it, disconnect removes them, and an omitted operation is
    absolute. *)
Definition connection_result (op : option MatrixOperation) (srcs : list Z)
    (current : gset Z) : gset Z :=
  match op with
  | None | Some absolute => list_to_set srcs
  | Some connect => current ∪ list_to_set srcs
  | Some disconnect => current ∖ list_to_set srcs
  end.

Definition connections_after (conns : list MatrixConnection)
    (cm : gmap Z (gset Z)) : gmap Z (gset Z) :=
  foldl (λ cm x,
           <[target x := connection_result (operation x) (sources x) (cm !!! target x)]> cm)
        cm conns.

(** The entry of a target in the answer: disposition [modified] in the
    reply to a request, operation [absolute] in a server-side update. *)
Definition connection_reply (response : bool) (t : Z) (srcs : gset Z) : ConResult :=
  if response then mkConResult t srcs (Some modified) None
  else mkConResult t srcs None (Some absolute).

Definition requester_known (client : option nat) (response : bool) (s : Server) : Prop :=
  response = true → ∃ cl addr, client = Some cl ∧ remoteAddress cl s = Ok addr.

(** ** The guard of [handleRoot] *)

(** Every client but [origin] has an empty queue and no active request,
    as is the case while the request of [origin] is being handled. *)
Definition others_idle (origin : nat) (s : Server) : Prop :=
  ∀ x c, sessions s !! x = Some c → x ≠ origin → idle c.

(** From [s] to [s'] events were only added, and the error of the guard
    is not among them. *)
Definition no_guard_error (s s' : Server) : Prop :=
  ∃ evs, events s' = events s ++ evs ∧ invalid_request ∉ evs.

(** ** The states the server goes through *)

(** While the request of [origin] is handled (or, with no origin,
    between requests): every client but the origin is idle, no client
    has anything pending, and the sets of the registry hold no client
    twice. *)
Definition dispatching (origin : option nat) (s : Server) : Prop :=
  (∀ x c, sessions s !! x = Some c → origin ≠ Some x → idle c) ∧
  (∀ x c, sessions s !! x = Some c → pendingRequests c = []) ∧
  (∀ p l, subscribers s !! p = Some l → NoDup l).

(** Between requests. *)
Definition settled (s : Server) : Prop := dispatching None s.

(** ** A running example

    The tree of the scenarios of the specification: a node [1] with a
    read-write parameter [1.2] of value 10 and a read-only parameter
    [1.4] of value 7, and a matrix [3] with four targets, target 1 being
    connected to source 0.  Clients 0 and 1 are
    live, client 2 has gone but is still registered as a subscriber. *)

Definition example_parameter : Element :=
  Elem 2 false
    (KParameter (Some (mkParameterContents (Some (VInteger 10))
                         (Some AccessReadWrite) None))) [].

Definition example_matrix : Element :=
  Elem 3 false
    (KMatrix (Some {[ "targetCount" := VInteger 4 ]})
       (Some {[ 0%Z := ∅; 1%Z := {[ 0%Z ]}; 2%Z := ∅; 3%Z := ∅ ]})) [].

Definition example_read_only : Element :=
  Elem 4 false
    (KParameter (Some (mkParameterContents (Some (VInteger 7))
                         (Some AccessRead) None))) [].

Definition example_tree : Element :=
  Elem 0 false KRoot
    [Elem 1 false KNode [example_parameter; example_read_only]; example_matrix].

Definition example_client (address : string) (open : bool) : Client :=
  mkClient address open [] None [] None.

Definition example_server : Server :=
  mkServer example_tree {[ 0; 1 ]}
    {[ [1; 2]%Z := [0; 1; 2]; [1; 4]%Z := [1]; [3%Z] := [1; 2] ]}
    {[ 0 := example_client "10.0.0.1:9000" true;
       1 := example_client "10.0.0.2:9000" true;
       2 := example_client "10.0.0.3:9000" false ]}
    [].

Definition example_set (p : Path) (v : Z) : ReqElement :=
  Req CQualifiedParameter (Some p) None (Some (Some (VInteger v))) None None.

(** The request of the failing input of C2: two connections on the
    matrix [3], target 0 to source 1, then target 9. *)
Definition example_two_connections : Root :=
  mkRoot (Some [Req CMatrixNode None (Some 3%Z) None
                  (Some [mkMatrixConnection 0 [1%Z] None;
                         mkMatrixConnection 9 [0%Z] None]) None]).

(** ** Further statements *)

(** The event a connection of a request is announced with. *)
Definition matrix_event (op : option MatrixOperation) : MatrixEvent :=
  match op with
  | None | Some absolute => matrix_change
  | Some connect => matrix_connect
  | Some disconnect => matrix_disconnect
  end.

(** The nodes a socket has been handed, in order, as far as they are
    written: all of them on an open socket, none on a closed one. *)
Definition wire (c : Client) (nodes : list (option Msg)) : list Msg :=
  if connected c then omap id nodes else [].

(** ** Contents and trees *)

(** A content that [parseObj] makes a matrix of, and whether the type
    and the mode it gives are names of the enumerations. *)
Definition matrix_shaped (content : Json) : bool :=
  match j_value content, j_targetCount content with
  | None, Some _ => true
  | _, _ => false
  end.

Definition type_ok (content : Json) : bool :=
  match j_type content with
  | None => true
  | Some t => bool_decide (t = "oneToN" ∨ t = "oneToOne" ∨ t = "nToN")
  end.

Definition mode_ok (content : Json) : bool :=
  match j_mode content with
  | None => true
  | Some md => bool_decide (md = "linear" ∨ md = "nonLinear")
  end.

(** A property of a content and of all the contents below it. *)
Fixpoint json_every (P : Json → bool) (content : Json) : bool :=
  P content &&
  match j_children content with
  | None => true
  | Some l => forallb (json_every P) l
  end.

Definition loadable (content : Json) : bool :=
  json_every (λ c, negb (matrix_shaped c) || (type_ok c && mode_ok c)) content.

(** The same for the elements of a tree. *)
Fixpoint every (P : Element → bool) (e : Element) : bool :=
  P e && forallb (every P) (children e).

(** A parameter that [setValue] leaves alone: its access is not above
    [read]. *)
Definition read_only (e : Element) : bool :=
  match kind e with
  | KParameter (Some c) =>
      match access c with
      | Some a => bool_decide (access_value a ≤ 1)%Z
      | None => true
      end
  | _ => true
  end.

(** Modelled from the spec: the names of the access levels, as
    [ParameterAccess.get] resolves them. *)
Definition access_of_name (name : string) : option ParameterAccess :=
  if decide (name = "none") then Some AccessNone
  else if decide (name = "read") then Some AccessRead
  else if decide (name = "write") then Some AccessWrite
  else if decide (name = "readWrite") then Some AccessReadWrite
  else None.

(** A content with the given properties and no others. *)
Definition json_parameter (v : Value) (acc : option string) : Json :=
  mkJson None (Some v) None acc None None None None ∅ None.
Definition json_matrix (count : Z) (conns : option (list JsonConnection)) : Json :=
  mkJson None None (Some "oneToN") None (Some "linear") (Some count) conns None ∅ None.
Definition json_node (n : option Z) (kids : list Json) : Json :=
  mkJson n None None None None None None None ∅ (Some kids).

(** The tree loaded from one matrix of two targets, and a server that
    holds it. *)
Definition example_loaded : Element :=
  match JSONtoTree access_of_name [json_matrix 2 None] with
  | Ok t => t
  | Throw _ => Elem 0 false KRoot []
  end.

Definition example_loaded_server : Server := mkServer example_loaded ∅ ∅ ∅ [].

(** ** Sockets *)

(** The socket of a client object: the address of the peer, and whether
    it is still there.  Two stores have the same sockets when the same
    clients are live and every client object has the socket it had. *)
Definition socket (c : Client) : string * bool := (remote c, connected c).

Definition same_sockets (s s' : Server) : Prop :=
  clients s' = clients s ∧
  ∀ x, socket <$> sessions s' !! x = socket <$> sessions s !! x.

(** Every live client is a client object with an open socket. *)
Definition live_open (s : Server) : Prop :=
  ∀ x, x ∈ clients s → ∃ c, sessions s !! x = Some c ∧ connected c = true.

(** * Properties *)

(** ** The store *)

Lemma set_sessions_id (s : Server) : set_sessions (sessions s) s = s.
Proof. by destruct s. Qed.

Lemma set_subscribers_id (s : Server) : set_subscribers (subscribers s) s = s.
Proof. by destruct s. Qed.

Lemma on_client_absent cid f (s : Server) :
  sessions s !! cid = None → on_client cid f s = s.
Proof.
  intros H. unfold on_client.
  assert (alter f cid (sessions s) = sessions s) as ->; [|apply set_sessions_id].
  apply map_eq. intros i. destruct (decide (cid = i)) as [<-|Hne].
  - by rewrite lookup_alter_eq, H.
  - by rewrite lookup_alter_ne.
Qed.

Lemma on_client_ext cid f g (s : Server) :
  (∀ c, sessions s !! cid = Some c → f c = g c) →
  on_client cid f s = on_client cid g s.
Proof. intros H. unfold on_client. f_equal. by apply alter_ext. Qed.

Lemma on_client_on_client cid f g (s : Server) :
  on_client cid f (on_client cid g s) = on_client cid (f ∘ g) s.
Proof.
  unfold on_client, set_sessions; simpl.
  assert (alter f cid (alter g cid (sessions s)) = alter (f ∘ g) cid (sessions s))
    as ->; [|done].
  apply map_eq. intros i. destruct (decide (cid = i)) as [<-|Hne].
  - rewrite !lookup_alter_eq. by destruct (_ !! cid).
  - by rewrite !lookup_alter_ne.
Qed.

Lemma sessions_on_client cid f (s : Server) x :
  sessions (on_client cid f s) !! x =
  if decide (x = cid) then f <$> sessions s !! x else sessions s !! x.
Proof.
  unfold on_client; simpl. case_decide as H.
  - subst. apply lookup_alter_eq.
  - by apply lookup_alter_ne.
Qed.

(** ** The tree *)

Lemma find_update_child n g l :
  (∀ c, number (g c) = number c) →
  find_child n (update_child n g l) = g <$> find_child n l.
Proof.
  intros Hg. induction l as [|c l IH]; simpl; [done|].
  destruct (decide (number c = n)) as [Hc|Hc]; simpl.
  - rewrite Hg. by rewrite decide_True.
  - by rewrite decide_False.
Qed.

Lemma number_update_at p f e :
  (∀ c, number (f c) = number c) → number (update_at p f e) = number e.
Proof. intros Hf. destruct p; simpl; [apply Hf|done]. Qed.

(** Reading back through the path just written: the element is the
    updated one. *)
Lemma getElementByPath_update_at p f t :
  (∀ c, number (f c) = number c) →
  getElementByPath p (update_at p f t) = f <$> getElementByPath p t.
Proof.
  intros Hf. revert t. induction p as [|n p IH]; intros t; simpl; [done|].
  rewrite find_update_child by (intros c; by apply number_update_at).
  destruct (find_child n (children t)) as [c|]; simpl; [apply IH|done].
Qed.

Lemma number_set_kind k e : number (set_kind k e) = number e.
Proof. done. Qed.

Lemma number_set_connection t srcs e : number (set_connection t srcs e) = number e.
Proof. unfold set_connection. by destruct (kind e) as [| | |? [?|]]. Qed.

Lemma filter_all {A} (P : A → Prop) `{∀ x, Decision (P x)} (l : list A) :
  (∀ x, x ∈ l → P x) → filter P l = l.
Proof.
  induction l as [|a l IH]; intros Hl; [done|].
  rewrite filter_cons, decide_True by (apply Hl; apply list_elem_of_here).
  f_equal. apply IH. intros x Hx. apply Hl. by apply list_elem_of_further.
Qed.

Lemma filter_ext_elem {A} (P Q : A → Prop) `{∀ x, Decision (P x)}
    `{∀ x, Decision (Q x)} (l : list A) :
  (∀ x, x ∈ l → P x ↔ Q x) → filter P l = filter Q l.
Proof.
  induction l as [|a l IH]; intros Hl; [done|].
  rewrite !filter_cons, IH
    by (intros x Hx; apply Hl; by apply list_elem_of_further).
  destruct (Hl a (list_elem_of_here _ _)) as [H1 H2].
  destruct (decide (P a)), (decide (Q a)); try done; exfalso; auto.
Qed.

(** ** The request queue of a client *)

Lemma sendBERNode_idle node c : idle c → idle (sendBERNode node c).
Proof.
  intros [? ?]. destruct node as [n|]; simpl; [|done].
  unfold sendBER. by destruct (isConnected c).
Qed.

Lemma invoke_send fuel cid node s :
  invoke (S fuel) cid (WSend node) s = on_client cid (sendBERNode node) s.
Proof. done. Qed.

(** The lemmas of this section hold for any way of running closures
    that runs the closure of [queueMessage] as [sendBERNode]; [invoke]
    with some fuel is one. *)
Section Queue.
Variable call : nat → Work → Server → Server.
Hypothesis call_send :
  ∀ cid node s, call cid (WSend node) s = on_client cid (sendBERNode node) s.

(** With no request active, [makeRequest] runs the oldest pending
    closure and nothing else. *)
Lemma makeRequest_runs_oldest cid c w rest s :
  sessions s !! cid = Some c →
  activeRequest c = None → pendingRequests c = w :: rest →
  makeRequest call cid s =
  on_client cid (set_active None)
    (call cid w (on_client cid (λ c, set_active (Some w) (set_pending rest c)) s)).
Proof. intros Hc Ha Hp. unfold makeRequest. by rewrite Hc, Ha, Hp. Qed.

(** While a request is active, [addRequest] only appends. *)
Lemma addRequest_while_active cid c a w s :
  sessions s !! cid = Some c → activeRequest c = Some a →
  addRequest call cid w s =
  on_client cid (λ c, set_pending (pendingRequests c ++ [w]) c) s.
Proof.
  intros Hc Ha. unfold addRequest, makeRequest.
  rewrite sessions_on_client, decide_True, Hc by done. simpl. by rewrite Ha.
Qed.

(** On an idle client, [queueMessage] sends the node at once. *)
Lemma queueMessage_idle cid node s :
  (∀ c, sessions s !! cid = Some c → idle c) →
  queueMessage call cid node s = on_client cid (sendBERNode node) s.
Proof.
  intros Hidle. unfold queueMessage, addRequest.
  destruct (sessions s !! cid) as [c|] eqn:Hc.
  - destruct (Hidle c eq_refl) as [Hp Ha].
    erewrite makeRequest_runs_oldest; cycle 1.
    + rewrite sessions_on_client, decide_True, Hc by done. done.
    + done.
    + simpl. rewrite Hp. done.
    + rewrite call_send, !on_client_on_client.
      apply on_client_ext. intros c' Hc'. assert (c' = c) as -> by congruence.
      destruct c as [r cn wr rq pd ac]; simpl in *; subst.
      destruct node as [n|]; simpl; [|done].
      unfold sendBER, isConnected; simpl. by destruct cn.
  - rewrite !on_client_absent; try done.
    unfold makeRequest. by rewrite Hc.
Qed.

(** *** Fan-out *)

Lemma notify_live path response origin x s :
  origin ≠ Some x → x ∈ clients s →
  (∀ c, sessions s !! x = Some c → idle c) →
  notify call path response origin x s =
  on_client x (sendBERNode (Some response)) s.
Proof.
  intros Ho Hl Hi. unfold notify.
  rewrite decide_False, decide_True by done. by apply queueMessage_idle.
Qed.

Lemma fanout_fold path response origin k : ∀ s l0,
  NoDup k → idle_subscribers origin s k →
  subscribers s !! path = Some l0 →
  let s' := foldl (λ s c, notify call path response origin c s) s k in
  tree s' = tree s ∧ clients s' = clients s ∧ events s' = events s ∧
  subscribers s' =
    <[path := filter (λ x, ¬ (x ∈ k ∧ stale origin s x)) l0]> (subscribers s) ∧
  ∀ x, sessions s' !! x =
       if decide (notified origin s k x)
       then sendBERNode (Some response) <$> sessions s !! x
       else sessions s !! x.
Proof.
  induction k as [|c k IH]; intros s l0 Hnd Hidle Hsub; cbn [foldl]; cbv zeta.
  - repeat split; try done.
    rewrite filter_all; [by rewrite insert_id|].
    intros x _ [H _]. by apply not_elem_of_nil in H.
  - apply NoDup_cons in Hnd as [Hc Hnd].
    set (s1 := notify call path response origin c s).
    assert (tree s1 = tree s ∧ clients s1 = clients s ∧ events s1 = events s ∧
            subscribers s1 !! path =
              Some (if decide (stale origin s c) then set_delete c l0 else l0) ∧
            subscribers s1 =
              <[path := if decide (stale origin s c) then set_delete c l0 else l0]>
                (subscribers s) ∧
            ∀ x, sessions s1 !! x =
                 if decide (x = c ∧ origin ≠ Some c ∧ c ∈ clients s)
                 then sendBERNode (Some response) <$> sessions s !! x
                 else sessions s !! x) as (Ht & Hcl & Hev & Hs1 & Hs1' & Hse).
    { subst s1. unfold notify.
      destruct (decide (origin = Some c)) as [Ho|Ho].
      - rewrite decide_False by (intros [? ?]; done).
        repeat split; try done.
        + by rewrite insert_id.
        + intros x. rewrite decide_False; [done|]. intros (_ & ? & _); done.
      - destruct (decide (c ∈ clients s)) as [Hl|Hl].
        + rewrite decide_False by (intros [? ?]; done).
          rewrite queueMessage_idle.
          * repeat split; try done.
            -- by rewrite insert_id.
            -- intros x. rewrite sessions_on_client.
               destruct (decide (x = c)) as [->|Hx].
               ++ by rewrite decide_True.
               ++ rewrite decide_False; [done|]. intros (? & _); done.
          * intros c0 Hc0. apply (Hidle c c0); [|done].
            split; [apply list_elem_of_here|done].
        + rewrite decide_True by done.
          rewrite Hsub. simpl. repeat split; try done.
          * by rewrite lookup_insert_eq.
          * intros x. rewrite decide_False; [done|]. intros (_ & _ & ?); done. }
    assert (idle_subscribers origin s1 k) as Hidle1.
    { intros x cx (Hx & Hox & Hlx) Hcx.
      rewrite Hse in Hcx. rewrite decide_False in Hcx.
      - apply (Hidle x cx); [|done]. split; [by apply list_elem_of_further|].
        split; [done|]. by rewrite <- Hcl.
      - intros (-> & _). done. }
    destruct (IH s1 _ Hnd Hidle1 Hs1) as (Ht' & Hcl' & Hev' & Hsub' & Hse').
    repeat split.
    + congruence.
    + congruence.
    + congruence.
    + rewrite Hsub', Hs1', insert_insert_eq. f_equal.
      destruct (decide (stale origin s c)) as [Hst|Hst].
      * unfold set_delete. rewrite list_filter_filter.
        apply list_filter_iff. intros x. unfold stale in *. rewrite Hcl.
        rewrite elem_of_cons. split.
        -- intros [H1 H2] [[->|H3] H4]; [done|]. apply H1. done.
        -- intros H. split.
           ++ intros [H1 H2]. apply H. split; [by right|done].
           ++ intros ->. apply H. split; [by left|done].
      * apply list_filter_iff. intros x. unfold stale in *. rewrite Hcl.
        rewrite elem_of_cons. split.
        -- intros H1 [[->|H3] H4]; [done|]. apply H1. done.
        -- intros H [H1 H2]. apply H. split; [by right|done].
    + intros x. rewrite Hse', Hse. unfold notified. rewrite Hcl.
      clear IH Hidle Hidle1 Hse Hse'.
      repeat case_decide; try done; exfalso; set_solver.
Qed.

(** The effect of a fan-out on a registry entry [l] whose notified
    clients are idle: nothing but the registry and the sessions
    changes; the entries that are neither the origin nor live are
    dropped; each client that is subscribed, live and not the origin
    has the response sent to it once; nobody else is touched. *)
Lemma updateSubscribers_spec path response origin s l :
  subscribers s !! path = Some l →
  NoDup l → idle_subscribers origin s l →
  let s' := updateSubscribers call path response origin s in
  tree s' = tree s ∧ clients s' = clients s ∧ events s' = events s ∧
  subscribers s' =
    <[path := filter (λ x, origin = Some x ∨ x ∈ clients s) l]> (subscribers s) ∧
  ∀ x, sessions s' !! x =
       if decide (notified origin s l x)
       then sendBERNode (Some response) <$> sessions s !! x
       else sessions s !! x.
Proof.
  intros Hsub Hnd Hidle. unfold updateSubscribers. rewrite Hsub.
  destruct (fanout_fold path response origin l s l Hnd Hidle Hsub)
    as (Ht & Hcl & Hev & Hs & Hse).
  repeat split; try done.
  rewrite Hs. f_equal. apply filter_ext_elem. intros x Hx. unfold stale.
  destruct (decide (origin = Some x)), (decide (x ∈ clients s)); naive_solver.
Qed.

Lemma updateSubscribers_frame path response origin s :
  let l := default [] (subscribers s !! path) in
  NoDup l → idle_subscribers origin s l →
  let s' := updateSubscribers call path response origin s in
  tree s' = tree s ∧ clients s' = clients s ∧ events s' = events s ∧
  ∀ x, sessions s' !! x =
       if decide (notified origin s l x)
       then sendBERNode (Some response) <$> sessions s !! x
       else sessions s !! x.
Proof.
  destruct (subscribers s !! path) as [l|] eqn:Hsub; simpl; intros Hnd Hidle.
  - destruct (updateSubscribers_spec path response origin s l Hsub Hnd Hidle)
      as (? & ? & ? & _ & ?). done.
  - unfold updateSubscribers. rewrite Hsub. by repeat split.
Qed.

End Queue.

(** ** The subscription registry *)

Lemma elem_of_set_add x c l : x ∈ set_add c l ↔ x = c ∨ x ∈ l.
Proof.
  unfold set_add. case_decide as H.
  - split; [by right|]. by intros [->|?].
  - rewrite elem_of_app, list_elem_of_singleton. tauto.
Qed.

Lemma elem_of_set_delete x c l : x ∈ set_delete c l ↔ x ≠ c ∧ x ∈ l.
Proof. unfold set_delete. by rewrite list_elem_of_filter. Qed.

Lemma NoDup_set_add c l : NoDup l → NoDup (set_add c l).
Proof.
  intros H. unfold set_add. case_decide as Hc; [done|].
  apply NoDup_app. split; [done|]. split; [|apply NoDup_singleton].
  intros x Hx ->%list_elem_of_singleton. done.
Qed.

Lemma NoDup_set_delete c l : NoDup l → NoDup (set_delete c l).
Proof. apply NoDup_filter. Qed.

Lemma set_delete_absent c l : c ∉ l → set_delete c l = l.
Proof. intros H. apply filter_all. intros x Hx ->. done. Qed.

Lemma subscribers_subscribe client path s q :
  subscribers (subscribe client path s) !! q =
  if decide (path = q)
  then Some (set_add client (default [] (subscribers s !! path)))
  else subscribers s !! q.
Proof. unfold subscribe; simpl. apply lookup_insert. Qed.

Lemma subscribe_subscribed client path s : subscribed client path (subscribe client path s).
Proof.
  unfold subscribed. rewrite subscribers_subscribe, decide_True by done. simpl.
  apply elem_of_set_add. by left.
Qed.

Lemma subscribe_keeps x q client path s :
  subscribed x q s → subscribed x q (subscribe client path s).
Proof.
  unfold subscribed. rewrite subscribers_subscribe. case_decide as H; [|done].
  subst. simpl. intros Hx. apply elem_of_set_add. by right.
Qed.

Lemma subscribe_children_keeps x q client p kids : ∀ s,
  subscribed x q s →
  subscribed x q (foldl (λ s child, subscribe client (p ++ [number child]) s) s kids).
Proof.
  induction kids as [|k kids IH]; intros s H; simpl; [done|].
  apply IH. by apply subscribe_keeps.
Qed.

Lemma subscribe_children client p kids child : ∀ s,
  child ∈ kids →
  subscribed client (p ++ [number child])
    (foldl (λ s child, subscribe client (p ++ [number child]) s) s kids).
Proof.
  induction kids as [|k kids IH]; intros s Hin; simpl.
  - by apply not_elem_of_nil in Hin.
  - apply elem_of_cons in Hin as [->|Hin].
    + apply subscribe_children_keeps, subscribe_subscribed.
    + by apply IH.
Qed.

Lemma handleGetDirectory_subscribers client p e s :
  deref p s = Some e →
  subscribers (handleGetDirectory (Some client) p s).2 =
  subscribers
    (if (isMatrix e || isParameter e) && negb (isStream e)
     then subscribe client p s
     else foldl (λ s child, subscribe client (p ++ [number child]) s) s (children e)).
Proof.
  intros He. unfold handleGetDirectory. rewrite He.
  match goal with |- context [request <$> ?x] => destruct (request <$> x) as [[rq|]|] end;
    done.
Qed.

(** C8.  GetDirectory on a matrix, or on a parameter without a stream
    identifier, subscribes the requesting client to the path of the
    target itself; on any other target it subscribes the client to the
    path of each immediate child. *)
Theorem handleGetDirectory_subscribes client p e s :
  deref p s = Some e →
  let s' := (handleGetDirectory (Some client) p s).2 in
  (isMatrix e = true ∨ (isParameter e = true ∧ isStream e = false) →
     subscribed client p s' ∧
     subscribers s' = subscribers (subscribe client p s)) ∧
  (¬ (isMatrix e = true ∨ (isParameter e = true ∧ isStream e = false)) →
     ∀ child, child ∈ children e → subscribed client (p ++ [number child]) s').
Proof.
  intros He s'. subst s'. unfold subscribed.
  rewrite (handleGetDirectory_subscribers _ _ _ _ He). split.
  - intros Hc.
    assert ((isMatrix e || isParameter e) && negb (isStream e) = true) as ->.
    { destruct Hc as [Hm|[Hp Hs]].
      - rewrite Hm. unfold isMatrix, isStream in *. by destruct (kind e).
      - rewrite Hp, Hs. by rewrite orb_true_r. }
    split; [apply subscribe_subscribed|done].
  - intros Hc child Hin.
    assert ((isMatrix e || isParameter e) && negb (isStream e) = false) as ->.
    { destruct (isMatrix e) eqn:Hm; [exfalso; apply Hc; by left|].
      destruct (isParameter e) eqn:Hp; [|done].
      destruct (isStream e) eqn:Hs; [done|]. exfalso; apply Hc; by right. }
    by apply subscribe_children.
Qed.

(** C7.  A fan-out skips the origin, hands the response through
    [queueMessage] to every other subscribed client that is still live
    (which, the client being idle, sends it once: on an open socket the
    response is the one node written, after what was written before),
    and deletes from the subscriber set of the path every other
    subscribed client that is no longer live.  Nothing is written to any
    other client. *)
Theorem updateSubscribers_fanout (fuel : nat) path response origin s l :
  subscribers s !! path = Some l →
  NoDup l → idle_subscribers origin s l →
  let s' := updateSubscribers (invoke (S fuel)) path response origin s in
  (∀ o, origin = Some o → sessions s' !! o = sessions s !! o) ∧
  (∀ x, x ∈ l → origin ≠ Some x → x ∈ clients s →
     sessions s' !! x =
       sessions (queueMessage (invoke (S fuel)) x (Some response) s) !! x ∧
     sessions s' !! x = sendBERNode (Some response) <$> sessions s !! x) ∧
  (∃ l', subscribers s' !! path = Some l' ∧
     (∀ x, x ∈ l → origin ≠ Some x → x ∉ clients s → x ∉ l') ∧
     (∀ x, x ∈ l → origin = Some x ∨ x ∈ clients s → x ∈ l')) ∧
  (∀ x c, x ∈ l → origin ≠ Some x → x ∈ clients s →
     sessions s !! x = Some c → connected c = true →
     written <$> sessions s' !! x = Some (written c ++ [response])) ∧
  (∀ x, x ∉ l ∨ origin = Some x ∨ x ∉ clients s →
     sessions s' !! x = sessions s !! x).
Proof.
  intros Hsub Hnd Hidle s'.
  destruct (updateSubscribers_spec (invoke (S fuel)) (invoke_send fuel)
              path response origin s l Hsub Hnd Hidle) as (_ & _ & _ & Hs & Hse).
  fold s' in Hs, Hse. split; [|split; [|split; [|split]]].
  - intros o ->. rewrite Hse, decide_False; [done|]. intros (_ & ? & _); done.
  - intros x Hx Ho Hl.
    assert (sessions s' !! x = sendBERNode (Some response) <$> sessions s !! x) as E.
    { rewrite Hse, decide_True; done. }
    split; [|done]. rewrite E.
    rewrite (queueMessage_idle _ (invoke_send fuel)).
    + rewrite sessions_on_client, decide_True; done.
    + intros c Hc. by apply (Hidle x c).
  - eexists. split; [rewrite Hs; apply lookup_insert_eq|]. split.
    + intros x Hx Ho Hl [[?|?] _]%list_elem_of_filter; done.
    + intros x Hx H. apply list_elem_of_filter. done.
  - intros x c Hx Ho Hl Hc Hopen. rewrite Hse, decide_True by done.
    rewrite Hc. cbn. unfold sendBER, isConnected. by rewrite Hopen.
  - intros x Hx. rewrite Hse, decide_False; [done|].
    intros (? & ? & ?). destruct Hx as [?|[?|?]]; done.
Qed.

Lemma idle_subscribers_mono origin s s' k k' :
  sessions s' = sessions s → clients s' = clients s →
  (∀ x, x ∈ k' → x ∈ k) →
  idle_subscribers origin s k → idle_subscribers origin s' k'.
Proof.
  intros Hs Hc Hk H x c (Hx & Ho & Hl) Hxc. apply (H x c).
  - split; [by apply Hk|]. split; [done|]. by rewrite <- Hc.
  - by rewrite <- Hs.
Qed.

(** C9.  [unsubscribe] removes the client from the subscriber set of the
    path and changes nothing when the path or the client is absent from
    the registry; after [subscribe] then [unsubscribe] on a path the
    client is not a subscriber of it, and a fan-out for that path leaves
    the client's session as it was. *)
Theorem unsubscribe_spec client p s :
  (subscribers s !! p = None → unsubscribe client p s = s) ∧
  (∀ l, subscribers s !! p = Some l →
     subscribers (unsubscribe client p s) !! p = Some (set_delete client l) ∧
     ¬ subscribed client p (unsubscribe client p s) ∧
     (client ∉ l → unsubscribe client p s = s)) ∧
  (let s2 := unsubscribe client p (subscribe client p s) in
   ¬ subscribed client p s2 ∧
   ∀ fuel response origin,
     NoDup (default [] (subscribers s !! p)) →
     idle_subscribers origin s (default [] (subscribers s !! p)) →
     sessions (updateSubscribers (invoke (S fuel)) p response origin s2) !! client =
     sessions s2 !! client).
Proof.
  split; [|split].
  - intros H. unfold unsubscribe. by rewrite H.
  - intros l H. unfold unsubscribe, subscribed. rewrite H. simpl.
    rewrite lookup_insert_eq. simpl. split; [done|]. split.
    + intros [? _]%elem_of_set_delete. done.
    + intros Hc. rewrite set_delete_absent, insert_id by done.
      apply set_subscribers_id.
  - set (l0 := default [] (subscribers s !! p)).
    set (s1 := subscribe client p s).
    assert (subscribers s1 !! p = Some (set_add client l0)) as H1.
    { subst s1. rewrite subscribers_subscribe, decide_True; done. }
    assert (subscribers (unsubscribe client p s1) !! p =
            Some (set_delete client (set_add client l0))) as H2.
    { unfold unsubscribe. rewrite H1. simpl. by rewrite lookup_insert_eq. }
    assert (sessions (unsubscribe client p s1) = sessions s ∧
            clients (unsubscribe client p s1) = clients s) as [Hse Hcl].
    { unfold unsubscribe. rewrite H1. done. }
    cbv zeta. split.
    + unfold subscribed. rewrite H2. simpl.
      intros [? _]%elem_of_set_delete. done.
    + intros fuel response origin Hnd Hidle.
      destruct (updateSubscribers_spec (invoke (S fuel)) (invoke_send fuel)
                  p response origin _ _ H2) as (_ & _ & _ & _ & E).
      * by apply NoDup_set_delete, NoDup_set_add.
      * apply (idle_subscribers_mono origin s _ l0); try done.
        intros x [? [->|?]%elem_of_set_add]%elem_of_set_delete; done.
      * rewrite E, decide_False; [done|].
        intros ([? _]%elem_of_set_delete & _). done.
Qed.

(** The sessions of the running example are idle: every case is settled
    by looking the client up. *)
Ltac example_idle :=
  let x := fresh "x" in let c := fresh "c" in
  let Hx := fresh "Hx" in let Hc := fresh "Hc" in
  intros x c (Hx & _ & _) Hc;
  repeat (apply elem_of_cons in Hx as [->|Hx]);
  [ (vm_compute in Hc; injection Hc as <-; split; reflexivity) ..
  | (by apply not_elem_of_nil in Hx) ].

Lemma handleGetDirectory_subscribes_witness :
  subscribed 0 [1; 2]%Z (handleGetDirectory (Some 0) [1; 2]%Z example_server).2 ∧
  subscribed 1 [3]%Z (handleGetDirectory (Some 1) [] example_server).2.
Proof.
  split.
  - apply (handleGetDirectory_subscribes 0 [1; 2]%Z example_parameter example_server);
      [reflexivity|]. right. split; reflexivity.
  - apply (handleGetDirectory_subscribes 1 [] example_tree example_server eq_refl).
    + intros [H|[H _]]; discriminate H.
    + apply list_elem_of_further, list_elem_of_here.
Defined.

Lemma updateSubscribers_fanout_witness :
  let response := TreeBranch [1; 2]%Z LeafBare in
  let s' := updateSubscribers (invoke 1) [1; 2]%Z response (Some 0) example_server in
  sessions s' !! 0 = sessions example_server !! 0 ∧
  sessions s' !! 1 = sendBERNode (Some response) <$> sessions example_server !! 1 ∧
  (∃ l', subscribers s' !! [1; 2]%Z = Some l' ∧ (2 ∉ l') ∧ 0 ∈ l' ∧ 1 ∈ l') ∧
  written <$> sessions s' !! 1 = Some [response] ∧
  written <$> sessions s' !! 0 = Some [] ∧
  written <$> sessions s' !! 2 = Some [].
Proof.
  destruct (updateSubscribers_fanout 0 [1; 2]%Z (TreeBranch [1; 2]%Z LeafBare) (Some 0)
              example_server [0; 1; 2])
    as (H0 & H1 & (l' & Hl' & Hgone & Hkept) & Hw & Hrest).
  - reflexivity.
  - repeat constructor; set_solver.
  - example_idle.
  - cbv zeta. split; [by apply H0|]. split; [|split; [|split; [|split]]].
    + apply H1; [set_solver|done|set_solver].
    + exists l'. split; [done|]. split; [|split].
      * apply Hgone; [set_solver|done|set_solver].
      * apply Hkept; [set_solver|by left].
      * apply Hkept; [set_solver|right; set_solver].
    + apply (Hw 1 (example_client "10.0.0.2:9000" true));
        [set_solver|done|set_solver|reflexivity|reflexivity].
    + rewrite (Hrest 0) by (right; by left). reflexivity.
    + rewrite (Hrest 2) by (right; right; set_solver). reflexivity.
Defined.

Lemma unsubscribe_spec_witness :
  let s2 := unsubscribe 0 [3]%Z (subscribe 0 [3]%Z example_server) in
  ¬ subscribed 0 [3]%Z s2 ∧
  sessions (updateSubscribers (invoke 1) [3]%Z MinimalRoot None s2) !! 0 =
  sessions s2 !! 0.
Proof.
  destruct (unsubscribe_spec 0 [3]%Z example_server) as (_ & _ & Hnot & Hquiet).
  split; [exact Hnot|]. apply Hquiet.
  - repeat constructor; set_solver.
  - example_idle.
Defined.

(** ** Requests queued while a request is active *)

(** A closure that queues a message on its own client while it is the
    active request: the message is appended and not pumped, and it is
    still pending, unsent, when the closure has returned and the active
    slot is free again. *)
Lemma addRequest_reentrant fuel cid c node s :
  sessions s !! cid = Some c → idle c →
  sessions (addRequest (invoke (S (S fuel))) cid (WQueue node) s) !! cid =
  Some (set_pending [WSend node] c).
Proof.
  intros Hc [Hp Ha]. unfold addRequest.
  erewrite makeRequest_runs_oldest; cycle 1.
  - rewrite sessions_on_client, decide_True, Hc by done. done.
  - done.
  - simpl. by rewrite Hp.
  - change (invoke (S (S fuel)) cid (WQueue node)) with
      (addRequest (invoke (S fuel)) cid (WSend node)).
    erewrite addRequest_while_active; cycle 1.
    + rewrite !sessions_on_client, !decide_True, Hc by done. done.
    + done.
    + rewrite !on_client_on_client, sessions_on_client, decide_True, Hc by done.
      destruct c; simpl in *; by subst.
Qed.

(** C3, at the failing input.  On the idle client 0 a request is added
    whose closure queues a message for that same client.  When
    [addRequest] returns, the message is pending, nothing has been
    written and no request is active, so nothing will pump it.  The
    next message queued is appended behind it: the pump then sends the
    older message and leaves the newer one pending in turn. *)
Theorem queued_while_active_is_stranded :
  let first := TreeBranch [1]%Z LeafBare in
  let second := TreeBranch [3]%Z LeafBare in
  let s1 := addRequest (invoke 2) 0 (WQueue (Some first)) example_server in
  let s2 := queueMessage (invoke 2) 0 (Some second) s1 in
  (sessions s1 !! 0 =
     Some (set_pending [WSend (Some first)] (example_client "10.0.0.1:9000" true))) ∧
  (sessions s2 !! 0 =
     Some (set_pending [WSend (Some second)]
             (set_written [first] (example_client "10.0.0.1:9000" true)))).
Proof. split; vm_compute; reflexivity. Qed.

(** ** Setting a parameter *)

Lemma setValue_writable p v origin key s e c a :
  deref p s = Some e → kind e = KParameter (Some c) →
  access c = Some a → (1 < access_value a)%Z →
  setValue p v origin key s =
  emit (EValueChange p (value c))
    (set_tree (update_at p (set_kind (KParameter (Some (set_value v c)))) (tree s)) s).
Proof.
  intros He Hk Ha Hw. unfold setValue. rewrite He, Hk, Ha.
  by rewrite bool_decide_eq_true_2.
Qed.

Lemma setValue_read_only p v origin key s e c a :
  deref p s = Some e → kind e = KParameter (Some c) →
  access c = Some a → (access_value a ≤ 1)%Z →
  setValue p v origin key s = s.
Proof.
  intros He Hk Ha Hw. unfold setValue. rewrite He, Hk, Ha.
  rewrite bool_decide_eq_false_2; [done|lia].
Qed.

(** The direct reply followed by the fan-out with the replying client as
    origin: the client and every live subscriber of the path are sent
    the response, each once; nothing else changes but the registry. *)
Lemma reply_and_fanout fuel client p res s :
  let l := default [] (subscribers s !! p) in
  NoDup l → idle_subscribers (Some client) s l →
  let s' := updateSubscribers (invoke (S fuel)) p res (Some client)
              (on_client client (sendBERNode (Some res)) s) in
  tree s' = tree s ∧ clients s' = clients s ∧ events s' = events s ∧
  ∀ x, sessions s' !! x =
       if decide (x = client ∨ (subscribed x p s ∧ x ∈ clients s))
       then sendBERNode (Some res) <$> sessions s !! x
       else sessions s !! x.
Proof.
  intros l Hnd Hidle s'.
  set (s1 := on_client client (sendBERNode (Some res)) s).
  destruct (updateSubscribers_frame (invoke (S fuel)) (invoke_send fuel)
              p res (Some client) s1) as (Ht & Hc & He & Hs).
  - done.
  - intros x c (Hx & Ho & Hl) Hxc. apply (Hidle x c); [done|].
    subst s1. rewrite sessions_on_client, decide_False in Hxc; [done|congruence].
  - fold s' in Ht, Hc, He, Hs. repeat split; try done.
    intros x. rewrite Hs. subst s1. rewrite sessions_on_client.
    unfold notified, subscribed. simpl. fold l.
    repeat case_decide; try done; exfalso; naive_solver.
Qed.

Lemma handleQualifiedParameter_set call client p req v s e1 :
  r_contents req = Some (Some v) →
  deref p (setValue p v (Some client) None s) = Some e1 →
  handleQualifiedParameter call client p req s =
  (Ok (), updateSubscribers call p (getQualifiedResponse p e1) (Some client)
            (on_client client (sendBERNode (Some (getQualifiedResponse p e1)))
               (setValue p v (Some client) None s))).
Proof. intros Hr He. unfold handleQualifiedParameter. by rewrite Hr, He. Qed.

Lemma handleNode_set call client node p cmd v s e e1 :
  traverse node [] = Some (p, cmd) →
  r_class cmd = CParameter → r_contents cmd = Some (Some v) →
  deref p s = Some e →
  deref p (setValue p v (Some client) None s) = Some e1 →
  handleNode call client node s =
  (Ok (RPathArray p),
   updateSubscribers call p (getResponse p e1) (Some client)
     (on_client client (sendBERNode (Some (getResponse p e1)))
        (setValue p v (Some client) None s))).
Proof.
  intros Ht Hc Hr He He1. unfold handleNode. rewrite Ht, He, Hc, Hr.
  rewrite decide_False by done. by rewrite He1.
Qed.

Lemma parameter_set_core fuel client p v s e c a (form : Path → Element → Msg) :
  deref p s = Some e → kind e = KParameter (Some c) → access c = Some a →
  let l := default [] (subscribers s !! p) in
  NoDup l → idle_subscribers (Some client) s l →
  let s1 := setValue p v (Some client) None s in
  let e' := if bool_decide (1 < access_value a)%Z
            then set_kind (KParameter (Some (set_value v c))) e else e in
  deref p s1 = Some e' ∧
  parameter_set_outcome client p e'
    (if bool_decide (1 < access_value a)%Z then [EValueChange p (value c)] else [])
    (form p e') s
    (updateSubscribers (invoke (S fuel)) p (form p e') (Some client)
       (on_client client (sendBERNode (Some (form p e'))) s1)).
Proof.
  intros He Hk Ha l Hnd Hidle s1 e'.
  assert (deref p s1 = Some e' ∧ subscribers s1 = subscribers s ∧
          sessions s1 = sessions s ∧ clients s1 = clients s ∧
          events s1 = events s ++
            (if bool_decide (1 < access_value a)%Z
             then [EValueChange p (value c)] else [])) as (He' & Hsub & Hse & Hcl & Hev).
  { subst s1 e'. case_bool_decide as Hw.
    - rewrite (setValue_writable _ _ _ _ _ _ _ _ He Hk Ha Hw).
      unfold deref; simpl. split; [|done].
      unfold deref in He. by rewrite getElementByPath_update_at, He.
    - rewrite (setValue_read_only _ _ _ _ _ _ _ _ He Hk Ha) by lia.
      by rewrite app_nil_r. }
  split; [done|].
  destruct (reply_and_fanout fuel client p (form p e') s1) as (Ht & Hc & Hevs & Hs).
  - by rewrite Hsub.
  - rewrite Hsub. by apply (idle_subscribers_mono (Some client) s _ l).
  - split; [|split].
    + unfold deref in *. by rewrite Ht.
    + by rewrite Hevs.
    + intros x. rewrite Hs, Hse, Hcl.
      assert (subscribed x p s1 ↔ subscribed x p s) as Hiff
        by (unfold subscribed; by rewrite Hsub).
      repeat case_decide; try done; exfalso; naive_solver.
Qed.

Lemma outcome_written client p e' evs res s s' :
  parameter_set_outcome client p e' evs res s s' →
  (∀ x c0, sessions s !! x = Some c0 → connected c0 = true →
     x = client ∨ (subscribed x p s ∧ x ∈ clients s) →
     written <$> sessions s' !! x = Some (written c0 ++ [res])) ∧
  (∀ x, ¬ (x = client ∨ (subscribed x p s ∧ x ∈ clients s)) →
     sessions s' !! x = sessions s !! x).
Proof.
  intros (_ & _ & Hses). split.
  - intros x c0 Hc Hopen Hx. rewrite Hses, decide_True by done.
    rewrite Hc. cbn. unfold sendBER, isConnected. by rewrite Hopen.
  - intros x Hx. by rewrite Hses, decide_False.
Qed.

(** C4.  A parameter-set request on a parameter whose access is above
    [read] stores the requested value, emits a value-change event with
    the element and the prior value, and sends the updated parameter, in
    the form of the request (qualified, or a tree branch), to the
    originating client and to every live subscriber of the path of the
    parameter; each of them is sent it exactly once, the originator by
    the direct reply only.  On an open socket the response, the element
    with the requested value and with its children, is the one node
    written; nothing is written to anybody else. *)
Theorem parameter_set_writable fuel client p v s e c a :
  deref p s = Some e → kind e = KParameter (Some c) →
  access c = Some a → (access_value AccessRead < access_value a)%Z →
  NoDup (default [] (subscribers s !! p)) →
  idle_subscribers (Some client) s (default [] (subscribers s !! p)) →
  let e' := set_kind (KParameter (Some (set_value v c))) e in
  let contents := mkParameterContents (Some v) (access c) (streamIdentifier c) in
  let updated := Elem (number e) (qualified e) (KParameter (Some contents)) (children e) in
  let leaf := LeafElement (mkView (number e) (KParameter (Some contents)))
                ((λ k, mkView (number k) (kind k)) <$> children e) in
  let delivered (form : Path → Leaf → Msg) (s' : Server) :=
    deref p s' = Some updated ∧
    events s' = events s ++ [EValueChange p (value c)] ∧
    (∀ x c0, sessions s !! x = Some c0 → connected c0 = true →
       x = client ∨ (subscribed x p s ∧ x ∈ clients s) →
       written <$> sessions s' !! x = Some (written c0 ++ [form p leaf])) ∧
    (∀ x, ¬ (x = client ∨ (subscribed x p s ∧ x ∈ clients s)) →
       sessions s' !! x = sessions s !! x) in
  (∀ req, r_contents req = Some (Some v) →
     ∃ s', handleQualifiedParameter (invoke (S fuel)) client p req s = (Ok (), s') ∧
           parameter_set_outcome client p e' [EValueChange p (value c)]
             (getQualifiedResponse p e') s s' ∧
           delivered QualifiedMsg s') ∧
  (∀ node cmd,
     traverse node [] = Some (p, cmd) →
     r_class cmd = CParameter → r_contents cmd = Some (Some v) →
     ∃ s', handleNode (invoke (S fuel)) client node s = (Ok (RPathArray p), s') ∧
           parameter_set_outcome client p e' [EValueChange p (value c)]
             (getResponse p e') s s' ∧
           delivered TreeBranch s').
Proof.
  intros He Hk Ha Hw Hnd Hidle e' contents updated leaf delivered.
  change (access_value AccessRead) with 1%Z in Hw.
  split.
  - intros req Hr.
    destruct (parameter_set_core fuel client p v s e c a getQualifiedResponse
                He Hk Ha Hnd Hidle) as [He' Hout].
    rewrite bool_decide_eq_true_2 in He', Hout by done.
    eexists. split; [by apply handleQualifiedParameter_set|]. split; [done|].
    destruct (outcome_written _ _ _ _ _ _ _ Hout) as [H1 H2].
    destruct Hout as (Hd & Hev & _). by repeat split.
  - intros node cmd Ht Hc Hr.
    destruct (parameter_set_core fuel client p v s e c a getResponse
                He Hk Ha Hnd Hidle) as [He' Hout].
    rewrite bool_decide_eq_true_2 in He', Hout by done.
    eexists. split; [by eapply handleNode_set|]. split; [done|].
    destruct (outcome_written _ _ _ _ _ _ _ Hout) as [H1 H2].
    destruct Hout as (Hd & Hev & _). by repeat split.
Qed.

(** C5.  A write attempt on a parameter whose access is [read] or below
    has no effect and raises no error: [setValue] leaves the whole store
    as it is (the value stays, no value-change event is emitted), and
    the request is answered like a successful one, with the unchanged
    parameter. *)
Theorem parameter_set_read_only fuel client p v s e c a :
  deref p s = Some e → kind e = KParameter (Some c) →
  access c = Some a → (access_value a ≤ access_value AccessRead)%Z →
  (∀ origin key, setValue p v origin key s = s) ∧
  (NoDup (default [] (subscribers s !! p)) →
   idle_subscribers (Some client) s (default [] (subscribers s !! p)) →
   (∀ req, r_contents req = Some (Some v) →
      ∃ s', handleQualifiedParameter (invoke (S fuel)) client p req s = (Ok (), s') ∧
            tree s' = tree s ∧ events s' = events s ∧
            parameter_set_outcome client p e [] (getQualifiedResponse p e) s s') ∧
   (∀ node cmd,
      traverse node [] = Some (p, cmd) →
      r_class cmd = CParameter → r_contents cmd = Some (Some v) →
      ∃ s', handleNode (invoke (S fuel)) client node s = (Ok (RPathArray p), s') ∧
            tree s' = tree s ∧ events s' = events s ∧
            parameter_set_outcome client p e [] (getResponse p e) s s')).
Proof.
  intros He Hk Ha Hw. change (access_value AccessRead) with 1%Z in Hw.
  assert (∀ origin key, setValue p v origin key s = s) as Hset
    by (intros; by eapply setValue_read_only).
  split; [done|]. intros Hnd Hidle.
  assert (∀ form : Path → Element → Msg,
            let s' := updateSubscribers (invoke (S fuel)) p (form p e) (Some client)
                        (on_client client (sendBERNode (Some (form p e))) s) in
            tree s' = tree s ∧ events s' = events s ∧
            parameter_set_outcome client p e [] (form p e) s s') as Hcore.
  { intros form s'.
    destruct (reply_and_fanout fuel client p (form p e) s Hnd Hidle)
      as (Ht & _ & Hev & Hs).
    fold s' in Ht, Hev, Hs. split; [done|]. split; [done|].
    split; [|split]; [|by rewrite app_nil_r|done].
    unfold deref in *. by rewrite Ht. }
  split.
  - intros req Hr. eexists. split; [|apply (Hcore getQualifiedResponse)].
    rewrite (handleQualifiedParameter_set _ _ _ _ v _ e Hr); rewrite Hset; done.
  - intros node cmd Ht Hc Hr. eexists. split; [|apply (Hcore getResponse)].
    rewrite (handleNode_set _ _ _ _ _ v _ e e Ht Hc Hr); rewrite ?Hset; done.
Qed.

Lemma parameter_set_writable_witness :
  let leaf := LeafElement
                (mkView 2 (KParameter (Some (mkParameterContents (Some (VInteger 42))
                                               (Some AccessReadWrite) None)))) [] in
  (∃ s', handleQualifiedParameter (invoke 1) 0 [1; 2]%Z
           (example_set [1; 2]%Z 42) example_server = (Ok (), s') ∧
         (value <$> (match kind <$> deref [1; 2]%Z s' with
                     | Some (KParameter c) => c
                     | _ => None
                     end)) = Some (Some (VInteger 42)) ∧
         events s' = [EValueChange [1; 2]%Z (Some (VInteger 10))] ∧
         written <$> sessions s' !! 0 = Some [QualifiedMsg [1; 2]%Z leaf] ∧
         written <$> sessions s' !! 1 = Some [QualifiedMsg [1; 2]%Z leaf] ∧
         written <$> sessions s' !! 2 = Some []) ∧
  (∃ s', handleNode (invoke 1) 0
           (Req CNode None (Some 1%Z) None None
              (Some [Req CParameter None (Some 2%Z) (Some (Some (VInteger 42)))
                       None None]))
           example_server = (Ok (RPathArray [1; 2]%Z), s') ∧
         written <$> sessions s' !! 0 = Some [TreeBranch [1; 2]%Z leaf] ∧
         written <$> sessions s' !! 1 = Some [TreeBranch [1; 2]%Z leaf]).
Proof.
  destruct (parameter_set_writable 0 0 [1; 2]%Z (VInteger 42) example_server
              example_parameter
              (mkParameterContents (Some (VInteger 10)) (Some AccessReadWrite) None)
              AccessReadWrite) as [Hq Hn].
  - reflexivity.
  - reflexivity.
  - reflexivity.
  - reflexivity.
  - repeat constructor; set_solver.
  - example_idle.
  - cbv zeta. split.
    + destruct (Hq (example_set [1; 2]%Z 42) eq_refl)
        as (s' & Hs' & _ & Hd & Hev & Hw & Hrest).
      exists s'. split; [exact Hs'|]. split; [by rewrite Hd|]. split; [exact Hev|].
      split; [|split].
      * apply (Hw 0 (example_client "10.0.0.1:9000" true));
          [reflexivity|reflexivity|by left].
      * apply (Hw 1 (example_client "10.0.0.2:9000" true));
          [reflexivity|reflexivity|right].
        split; apply (bool_decide_unpack _); by vm_compute.
      * rewrite (Hrest 2); [reflexivity|].
        intros [?|[_ H2]]; [done|]. revert H2. apply (bool_decide_unpack _).
        by vm_compute.
    + destruct (Hn (Req CNode None (Some 1%Z) None None
                      (Some [Req CParameter None (Some 2%Z) (Some (Some (VInteger 42)))
                               None None]))
                  (Req CParameter None (Some 2%Z) (Some (Some (VInteger 42))) None None)
                  eq_refl eq_refl eq_refl)
        as (s' & Hs' & _ & _ & _ & Hw & _).
      exists s'. split; [exact Hs'|]. split.
      * apply (Hw 0 (example_client "10.0.0.1:9000" true));
          [reflexivity|reflexivity|by left].
      * apply (Hw 1 (example_client "10.0.0.2:9000" true));
          [reflexivity|reflexivity|right].
        split; apply (bool_decide_unpack _); by vm_compute.
Defined.

Lemma parameter_set_read_only_witness :
  setValue [1; 4]%Z (VInteger 9) (Some 0) None example_server = example_server ∧
  ∃ s', handleQualifiedParameter (invoke 1) 0 [1; 4]%Z
          (example_set [1; 4]%Z 9) example_server = (Ok (), s') ∧
        tree s' = example_tree ∧ events s' = [].
Proof.
  destruct (parameter_set_read_only 0 0 [1; 4]%Z (VInteger 9) example_server
              example_read_only
              (mkParameterContents (Some (VInteger 7)) (Some AccessRead) None)
              AccessRead) as [Hset Hreq].
  - reflexivity.
  - reflexivity.
  - reflexivity.
  - reflexivity.
  - split; [apply Hset|].
    destruct Hreq as [Hq _].
    + repeat constructor; set_solver.
    + example_idle.
    + destruct (Hq (example_set [1; 4]%Z 9) eq_refl) as (s' & Hs' & Ht & Hev & _).
      exists s'. split; [exact Hs'|]. split; [exact Ht|exact Hev].
Defined.

(** ** Matrix connections *)

Lemma applyConnection_ok client p response x acc s m c cm cur :
  deref p s = Some m → kind m = KMatrix c (Some cm) →
  cm !! target x = Some cur →
  requester_known client response s →
  let r := connection_result (operation x) (sources x) cur in
  ∃ s1,
    applyConnection client p response x acc s =
      (Ok (<[target x := connection_reply response (target x) r]> acc), s1) ∧
    deref p s1 = Some (set_kind (KMatrix c (Some (<[target x := r]> cm))) m) ∧
    sessions s1 = sessions s ∧ subscribers s1 = subscribers s ∧
    clients s1 = clients s ∧ (response = false → events s1 = events s).
Proof.
  intros Hm Hk Hcur Hreq r. unfold applyConnection.
  rewrite Hm. simpl. unfold matrix_connections at 1. rewrite Hk, Hcur.
  assert (∀ ev, (let '(result, emitType) :=
                   match operation x with
                   | None | Some absolute =>
                       (setSources (sources x) cur, matrix_change)
                   | Some connect => (connectSources (sources x) cur, matrix_connect)
                   | Some disconnect =>
                       (disconnectSources (sources x) cur, matrix_disconnect)
                   end in ev result emitType) =
                (ev r (match operation x with
                       | None | Some absolute => matrix_change
                       | Some connect => matrix_connect
                       | Some disconnect => matrix_disconnect
                       end) : Result (gmap Z ConResult) * Server)) as Hop.
  { intros ev. subst r. by destruct (operation x) as [[]|]. }
  rewrite Hop. clear Hop.
  set (s1 := set_tree (update_at p (set_connection (target x) r) (tree s)) s).
  assert (deref p s1 = Some (set_kind (KMatrix c (Some (<[target x := r]> cm))) m))
    as Hd.
  { subst s1. unfold deref in *. simpl.
    rewrite getElementByPath_update_at, Hm by apply number_set_connection.
    simpl. unfold set_connection. by rewrite Hk. }
  destruct response.
  - destruct (Hreq eq_refl) as (cl & addr & -> & Haddr).
    assert (remoteAddress cl s1 = Ok addr) as -> by done.
    eexists. split; [done|]. by repeat split.
  - eexists. split; [done|]. by repeat split.
Qed.

Lemma applyConnections_ok client p response conns : ∀ acc s m c cm,
  deref p s = Some m → kind m = KMatrix c (Some cm) →
  (∀ x, x ∈ conns → is_Some (cm !! target x)) →
  requester_known client response s →
  (∀ t r, acc !! t = Some r → r = connection_reply response t (cm !!! t)) →
  ∃ s1 res m1,
    applyConnections client p response conns acc s = (Ok res, s1) ∧
    deref p s1 = Some m1 ∧
    kind m1 = KMatrix c (Some (connections_after conns cm)) ∧
    sessions s1 = sessions s ∧ subscribers s1 = subscribers s ∧
    clients s1 = clients s ∧ (response = false → events s1 = events s) ∧
    (∀ t r, res !! t = Some r →
            r = connection_reply response t (connections_after conns cm !!! t)) ∧
    (∀ t, is_Some (res !! t) ↔ is_Some (acc !! t) ∨ t ∈ target <$> conns).
Proof.
  induction conns as [|x conns IH]; intros acc s m c cm Hm Hk Hdom Hreq Hacc; simpl.
  - exists s, acc, m. repeat split; try done.
    + by left.
    + intros [?|H]; [done|]. by apply not_elem_of_nil in H.
  - destruct (Hdom x (list_elem_of_here _ _)) as [cur Hcur].
    destruct (applyConnection_ok client p response x acc s m c cm cur Hm Hk Hcur Hreq)
      as (s1 & -> & Hm1 & Hse & Hsu & Hcl & Hev).
    rewrite (lookup_total_correct _ _ _ Hcur).
    set (r := connection_result (operation x) (sources x) cur) in *.
    destruct (IH (<[target x := connection_reply response (target x) r]> acc) s1
                 _ c (<[target x := r]> cm) Hm1 eq_refl)
      as (s2 & res & m2 & -> & Hm2 & Hk2 & Hse2 & Hsu2 & Hcl2 & Hev2 & Hres & Hdomres).
    + intros y Hy. rewrite lookup_insert. case_decide; [by eexists|].
      apply Hdom. by apply list_elem_of_further.
    + intros Hr. destruct (Hreq Hr) as (cl & addr & -> & Haddr).
      exists cl, addr. split; [done|]. unfold remoteAddress in *. by rewrite Hse.
    + intros t r0. rewrite lookup_insert. case_decide as Ht.
      * subst t. intros [= <-]. by rewrite lookup_total_insert_eq.
      * intros H. rewrite lookup_total_insert_ne by done. by apply Hacc.
    + exists s2, res, m2. repeat split; try done; try congruence.
      * intros Hr. rewrite Hev2, Hev; done.
      * intros H. apply Hdomres in H as [H|H].
        -- rewrite lookup_insert in H. case_decide as Ht.
           ++ right. subst. apply list_elem_of_here.
           ++ by left.
        -- right. by apply list_elem_of_further.
      * intros [H|H]; apply Hdomres.
        -- left. rewrite lookup_insert. case_decide; [by eexists|done].
        -- apply elem_of_cons in H as [->|H]; [|by right].
           left. rewrite lookup_insert_eq. by eexists.
Qed.

(** C6.  For a matrix connection request whose targets all exist, each
    connection is applied to its target as the specification words it
    (absolute replaces, connect unions, disconnect removes, an omitted
    operation is absolute), and the response that is sent to the client
    and fanned out carries exactly the touched targets, each with the
    source set it has once all connections are applied and with
    disposition [modified]. *)
Theorem handleMatrixConnections_request call client p conns s m c cm addr :
  deref p s = Some m → kind m = KMatrix c (Some cm) →
  qualified m = true ∨ p ≠ [] →
  (∀ x, x ∈ conns → is_Some (cm !! target x)) →
  remoteAddress client s = Ok addr →
  ∃ s1 res,
    applyConnections (Some client) p true conns ∅ s = (Ok res, s1) ∧
    matrix_connections <$> deref p s1 = Some (Some (connections_after conns cm)) ∧
    (∀ t, res !! t =
          if decide (t ∈ target <$> conns)
          then Some (mkConResult t (connections_after conns cm !!! t) (Some modified) None)
          else None) ∧
    let msg := (if qualified m then QualifiedMsg p else TreeBranch p) (LeafMatrix res) in
    handleMatrixConnections call (Some client) p (Some conns) true s =
      (Ok (), updateSubscribers call p msg (Some client)
                (on_client client (sendBERNode (Some msg)) s1)).
Proof.
  intros Hm Hk Hform Hdom Haddr.
  destruct (applyConnections_ok (Some client) p true conns ∅ s m c cm Hm Hk Hdom)
    as (s1 & res & m1 & Happ & Hm1 & Hk1 & _ & _ & _ & _ & Hres & Hdomres).
  { intros _. by exists client, addr. }
  { intros t r. by rewrite lookup_empty. }
  exists s1, res. split; [done|]. split; [|split].
  - rewrite Hm1. simpl. unfold matrix_connections. by rewrite Hk1.
  - intros t. case_decide as Ht.
    + destruct (proj2 (Hdomres t) (or_intror Ht)) as [r Hr].
      rewrite Hr. f_equal. by apply Hres.
    + destruct (res !! t) as [r|] eqn:Hr; [|done].
      destruct (proj1 (Hdomres t)) as [H|H]; [by eexists| |done].
      rewrite lookup_empty in H. by destruct H.
  - cbv zeta. unfold handleMatrixConnections. rewrite Hm. unfold isQualified.
    destruct (qualified m) eqn:Hq.
    + simpl. by rewrite Happ.
    + destruct Hform as [?|Hp]; [done|].
      destruct p as [|n p]; [done|]. simpl. by rewrite Happ.
Qed.

(** Scenario 4 of the specification: connect source 2 to target 1, which
    holds source 0. *)
Lemma handleMatrixConnections_request_witness :
  ∃ s1 res,
    applyConnections (Some 0) [3]%Z true
      [mkMatrixConnection 1 [2%Z] (Some connect)] ∅ example_server = (Ok res, s1) ∧
    (matrix_connections <$> deref [3]%Z s1) ≫= (.≫= (.!! 1%Z)) = Some ({[ 0%Z; 2%Z ]} : gset Z) ∧
    res !! 1%Z = Some (mkConResult 1 {[ 0%Z; 2%Z ]} (Some modified) None).
Proof.
  destruct (handleMatrixConnections_request (invoke 1) 0 [3]%Z
              [mkMatrixConnection 1 [2%Z] (Some connect)] example_server
              example_matrix (Some {[ "targetCount" := VInteger 4 ]})
              {[ 0%Z := ∅; 1%Z := {[ 0%Z ]}; 2%Z := ∅; 3%Z := ∅ ]}
              "10.0.0.1:9000") as (s1 & res & Happ & Hcm & Hres & _).
  - reflexivity.
  - reflexivity.
  - right. discriminate.
  - intros x ->%list_elem_of_singleton. by eexists.
  - reflexivity.
  - exists s1, res. split; [exact Happ|]. split.
    + rewrite Hcm. vm_compute. reflexivity.
    + rewrite Hres. vm_compute. reflexivity.
Defined.

(** ** The server-side matrix operations *)

(** Rounding gives a nearest integer, and the even one of two that are
    equally near. *)
Lemma round_half_even_nearest n d :
  (0 < d)%Z → (2 * Z.abs (n - round_half_even n d * d) ≤ d)%Z.
Proof.
  intros Hd. unfold round_half_even.
  pose proof (Z.div_mod n d ltac:(lia)) as Hn.
  pose proof (Z.mod_pos_bound n d Hd) as Hr.
  destruct (Z.ltb_spec d (2 * (n mod d))); cbn [orb].
  - nia.
  - destruct (Z.eqb_spec (2 * (n mod d)) d), (Z.odd (n / d)); cbn [andb]; nia.
Qed.

Lemma round_half_even_tie n d :
  (0 < d)%Z → (2 * Z.abs (n - round_half_even n d * d) = d)%Z →
  Z.even (round_half_even n d) = true.
Proof.
  intros Hd. unfold round_half_even.
  pose proof (Z.div_mod n d ltac:(lia)) as Hn.
  pose proof (Z.mod_pos_bound n d Hd) as Hr.
  destruct (Z.ltb_spec d (2 * (n mod d))); cbn [orb].
  - nia.
  - destruct (Z.eqb_spec (2 * (n mod d)) d), (Z.odd (n / d)) eqn:Ho; cbn [andb];
      intros Ht.
    + rewrite Z.even_add, <- Z.negb_odd, Ho. done.
    + by rewrite <- Z.negb_odd, Ho.
    + nia.
    + nia.
Qed.

(** Against a count that is an integer, [>=] is the order of the
    integers. *)
Lemma js_ge_integer a n : js_ge a (VInteger n) = bool_decide (n ≤ a)%Z.
Proof.
  unfold js_ge. cbn. rewrite Z.mul_1_r.
  destruct (Z.compare_spec n a); case_bool_decide; done || lia.
Qed.

Lemma validateMatrixOperation_ok m c conns n tgt srcs :
  kind m = KMatrix (Some c) conns →
  c !! "targetCount" = Some (VInteger n) → (0 ≤ tgt < n)%Z →
  validateMatrixOperation (Some m) tgt (SArray srcs) = Ok ().
Proof.
  intros Hk Hn Hr. unfold validateMatrixOperation, contents_defined, targetCount.
  rewrite Hk. simpl. rewrite Hn. rewrite js_ge_integer.
  rewrite !bool_decide_eq_false_2 by lia. done.
Qed.

(** What passes the validation: an element with contents and a target
    count, a target that is neither negative nor at or above the count,
    and an array of sources. *)
Lemma validateMatrixOperation_ok_inv matrix tgt srcs :
  validateMatrixOperation matrix tgt srcs = Ok () →
  ∃ m tc l, matrix = Some m ∧ contents_defined m = true ∧
            targetCount m = Some tc ∧ (0 ≤ tgt)%Z ∧ js_ge tgt tc = false ∧
            srcs = SArray l.
Proof.
  unfold validateMatrixOperation. destruct matrix as [m|]; [|done].
  destruct (contents_defined m) eqn:Hc; [|done]. simpl.
  destruct (targetCount m) as [tc|] eqn:Ht; [|done].
  destruct (bool_decide (tgt < 0)%Z) eqn:Hlt; [done|].
  destruct (js_ge tgt tc) eqn:Hge; [done|]. simpl.
  destruct srcs as [| |l]; try done. intros _.
  exists m, tc, l. repeat split; try done.
  apply bool_decide_eq_false in Hlt. lia.
Qed.

(** A server-side operation that fails the validation raises the error
    and leaves the whole store as it was. *)
Lemma doMatrixOperation_rejected call path tgt srcs op s e :
  validateMatrixOperation (deref path s) tgt srcs = Throw e →
  doMatrixOperation call path tgt srcs op s = (Throw e, s).
Proof. intros H. unfold doMatrixOperation. by rewrite H. Qed.

Lemma matrix_api call path tgt srcs :
  matrixConnect call path tgt srcs = doMatrixOperation call path tgt srcs connect ∧
  matrixDisconnect call path tgt srcs = doMatrixOperation call path tgt srcs disconnect ∧
  matrixSet call path tgt srcs = doMatrixOperation call path tgt srcs absolute.
Proof. done. Qed.

(** C10.  A matrix operation made through the server API
    ([doMatrixOperation], which [matrixConnect], [matrixDisconnect] and
    [matrixSet] call with their operation) that passes the validation
    applies the operation to the target, emits no event and sends no
    direct reply; the source set the target has after the mutation,
    tagged with operation [absolute], is sent to every live subscriber
    of the path of the matrix, none being excluded, and to nobody
    else: on an open socket it is the one node written.  When the
    matrix has no connection for the target, no target is touched: the
    call throws and the store is as it was. *)
Theorem doMatrixOperation_fanout fuel path tgt srcs op s m c cm n :
  deref path s = Some m → kind m = KMatrix (Some c) (Some cm) →
  c !! "targetCount" = Some (VInteger n) → (0 ≤ tgt < n)%Z →
  qualified m = true ∨ path ≠ [] →
  NoDup (default [] (subscribers s !! path)) →
  idle_subscribers None s (default [] (subscribers s !! path)) →
  (∀ cur, cm !! tgt = Some cur →
     let result := connection_result (Some op) srcs cur in
     let msg := (if qualified m then QualifiedMsg path else TreeBranch path)
                  (LeafMatrix {[ tgt := mkConResult tgt result None (Some absolute) ]}) in
     ∃ s', doMatrixOperation (invoke (S fuel)) path tgt (SArray srcs) op s = (Ok (), s') ∧
           matrix_connections <$> deref path s' = Some (Some (<[tgt := result]> cm)) ∧
           events s' = events s ∧
           (∀ x, sessions s' !! x =
                 if decide (subscribed x path s ∧ x ∈ clients s)
                 then sendBERNode (Some msg) <$> sessions s !! x
                 else sessions s !! x) ∧
           (∀ x c0, sessions s !! x = Some c0 → connected c0 = true →
                    subscribed x path s → x ∈ clients s →
                    written <$> sessions s' !! x = Some (written c0 ++ [msg])) ∧
           (∀ x, ¬ (subscribed x path s ∧ x ∈ clients s) →
                 sessions s' !! x = sessions s !! x)) ∧
  (cm !! tgt = None →
   doMatrixOperation (invoke (S fuel)) path tgt (SArray srcs) op s =
     (Throw undefined_element, s)).
Proof.
  intros Hm Hk Hn Hr Hform Hnd Hidle.
  assert (∃ root, (if isQualified m then Ok (QualifiedMsg path)
                   else match path with
                        | [] => Throw (TypeError "Cannot read properties of null")
                        | _ :: _ => Ok (TreeBranch path)
                        end) = Ok root ∧
                  root = if qualified m then QualifiedMsg path else TreeBranch path)
    as (root & Hroot1 & Hroot).
  { unfold isQualified. destruct (qualified m); [by eexists|].
    destruct Hform as [?|Hp]; [done|]. destruct path; [done|by eexists]. }
  split.
  - intros cur Hcur result msg.
    unfold doMatrixOperation.
    rewrite Hm, (validateMatrixOperation_ok m c _ n tgt srcs Hk Hn Hr).
    unfold handleMatrixConnections. rewrite Hm, Hroot1.
    set (x := mkMatrixConnection tgt srcs (Some op)).
    destruct (applyConnection_ok None path false x ∅ s m (Some c) cm cur Hm Hk Hcur)
      as (s1 & Happ & Hm1 & Hse & Hsu & Hcl & Hev); [by intros [=]|].
    change (default [] (Some [x])) with [x]. cbn [applyConnections].
    rewrite Happ. cbv beta iota. rewrite insert_empty.
    change (root (LeafMatrix _)) with (root (LeafMatrix
      {[ tgt := mkConResult tgt result None (Some absolute) ]})).
    rewrite Hroot. fold msg.
    destruct (updateSubscribers_frame (invoke (S fuel)) (invoke_send fuel)
                path msg None s1) as (Ht & _ & Hevs & Hs).
    + by rewrite Hsu.
    + rewrite Hsu. by apply (idle_subscribers_mono None s s1 _ _ Hse Hcl (λ _ H, H)).
    + assert (∀ y, sessions (updateSubscribers (invoke (S fuel)) path msg None s1) !! y =
                   if decide (subscribed y path s ∧ y ∈ clients s)
                   then sendBERNode (Some msg) <$> sessions s !! y
                   else sessions s !! y) as Hall.
      { intros y. rewrite Hs, Hse.
        assert (notified None s1 (default [] (subscribers s1 !! path)) y ↔
                subscribed y path s ∧ y ∈ clients s) as Hiff.
        { unfold notified, subscribed. rewrite Hsu, Hcl. naive_solver. }
        clear -Hiff. repeat case_decide; try done; exfalso; tauto. }
      eexists. split; [done|]. split; [|split; [|split; [|split]]].
      * unfold deref in *. rewrite Ht, Hm1. simpl.
        unfold matrix_connections. done.
      * rewrite Hevs. by apply Hev.
      * exact Hall.
      * intros y c0 Hc0 Hopen Hsub Hlive. rewrite Hall, decide_True by done.
        rewrite Hc0. cbn. unfold sendBER, isConnected. by rewrite Hopen.
      * intros y Hy. by rewrite Hall, decide_False.
  - intros Hnone. unfold doMatrixOperation.
    rewrite Hm, (validateMatrixOperation_ok m c _ n tgt srcs Hk Hn Hr).
    unfold handleMatrixConnections. rewrite Hm, Hroot1.
    set (x := mkMatrixConnection tgt srcs (Some op)).
    change (default [] (Some [x])) with [x]. cbn [applyConnections].
    unfold applyConnection. rewrite Hm. cbn. unfold matrix_connections at 1.
    rewrite Hk. by rewrite Hnone.
Qed.

Lemma doMatrixOperation_fanout_witness :
  let msg := TreeBranch [3]%Z
               (LeafMatrix {[ 1%Z := mkConResult 1 ∅ None (Some absolute) ]}) in
  ∃ s', matrixDisconnect (invoke 1) [3]%Z 1 (SArray [0%Z]) example_server = (Ok (), s') ∧
        events s' = [] ∧
        sessions s' !! 0 = sessions example_server !! 0 ∧
        sessions s' !! 1 = sendBERNode (Some msg) <$> sessions example_server !! 1 ∧
        written <$> sessions s' !! 1 = Some [msg] ∧
        written <$> sessions s' !! 0 = Some [].
Proof.
  destruct (doMatrixOperation_fanout 0 [3]%Z 1 [0%Z] disconnect example_server
              example_matrix {[ "targetCount" := VInteger 4 ]}
              {[ 0%Z := ∅; 1%Z := {[ 0%Z ]}; 2%Z := ∅; 3%Z := ∅ ]} 4)
    as [H _].
  - reflexivity.
  - reflexivity.
  - reflexivity.
  - lia.
  - right. discriminate.
  - repeat constructor; set_solver.
  - example_idle.
  - destruct (H {[ 0%Z ]} eq_refl) as (s' & Hs' & _ & Hev & Hse & Hw & _).
    cbv zeta. exists s'. split; [exact Hs'|]. split; [exact Hev|].
    split; [|split; [|split]].
    + rewrite Hse. reflexivity.
    + rewrite Hse. reflexivity.
    + apply (Hw 1 (example_client "10.0.0.2:9000" true)); try reflexivity;
        apply (bool_decide_unpack _); by vm_compute.
    + rewrite Hse. reflexivity.
Defined.

(** C2, at the failing input.  A client asks for two connections on the
    matrix [3], which has four targets: target 0 to source 1, then
    target 9.  Nothing is validated on this path: the first connection
    is applied, the second raises a [TypeError] on the missing target,
    and the request ends with the matrix changed, an error event and no
    response.  The same target given to the server API is rejected by
    [validateMatrixOperation] before anything changes. *)
Theorem client_matrix_request_not_validated :
  let r := handleRoot (invoke 1) 0 (Some example_two_connections) example_server in
  r.1 = Throw undefined_element ∧
  (deref [3]%Z example_server ≫= matrix_connections) ≫= (.!! 0%Z) = Some ∅ ∧
  (deref [3]%Z r.2 ≫= matrix_connections) ≫= (.!! 0%Z) = Some ({[ 1%Z ]} : gset Z) ∧
  written <$> sessions r.2 !! 0 = Some [] ∧
  (∃ addr, events (requestCallback (invoke 1) 0 (Some example_two_connections)
                     example_server)
           = [EMatrix matrix_change 0 [1%Z] addr; EError undefined_element]) ∧
  matrixSet (invoke 1) [3]%Z 9 (SArray [0%Z]) example_server =
    (Throw (Error "target id 9 out of range 0 - 4"), example_server).
Proof.
  repeat split; try (vm_compute; reflexivity).
  eexists. vm_compute. reflexivity.
Qed.

(** ** The guard of [handleRoot] *)

Lemma elements_lt_one_nil : elements_lt_one [] = true.
Proof. done. Qed.

(** An array that holds at least one element prints as a string that
    starts with ["[object Object]"], which is not a number: the
    comparison with 1 is false however many elements there are. *)
Lemma elements_lt_one_cons node rest : elements_lt_one (node :: rest) = false.
Proof. by destruct rest. Qed.

Lemma no_guard_error_same s s' : events s' = events s → no_guard_error s s'.
Proof.
  intros H. exists []. split; [by rewrite app_nil_r|]. apply not_elem_of_nil.
Qed.

Lemma no_guard_error_trans s1 s2 s3 :
  no_guard_error s1 s2 → no_guard_error s2 s3 → no_guard_error s1 s3.
Proof.
  intros (e1 & H1 & N1) (e2 & H2 & N2). exists (e1 ++ e2). split.
  - by rewrite H2, H1, app_assoc.
  - rewrite elem_of_app. tauto.
Qed.

Lemma no_guard_error_emit e s : e ≠ invalid_request → no_guard_error s (emit e s).
Proof.
  intros H. exists [e]. split; [done|]. rewrite list_elem_of_singleton. congruence.
Qed.

Lemma others_idle_sessions origin s s' :
  sessions s' = sessions s → others_idle origin s → others_idle origin s'.
Proof. intros E H x c Hx. rewrite E in Hx. by apply H. Qed.

Lemma others_idle_on_client origin f s :
  others_idle origin s → others_idle origin (on_client origin f s).
Proof.
  intros H x c Hx Hne. rewrite sessions_on_client, decide_False in Hx by done.
  by apply (H x).
Qed.

Lemma notify_quiet fuel path response origin x s :
  others_idle origin s →
  events (notify (invoke (S fuel)) path response (Some origin) x s) = events s ∧
  others_idle origin (notify (invoke (S fuel)) path response (Some origin) x s).
Proof.
  intros H. unfold notify. case_decide as Ho; [done|].
  case_decide as Hl; [|by split].
  rewrite (queueMessage_idle _ (invoke_send fuel)).
  - split; [done|]. intros y c Hy Hne.
    rewrite sessions_on_client in Hy. case_decide as Hyx; [|by apply (H y)].
    subst y. destruct (sessions s !! x) as [c0|] eqn:Hc0; [|done].
    injection Hy as <-. apply (sendBERNode_idle (Some response)).
    apply (H x); [done|congruence].
  - intros c Hc. apply (H x); [done|congruence].
Qed.

Lemma updateSubscribers_quiet fuel path response origin s :
  others_idle origin s →
  events (updateSubscribers (invoke (S fuel)) path response (Some origin) s) = events s.
Proof.
  unfold updateSubscribers. destruct (subscribers s !! path) as [l|]; [|done].
  revert s. induction l as [|x l IH]; intros s H; cbn [foldl]; [done|].
  destruct (notify_quiet fuel path response origin x s H) as [He Hi].
  rewrite IH by done. exact He.
Qed.

Lemma events_subscribe_children client p kids : ∀ s,
  events (foldl (λ s child, subscribe client (p ++ [number child]) s) s kids) = events s.
Proof. induction kids as [|k kids IH]; intros s; simpl; [done|]. by rewrite IH. Qed.

Lemma handleGetDirectory_events client p s :
  events (handleGetDirectory client p s).2 = events s.
Proof.
  unfold handleGetDirectory. destruct client as [c|]; [|done].
  destruct (deref p s) as [e|]; [|done].
  assert (events (if (isMatrix e || isParameter e) && negb (isStream e)
                  then subscribe c p s
                  else foldl (λ s child, subscribe c (p ++ [number child]) s)
                         s (children e)) = events s) as E.
  { destruct (_ && _); [done|apply events_subscribe_children]. }
  match goal with |- context [request <$> ?x] => destruct (request <$> x) as [[rq|]|] end;
    done.
Qed.

Lemma events_unsubscribe client p s : events (unsubscribe client p s) = events s.
Proof. unfold unsubscribe. by destruct (subscribers s !! p). Qed.

Lemma handleCommand_quiet client p cmd s :
  no_guard_error s (handleCommand client p cmd s).2.
Proof.
  unfold handleCommand. repeat case_decide.
  - apply no_guard_error_same, handleGetDirectory_events.
  - by apply no_guard_error_same.
  - apply no_guard_error_same, events_unsubscribe.
  - apply no_guard_error_emit. unfold invalid_request. by intros [=].
Qed.

Lemma applyConnection_quiet client p response x acc s :
  no_guard_error s (applyConnection client p response x acc s).2 ∧
  sessions (applyConnection client p response x acc s).2 = sessions s.
Proof.
  unfold applyConnection.
  destruct (deref p s ≫= matrix_connections) as [conns|];
    [|split; [by apply no_guard_error_same|done]].
  destruct (conns !! target x) as [cur|];
    [|split; [by apply no_guard_error_same|done]].
  destruct (match operation x with
            | None | Some absolute => (setSources (sources x) cur, matrix_change)
            | Some connect => (connectSources (sources x) cur, matrix_connect)
            | Some disconnect => (disconnectSources (sources x) cur, matrix_disconnect)
            end) as [result emitType].
  destruct response; [|split; [by apply no_guard_error_same|done]].
  destruct client as [c|]; [|split; [by apply no_guard_error_same|done]].
  destruct (remoteAddress c _) as [addr|e];
    [|split; [by apply no_guard_error_same|done]].
  split; [|done]. simpl.
  apply (no_guard_error_trans _ (set_tree (update_at p
           (set_connection (target x) result) (tree s)) s)).
  - by apply no_guard_error_same.
  - by apply no_guard_error_emit.
Qed.

Lemma applyConnections_quiet client p response conns : ∀ acc s,
  no_guard_error s (applyConnections client p response conns acc s).2 ∧
  sessions (applyConnections client p response conns acc s).2 = sessions s.
Proof.
  induction conns as [|x conns IH]; intros acc s; simpl.
  - split; [by apply no_guard_error_same|done].
  - destruct (applyConnection_quiet client p response x acc s) as [H1 H2].
    destruct (applyConnection client p response x acc s) as [[acc1|e] s1]; [|done].
    destruct (IH acc1 s1) as [H3 H4]. split.
    + by apply (no_guard_error_trans _ s1).
    + by rewrite H4.
Qed.

Lemma handleMatrixConnections_quiet fuel client p conns response s :
  others_idle client s →
  no_guard_error s
    (handleMatrixConnections (invoke (S fuel)) (Some client) p conns response s).2.
Proof.
  intros H. unfold handleMatrixConnections.
  destruct (deref p s) as [m|]; [|by apply no_guard_error_same].
  destruct (if isQualified m then _ else _) as [root|e];
    [|by apply no_guard_error_same].
  destruct (applyConnections_quiet (Some client) p response
              (default [] conns) ∅ s) as [H1 H2].
  destruct (applyConnections _ _ _ _ _ _) as [[res|e] s1]; [|done].
  simpl in *. apply (no_guard_error_trans _ s1); [done|].
  apply no_guard_error_same. rewrite updateSubscribers_quiet; [done|].
  apply others_idle_on_client. by apply (others_idle_sessions _ s).
Qed.

Lemma setValue_quiet p v origin key s :
  no_guard_error s (setValue p v origin key s) ∧
  sessions (setValue p v origin key s) = sessions s.
Proof.
  unfold setValue.
  destruct (deref p s) as [e|]; [|split; [by apply no_guard_error_same|done]].
  destruct (kind e) as [| |[c|]|[c|] conns];
    try (split; [by apply no_guard_error_same|done]).
  - destruct (access c) as [a|]; [|split; [by apply no_guard_error_same|done]].
    case_bool_decide; [|split; [by apply no_guard_error_same|done]].
    split; [|done].
    eapply no_guard_error_trans; [|by apply no_guard_error_emit].
    by apply no_guard_error_same.
  - destruct key as [k|]; [|split; [by apply no_guard_error_same|done]].
    case_bool_decide; [|split; [by apply no_guard_error_same|done]].
    split; [|done].
    eapply no_guard_error_trans; [|by apply no_guard_error_emit].
    by apply no_guard_error_same.
Qed.

Lemma reply_quiet fuel client p v res s :
  others_idle client s →
  no_guard_error s
    (updateSubscribers (invoke (S fuel)) p res (Some client)
       (on_client client (sendBERNode (Some res))
          (setValue p v (Some client) None s))).
Proof.
  intros H. destruct (setValue_quiet p v (Some client) None s) as [H1 H2].
  eapply no_guard_error_trans; [exact H1|].
  apply no_guard_error_same. rewrite updateSubscribers_quiet; [done|].
  apply others_idle_on_client. by apply (others_idle_sessions _ s).
Qed.

Lemma handleQualifiedParameter_quiet fuel client p req s :
  others_idle client s →
  no_guard_error s (handleQualifiedParameter (invoke (S fuel)) client p req s).2.
Proof.
  intros H. unfold handleQualifiedParameter.
  destruct (r_contents req) as [[v|]|]; try by apply no_guard_error_same.
  destruct (deref p _) as [e|]; simpl.
  - by apply reply_quiet.
  - apply setValue_quiet.
Qed.

Lemma handleError_events client node s : events (handleError client node s) = events s.
Proof. unfold handleError. by destruct client. Qed.

Lemma unknown_element_quiet client sep p s :
  no_guard_error s
    (handleError client None
       (emit (EError (Error ("unknown element at path " +:+ path_string sep p))) s)).
Proof.
  eapply no_guard_error_trans; [|apply no_guard_error_same, handleError_events].
  apply no_guard_error_emit. unfold invalid_request. by intros [=].
Qed.

Lemma handleQualifiedNode_quiet fuel client node s :
  others_idle client s →
  no_guard_error s (handleQualifiedNode (invoke (S fuel)) client node s).2.
Proof.
  intros H. unfold handleQualifiedNode.
  destruct (r_path node) as [path|]; [|by apply no_guard_error_same].
  destruct (deref path s) as [e|]; [|apply unknown_element_quiet].
  assert (∀ r : Result () * Server, no_guard_error s r.2 →
            no_guard_error s (match r with
                              | (Ok _, s1) => (Ok (RPathString path), s1)
                              | (Throw err, s1) => (Throw err, s1)
                              end).2) as Hr by (by intros [[?|?] ?]).
  apply Hr. destruct (single_command node) as [c|].
  - apply handleCommand_quiet.
  - repeat case_decide.
    + by apply handleMatrixConnections_quiet.
    + by apply handleQualifiedParameter_quiet.
    + by apply no_guard_error_same.
Qed.

Lemma handleNode_quiet fuel client node s :
  others_idle client s →
  no_guard_error s (handleNode (invoke (S fuel)) client node s).2.
Proof.
  intros H. unfold handleNode.
  destruct (traverse node []) as [[path cmd]|]; [|by apply no_guard_error_emit].
  destruct (deref path s) as [e|]; [|apply unknown_element_quiet].
  assert (∀ r : Result () * Server, no_guard_error s r.2 →
            no_guard_error s (match r with
                              | (Ok _, s1) => (Ok (RPathArray path), s1)
                              | (Throw err, s1) => (Throw err, s1)
                              end).2) as Hr by (by intros [[?|?] ?]).
  assert (no_guard_error s
            (handleError (Some client) (Some (TreeBranch path LeafBare))
               (emit (EError (Error "invalid request format")) s))) as Hfmt.
  { eapply no_guard_error_trans; [|apply no_guard_error_same, handleError_events].
    by apply no_guard_error_emit. }
  case_decide; [apply Hr, handleCommand_quiet|].
  destruct (r_class cmd), (r_connections cmd) as [conns|],
    (r_contents cmd) as [[v|]|]; simpl; try exact Hfmt;
    try (apply Hr; by apply handleMatrixConnections_quiet).
  - destruct (deref path _) as [e1|]; simpl; [by apply reply_quiet|apply setValue_quiet].
  - destruct (deref path _) as [e1|]; simpl; [by apply reply_quiet|apply setValue_quiet].
Qed.

(** C1, as the code has it.  A root that is missing, or has no
    [elements], or has an empty [elements], makes [handleRoot] emit the
    invalid-request error and return without a path.  A root with one
    element or more passes the guard whatever their number: only the
    first element is looked at, so the request is handled exactly as the
    root holding that element alone, and the invalid-request error of
    the guard is not among the events emitted. *)
Theorem handleRoot_guard fuel client root s :
  (root ≫= elements = None ∨ root ≫= elements = Some [] →
     ∃ s', handleRoot (invoke (S fuel)) client root s = (Ok RUndefined, s') ∧
           events s' = events s ++ [invalid_request]) ∧
  (∀ node rest, root ≫= elements = Some (node :: rest) →
     handleRoot (invoke (S fuel)) client root s =
       handleRoot (invoke (S fuel)) client (Some (mkRoot (Some [node]))) s ∧
     (others_idle client s →
      no_guard_error s (handleRoot (invoke (S fuel)) client root s).2)).
Proof.
  split.
  - intros [H|H]; unfold handleRoot; rewrite H; by eexists.
  - intros node rest H. split.
    + unfold handleRoot. rewrite H. simpl. by rewrite !elements_lt_one_cons.
    + intros Hidle. unfold handleRoot. rewrite H, elements_lt_one_cons. simpl.
      set (s1 := on_client client (set_request (Some node)) s).
      assert (others_idle client s1) as H1 by (by apply others_idle_on_client).
      apply (no_guard_error_trans _ s1); [by apply no_guard_error_same|].
      case_bool_decide; [by apply handleQualifiedNode_quiet|].
      case_decide; [|by apply handleNode_quiet].
      pose proof (handleCommand_quiet client [] (r_number node) s1) as Hc.
      by destruct (handleCommand _ _ _ _) as [[?|?] ?].
Qed.

Lemma handleRoot_guard_witness :
  (∃ s', handleRoot (invoke 1) 0 (Some (mkRoot (Some []))) example_server
           = (Ok RUndefined, s') ∧
         events s' = [invalid_request]) ∧
  no_guard_error example_server
    (handleRoot (invoke 1) 0
       (Some (mkRoot (Some [example_set [1; 2]%Z 42; example_set [1; 4]%Z 9])))
       example_server).2.
Proof.
  split.
  - apply (proj1 (handleRoot_guard 0 0 (Some (mkRoot (Some []))) example_server)).
    right. reflexivity.
  - destruct (proj2 (handleRoot_guard 0 0
                (Some (mkRoot (Some [example_set [1; 2]%Z 42; example_set [1; 4]%Z 9])))
                example_server) (example_set [1; 2]%Z 42) [example_set [1; 4]%Z 9]
                eq_refl) as [_ H].
    apply H. intros x c Hx _. revert Hx. unfold example_server; simpl.
    rewrite !lookup_insert, lookup_singleton.
    repeat case_decide; first [intros [= <-]; split; reflexivity | done].
Defined.

(** C1, the counterexample.  A root that carries two elements is not
    rejected: no error event is emitted and no minimal root is sent to
    the client; the first element, a parameter-set request, is carried
    out and answered. *)
Lemma handleRoot_two_elements_accepted :
  let root := Some (mkRoot (Some [example_set [1; 2]%Z 42; example_set [1; 4]%Z 9])) in
  let r := handleRoot (invoke 1) 0 root example_server in
  r.1 = Ok (RPathString [1; 2]%Z) ∧
  events r.2 = [EValueChange [1; 2]%Z (Some (VInteger 10))] ∧
  written <$> sessions r.2 !! 0 =
    Some [QualifiedMsg [1; 2]%Z
            (LeafElement
               (mkView 2 (KParameter (Some (mkParameterContents (Some (VInteger 42))
                                              (Some AccessReadWrite) None)))) [])] ∧
  ¬ (invalid_request ∈ events r.2 ∧
     ∃ c, sessions r.2 !! 0 = Some c ∧ MinimalRoot ∈ written c).
Proof.
  repeat split; try (vm_compute; reflexivity).
  intros [H _]. vm_compute in H.
  apply list_elem_of_singleton in H. discriminate H.
Qed.

(** ** The states the server goes through

    The conditions under which the fan-out is characterised above (the
    sets of the registry hold no client twice, the clients notified are
    idle) hold in every state the server reaches from a settled one
    through its entry points: the [emberTree] listener and the matrix
    API. *)

Lemma dispatching_idle_subscribers origin s k :
  dispatching origin s → idle_subscribers origin s k.
Proof. intros (H & _ & _) x c (_ & Ho & _) Hc. by apply (H x). Qed.

Lemma dispatching_NoDup origin s p :
  dispatching origin s → NoDup (default [] (subscribers s !! p)).
Proof.
  intros (_ & _ & H). destruct (subscribers s !! p) as [l|] eqn:E; simpl.
  - by apply (H p). - apply NoDup_nil_2.
Qed.

Lemma dispatching_same origin s s' :
  sessions s' = sessions s → subscribers s' = subscribers s →
  dispatching origin s → dispatching origin s'.
Proof. intros E1 E2 (H1 & H2 & H3). unfold dispatching. by rewrite E1, E2. Qed.

Lemma pending_sendBERNode node c :
  pendingRequests (sendBERNode node c) = pendingRequests c ∧
  activeRequest (sendBERNode node c) = activeRequest c.
Proof.
  destruct node as [n|]; simpl; [|done]. unfold sendBER. by destruct (isConnected c).
Qed.

Lemma dispatching_on_client origin x g s :
  (∀ c, pendingRequests (g c) = pendingRequests c ∧
        activeRequest (g c) = activeRequest c) →
  dispatching origin s → dispatching origin (on_client x g s).
Proof.
  intros Hg (H1 & H2 & H3). split; [|split]; [| |done].
  - intros y c Hy Ho. rewrite sessions_on_client in Hy.
    case_decide; [|by apply (H1 y)]. subst y.
    destruct (sessions s !! x) as [c0|] eqn:E; [|done]. injection Hy as <-.
    destruct (Hg c0) as [E1 E2]. unfold idle. rewrite E1, E2. by apply (H1 x).
  - intros y c Hy. rewrite sessions_on_client in Hy.
    case_decide; [|by apply (H2 y)]. subst y.
    destruct (sessions s !! x) as [c0|] eqn:E; [|done]. injection Hy as <-.
    destruct (Hg c0) as [-> _]. by apply (H2 x).
Qed.

Lemma dispatching_send origin x node s :
  dispatching origin s → dispatching origin (on_client x (sendBERNode node) s).
Proof. apply dispatching_on_client. intros c. apply pending_sendBERNode. Qed.

Lemma dispatching_registry origin p l s :
  NoDup l → dispatching origin s →
  dispatching origin (set_subscribers (<[p := l]> (subscribers s)) s).
Proof.
  intros Hl (H1 & H2 & H3). split; [done|]. split; [done|].
  intros q k. simpl. rewrite lookup_insert. case_decide; [by intros [= <-]|apply H3].
Qed.

Lemma dispatching_subscribe origin x p s :
  dispatching origin s → dispatching origin (subscribe x p s).
Proof.
  intros H. apply dispatching_registry; [|done].
  apply NoDup_set_add. by apply (dispatching_NoDup origin).
Qed.

Lemma dispatching_unsubscribe origin x p s :
  dispatching origin s → dispatching origin (unsubscribe x p s).
Proof.
  intros H. unfold unsubscribe. destruct (subscribers s !! p) as [l|] eqn:E; [|done].
  apply dispatching_registry; [|done]. apply NoDup_set_delete.
  destruct H as (_ & _ & H). by apply (H p).
Qed.

Lemma dispatching_emit origin e s : dispatching origin s → dispatching origin (emit e s).
Proof. by apply dispatching_same. Qed.

Lemma dispatching_notify fuel path response origin x s :
  dispatching origin s →
  dispatching origin (notify (invoke (S fuel)) path response origin x s).
Proof.
  intros H. unfold notify. case_decide as Ho; [done|]. case_decide as Hl.
  - rewrite (queueMessage_idle _ (invoke_send fuel)); [by apply dispatching_send|].
    intros c Hc. destruct H as (H & _ & _). by apply (H x).
  - apply dispatching_registry; [|done]. apply NoDup_set_delete.
    by apply (dispatching_NoDup origin).
Qed.

Lemma dispatching_updateSubscribers fuel path response origin s :
  dispatching origin s →
  dispatching origin (updateSubscribers (invoke (S fuel)) path response origin s).
Proof.
  unfold updateSubscribers. destruct (subscribers s !! path) as [l|]; [|done].
  revert s. induction l as [|x l IH]; intros s H; cbn [foldl]; [done|].
  by apply IH, dispatching_notify.
Qed.

Lemma dispatching_handleGetDirectory origin client p s :
  dispatching origin s → dispatching origin (handleGetDirectory client p s).2.
Proof.
  intros H. unfold handleGetDirectory. destruct client as [c|]; [|done].
  destruct (deref p s) as [e|]; [|done].
  assert (dispatching origin
            (if (isMatrix e || isParameter e) && negb (isStream e)
             then subscribe c p s
             else foldl (λ s child, subscribe c (p ++ [number child]) s)
                    s (children e))) as H1.
  { destruct (_ && _); [by apply dispatching_subscribe|].
    revert s H. induction (children e) as [|k kids IH]; intros s H; simpl; [done|].
    by apply IH, dispatching_subscribe. }
  match goal with |- context [request <$> ?x] => destruct (request <$> x) as [[rq|]|] end;
    simpl; try done.
  by apply dispatching_send.
Qed.

Lemma dispatching_handleCommand origin client p cmd s :
  dispatching origin s → dispatching origin (handleCommand client p cmd s).2.
Proof.
  intros H. unfold handleCommand. repeat case_decide.
  - by apply dispatching_handleGetDirectory.
  - by apply dispatching_subscribe.
  - by apply dispatching_unsubscribe.
  - by apply dispatching_emit.
Qed.

Lemma applyConnection_registry client p response x acc s :
  subscribers (applyConnection client p response x acc s).2 = subscribers s.
Proof.
  unfold applyConnection.
  destruct (deref p s ≫= matrix_connections) as [conns|]; [|done].
  destruct (conns !! target x) as [cur|]; [|done].
  destruct (match operation x with
            | None | Some absolute => (setSources (sources x) cur, matrix_change)
            | Some connect => (connectSources (sources x) cur, matrix_connect)
            | Some disconnect => (disconnectSources (sources x) cur, matrix_disconnect)
            end) as [result emitType].
  destruct response; [|done]. destruct client as [c|]; [|done].
  by destruct (remoteAddress c _).
Qed.

Lemma applyConnections_registry client p response conns : ∀ acc s,
  subscribers (applyConnections client p response conns acc s).2 = subscribers s.
Proof.
  induction conns as [|x conns IH]; intros acc s; simpl; [done|].
  pose proof (applyConnection_registry client p response x acc s) as H1.
  destruct (applyConnection client p response x acc s) as [[acc1|e] s1]; [|done].
  by rewrite IH.
Qed.

Lemma dispatching_handleMatrixConnections fuel origin p conns response s :
  dispatching origin s →
  dispatching origin
    (handleMatrixConnections (invoke (S fuel)) origin p conns response s).2.
Proof.
  intros H. unfold handleMatrixConnections.
  destruct (deref p s) as [m|]; [|done].
  destruct (if isQualified m then _ else _) as [root|e]; [|done].
  destruct (applyConnections_quiet origin p response (default [] conns) ∅ s) as [_ H2].
  pose proof (applyConnections_registry origin p response (default [] conns) ∅ s) as H3.
  destruct (applyConnections _ _ _ _ _ _) as [[res|e] s1]; simpl in *;
    [|by apply (dispatching_same origin s)].
  apply dispatching_updateSubscribers.
  assert (dispatching origin s1) as H1 by (by apply (dispatching_same origin s)).
  destruct origin as [c|]; [by apply dispatching_send|done].
Qed.

Lemma setValue_registry p v origin key s :
  subscribers (setValue p v origin key s) = subscribers s.
Proof.
  unfold setValue. destruct (deref p s) as [e|]; [|done].
  destruct (kind e) as [| |[c|]|[c|] conns]; try done.
  - destruct (access c) as [a|]; [|done]. by case_bool_decide.
  - destruct key as [k|]; [|done]. by case_bool_decide.
Qed.

Lemma dispatching_reply fuel client p v res s :
  dispatching (Some client) s →
  dispatching (Some client)
    (updateSubscribers (invoke (S fuel)) p res (Some client)
       (on_client client (sendBERNode (Some res))
          (setValue p v (Some client) None s))).
Proof.
  intros H. apply dispatching_updateSubscribers, dispatching_send.
  apply (dispatching_same _ s); [apply setValue_quiet|apply setValue_registry|done].
Qed.

Lemma dispatching_setValue origin p v o key s :
  dispatching origin s → dispatching origin (setValue p v o key s).
Proof.
  apply dispatching_same; [apply setValue_quiet|apply setValue_registry].
Qed.

Lemma dispatching_handleQualifiedParameter fuel client p req s :
  dispatching (Some client) s →
  dispatching (Some client)
    (handleQualifiedParameter (invoke (S fuel)) client p req s).2.
Proof.
  intros H. unfold handleQualifiedParameter.
  destruct (r_contents req) as [[v|]|]; try done.
  destruct (deref p _) as [e|]; simpl.
  - by apply dispatching_reply.
  - by apply dispatching_setValue.
Qed.

Lemma dispatching_handleError origin client node s :
  dispatching origin s → dispatching origin (handleError client node s).
Proof.
  intros H. unfold handleError. destruct client as [c|]; [|done].
  by apply dispatching_send.
Qed.

Lemma dispatching_handleQualifiedNode fuel client node s :
  dispatching (Some client) s →
  dispatching (Some client) (handleQualifiedNode (invoke (S fuel)) client node s).2.
Proof.
  intros H. unfold handleQualifiedNode.
  destruct (r_path node) as [path|]; [|done].
  destruct (deref path s) as [e|];
    [|by apply dispatching_handleError, dispatching_emit].
  assert (∀ r : Result () * Server, dispatching (Some client) r.2 →
            dispatching (Some client)
              (match r with
               | (Ok _, s1) => (Ok (RPathString path), s1)
               | (Throw err, s1) => (Throw err, s1)
               end).2) as Hr by (by intros [[?|?] ?]).
  apply Hr. destruct (single_command node) as [c|].
  - by apply dispatching_handleCommand.
  - repeat case_decide.
    + by apply dispatching_handleMatrixConnections.
    + by apply dispatching_handleQualifiedParameter.
    + done.
Qed.

Lemma dispatching_handleNode fuel client node s :
  dispatching (Some client) s →
  dispatching (Some client) (handleNode (invoke (S fuel)) client node s).2.
Proof.
  intros H. unfold handleNode.
  destruct (traverse node []) as [[path cmd]|]; [|by apply dispatching_emit].
  destruct (deref path s) as [e|];
    [|by apply dispatching_handleError, dispatching_emit].
  assert (∀ r : Result () * Server, dispatching (Some client) r.2 →
            dispatching (Some client)
              (match r with
               | (Ok _, s1) => (Ok (RPathArray path), s1)
               | (Throw err, s1) => (Throw err, s1)
               end).2) as Hr by (by intros [[?|?] ?]).
  assert (dispatching (Some client)
            (handleError (Some client) (Some (TreeBranch path LeafBare))
               (emit (EError (Error "invalid request format")) s))) as Hfmt
    by (by apply dispatching_handleError, dispatching_emit).
  case_decide; [by apply Hr, dispatching_handleCommand|].
  destruct (r_class cmd), (r_connections cmd) as [conns|],
    (r_contents cmd) as [[v|]|]; simpl; try exact Hfmt;
    try (apply Hr; by apply dispatching_handleMatrixConnections).
  - destruct (deref path _) as [e1|]; simpl;
      [by apply dispatching_reply|by apply dispatching_setValue].
  - destruct (deref path _) as [e1|]; simpl;
      [by apply dispatching_reply|by apply dispatching_setValue].
Qed.

Lemma dispatching_handleRoot fuel client root s :
  dispatching (Some client) s →
  dispatching (Some client) (handleRoot (invoke (S fuel)) client root s).2.
Proof.
  intros H. unfold handleRoot.
  destruct (root ≫= elements) as [els|]; [|by apply dispatching_emit].
  destruct (elements_lt_one els); [by apply dispatching_emit|].
  assert (dispatching (Some client) (on_client client (set_request (head els)) s))
    as H1 by (by apply dispatching_on_client).
  destruct (head els) as [node|]; [|done].
  case_bool_decide; [by apply dispatching_handleQualifiedNode|].
  case_decide; [|by apply dispatching_handleNode].
  pose proof (dispatching_handleCommand (Some client) client [] (r_number node) _ H1).
  by destruct (handleCommand _ _ _ _) as [[?|?] ?].
Qed.

Lemma dispatching_requestCallback fuel client root s :
  dispatching (Some client) s →
  dispatching (Some client) (requestCallback (invoke (S fuel)) client root s).
Proof.
  intros H. unfold requestCallback.
  pose proof (dispatching_handleRoot fuel client root s H) as H1.
  destruct (handleRoot _ _ _ _) as [[path|e] s1]; simpl in *.
  - destruct (remoteAddress client s1); by apply dispatching_emit.
  - by apply dispatching_emit.
Qed.

(** A decoded message arriving on a settled server is handled at once,
    and the server is settled again when the listener returns. *)
Lemma onEmberTree_settled fuel client root s :
  settled s → settled (onEmberTree (invoke (S (S fuel))) client root s).
Proof.
  intros H. unfold onEmberTree, addRequest.
  destruct (sessions s !! client) as [c|] eqn:Hc.
  - destruct H as (H1 & H2 & H3).
    destruct (H1 client c Hc) as [Hp Ha]; [done|].
    erewrite makeRequest_runs_oldest; cycle 1.
    + rewrite sessions_on_client, decide_True, Hc by done. done.
    + done.
    + simpl. by rewrite Hp.
    + change (invoke (S (S fuel)) client (WRequest root)) with
        (requestCallback (invoke (S fuel)) client root).
      rewrite on_client_on_client.
      match goal with |- settled (on_client _ _ (requestCallback _ _ _ ?s1)) =>
        assert (dispatching (Some client) s1) as Hs1 end.
      { split; [|split]; [| |done].
        - intros y cy Hy Hne. rewrite sessions_on_client in Hy.
          rewrite decide_False in Hy by congruence. by apply (H1 y).
        - intros y cy Hy. rewrite sessions_on_client in Hy. case_decide.
          + subst y. rewrite Hc in Hy. by injection Hy as <-.
          + by apply (H2 y). }
      apply (dispatching_requestCallback fuel client root) in Hs1.
      destruct Hs1 as (G1 & G2 & G3). split; [|split]; [| |done].
      * intros y cy Hy _. rewrite sessions_on_client in Hy. case_decide.
        -- subst y. apply fmap_Some in Hy as (c0 & Hc0 & ->).
           split; [exact (G2 client c0 Hc0)|done].
        -- apply (G1 y); [done|congruence].
      * intros y cy Hy. rewrite sessions_on_client in Hy. case_decide.
        -- subst y. apply fmap_Some in Hy as (c0 & Hc0 & ->).
           exact (G2 client c0 Hc0).
        -- by apply (G2 y).
  - rewrite on_client_absent by done. unfold makeRequest. by rewrite Hc.
Qed.

(** A call of the matrix API on a settled server leaves it settled,
    whether the call goes through or is rejected. *)
Lemma doMatrixOperation_settled fuel path tgt srcs op s :
  settled s → settled (doMatrixOperation (invoke (S fuel)) path tgt srcs op s).2.
Proof.
  intros H. unfold doMatrixOperation.
  destruct (validateMatrixOperation _ _ _); [|done].
  by apply dispatching_handleMatrixConnections.
Qed.

(** * Further properties *)

(** ** Requests that cannot be carried out *)

(** X1.  A request for a path that is not in the tree, qualified or as
    a tree branch, is answered with the minimal root: the request is
    recorded on the client, one error event naming the path is emitted
    (the numbers joined by dots for a qualified request, by commas for a
    branch), the minimal root is sent to the requester, no path is
    returned, and nothing else changes. *)
Theorem unknown_path_is_answered call client node rest path s :
  deref path s = None →
  let recorded := on_client client (set_request (Some node)) s in
  let answer sep :=
    (Ok RUndefined,
     on_client client (sendBERNode (Some MinimalRoot))
       (emit (EError (Error ("unknown element at path " +:+ path_string sep path)))
          recorded)) in
  (r_path node = Some path →
   handleRoot call client (Some (mkRoot (Some (node :: rest)))) s = answer ".") ∧
  (∀ cmd, r_path node = None → r_class node ≠ CCommand →
     traverse node [] = Some (path, cmd) →
     handleRoot call client (Some (mkRoot (Some (node :: rest)))) s = answer ",").
Proof.
  intros Hp recorded answer.
  assert (deref path recorded = None) as Hp' by done.
  split.
  - intros Hn. unfold handleRoot. simpl. rewrite elements_lt_one_cons. simpl.
    rewrite Hn. simpl. unfold handleQualifiedNode. rewrite Hn.
    fold recorded. by rewrite Hp'.
  - intros cmd Hn Hc Ht. unfold handleRoot. simpl. rewrite elements_lt_one_cons.
    simpl. rewrite Hn. simpl. rewrite decide_False by done.
    unfold handleNode. rewrite Ht. fold recorded. by rewrite Hp'.
Qed.

Lemma unknown_path_is_answered_witness :
  (handleRoot (invoke 1) 0
     (Some (mkRoot (Some [example_set [7; 7]%Z 1]))) example_server).1 = Ok RUndefined ∧
  written <$> sessions
    (handleRoot (invoke 1) 0
       (Some (mkRoot (Some [example_set [7; 7]%Z 1]))) example_server).2 !! 0
  = Some [MinimalRoot].
Proof.
  destruct (unknown_path_is_answered (invoke 1) 0 (example_set [7; 7]%Z 1) []
              [7; 7]%Z example_server) as [H _].
  - reflexivity.
  - rewrite (H eq_refl). split; reflexivity.
Defined.

(** X2.  A tree-branch request that is not well formed.  When an element
    on the way down the first children has no number, the error string
    "invalid request" is emitted and nothing is sent.  When the way ends
    on an element of the tree that is neither a command, nor a matrix
    node with connections, nor a parameter with a value, the error
    "invalid request format" is emitted and the requester is sent the
    bare branch of that element (not the minimal root). *)
Theorem malformed_branch_request call client node s :
  (traverse node [] = None →
   handleNode call client node s =
     (Ok RUndefined, emit (EErrorString "invalid request") s)) ∧
  (∀ path cmd e,
     traverse node [] = Some (path, cmd) → deref path s = Some e →
     r_class cmd ≠ CCommand →
     ¬ (r_class cmd = CMatrixNode ∧ is_Some (r_connections cmd)) →
     ¬ (r_class cmd = CParameter ∧ ∃ v, r_contents cmd = Some (Some v)) →
     handleNode call client node s =
       (Ok RUndefined,
        on_client client (sendBERNode (Some (TreeBranch path LeafBare)))
          (emit (EError (Error "invalid request format")) s))).
Proof.
  split.
  - intros Ht. unfold handleNode. by rewrite Ht.
  - intros path cmd e Ht He Hc Hm Hp. unfold handleNode. rewrite Ht, He.
    rewrite decide_False by done.
    destruct (r_class cmd) eqn:Hcl, (r_connections cmd) as [conns|] eqn:Hco,
      (r_contents cmd) as [[v|]|] eqn:Hv; try done;
      try (exfalso; apply Hm; split; [done|by eexists]);
      try (exfalso; apply Hp; split; [done|by eexists]).
Qed.

Lemma malformed_branch_request_witness :
  handleNode (invoke 1) 0 (Req CNode None None None None None) example_server =
    (Ok RUndefined, emit (EErrorString "invalid request") example_server) ∧
  written <$> sessions
    (handleNode (invoke 1) 0 (Req CNode None (Some 1%Z) None None None)
       example_server).2 !! 0
  = Some [TreeBranch [1%Z] LeafBare].
Proof.
  destruct (malformed_branch_request (invoke 1) 0
              (Req CNode None None None None None) example_server) as [H1 _].
  destruct (malformed_branch_request (invoke 1) 0
              (Req CNode None (Some 1%Z) None None None) example_server) as [_ H2].
  split; [apply H1; reflexivity|].
  rewrite (H2 [1%Z] (Req CNode None (Some 1%Z) None None None)
             (Elem 1 false KNode [example_parameter; example_read_only])).
  - reflexivity.
  - reflexivity.
  - reflexivity.
  - discriminate.
  - intros [H _]. discriminate H.
  - intros [H _]. discriminate H.
Defined.

(** X3.  A command that is none of GetDirectory, Subscribe and
    Unsubscribe is not answered: whether it is sent on the root or as
    the single child of a qualified element that exists, one error event
    naming the command is emitted, nothing is sent, nobody is subscribed
    and the tree is as before. *)
Theorem unknown_command_not_answered call client node rest n s :
  n ≠ Some GetDirectory → n ≠ Some Subscribe → n ≠ Some Unsubscribe →
  let recorded := on_client client (set_request (Some node)) s in
  let complaint :=
    emit (EError (Error ("invalid command " +:+
                  match n with Some k => pretty k | None => "undefined" end)))
      recorded in
  (r_path node = None → r_class node = CCommand → r_number node = n →
   handleRoot call client (Some (mkRoot (Some (node :: rest)))) s =
     (Ok RRoot, complaint)) ∧
  (∀ path e c, r_path node = Some path → deref path s = Some e →
     single_command node = Some c → r_number c = n →
     handleRoot call client (Some (mkRoot (Some (node :: rest)))) s =
       (Ok (RPathString path), complaint)).
Proof.
  intros H1 H2 H3 recorded complaint.
  assert (∀ p, handleCommand client p n recorded = (Ok (), complaint)) as Hcmd.
  { intros p. unfold handleCommand. by rewrite !decide_False by done. }
  split.
  - intros Hp Hc Hn. unfold handleRoot. simpl. rewrite elements_lt_one_cons.
    simpl. rewrite Hp, Hn. simpl. rewrite decide_True by done.
    fold recorded. by rewrite Hcmd.
  - intros path e c Hp He Hs Hn. unfold handleRoot. simpl.
    rewrite elements_lt_one_cons. simpl. rewrite Hp. simpl.
    unfold handleQualifiedNode. rewrite Hp. fold recorded.
    assert (deref path recorded = Some e) as -> by done.
    rewrite Hs, Hn. by rewrite Hcmd.
Qed.

Lemma unknown_command_not_answered_witness :
  let r := handleRoot (invoke 1) 0
             (Some (mkRoot (Some [Req CCommand None (Some 99%Z) None None None])))
             example_server in
  r.1 = Ok RRoot ∧ events r.2 = [EError (Error "invalid command 99")] ∧
  written <$> sessions r.2 !! 0 = Some [].
Proof.
  destruct (unknown_command_not_answered (invoke 1) 0
              (Req CCommand None (Some 99%Z) None None None) [] (Some 99%Z)
              example_server) as [H _]; try discriminate.
  cbv zeta. rewrite (H eq_refl eq_refl eq_refl). repeat split; reflexivity.
Defined.

(** ** GetDirectory *)

Lemma subscribe_children_frame client p kids : ∀ s,
  let s' := foldl (λ s child, subscribe client (p ++ [number child]) s) s kids in
  tree s' = tree s ∧ clients s' = clients s ∧ sessions s' = sessions s.
Proof.
  induction kids as [|k kids IH]; intros s; [done|].
  cbn [foldl]. cbv zeta in IH |- *.
  destruct (IH (subscribe client (p ++ [number k]) s)) as (-> & -> & ->). done.
Qed.

(** X4.  The answer to GetDirectory.  For an element of the tree and a
    client whose request is recorded, the command succeeds and writes
    exactly one message to that client: the element with its children,
    as a qualified element when the recorded request carries a path and
    as a tree branch otherwise.  No other client is written to, no event
    is emitted, and the tree and the live set are as before. *)
Theorem handleGetDirectory_reply client p e c rq s :
  deref p s = Some e → sessions s !! client = Some c → request c = Some rq →
  let form := match r_path rq with
              | None => getResponse
              | Some _ => getQualifiedResponse
              end in
  let r := handleGetDirectory (Some client) p s in
  r.1 = Ok () ∧ tree r.2 = tree s ∧ clients r.2 = clients s ∧
  events r.2 = events s ∧
  ∀ x, sessions r.2 !! x =
       if decide (x = client) then Some (sendBERNode (Some (form p e)) c)
       else sessions s !! x.
Proof.
  intros He Hc Hrq form r. subst r form. unfold handleGetDirectory. rewrite He.
  set (s1 := if (isMatrix e || isParameter e) && negb (isStream e)
             then subscribe client p s
             else foldl (λ s child, subscribe client (p ++ [number child]) s)
                    s (children e)).
  assert (tree s1 = tree s ∧ clients s1 = clients s ∧ sessions s1 = sessions s
          ∧ events s1 = events s) as (Ht & Hcl & Hs & Hev).
  { subst s1. destruct ((isMatrix e || isParameter e) && negb (isStream e)).
    - done.
    - destruct (subscribe_children_frame client p (children e) s) as (? & ? & ?).
      by rewrite events_subscribe_children. }
  rewrite Hs, Hc. simpl. rewrite Hrq.
  repeat split; try done.
  intros x. cbn [snd]. rewrite sessions_on_client, Hs.
  case_decide as Hx; [subst x; rewrite Hc|]; by destruct (r_path rq).
Qed.

Lemma handleGetDirectory_reply_witness :
  let r := handleGetDirectory (Some 0) [1]%Z
             (on_client 0 (set_request (Some (example_set [1]%Z 0))) example_server) in
  r.1 = Ok () ∧
  written <$> sessions r.2 !! 0 =
    Some [QualifiedMsg [1]%Z
            (LeafElement (mkView 1 KNode)
               [view example_parameter; view example_read_only])].
Proof.
  pose proof (handleGetDirectory_reply 0 [1]%Z
                (Elem 1 false KNode [example_parameter; example_read_only])
                (set_request (Some (example_set [1]%Z 0))
                   (example_client "10.0.0.1:9000" true))
                (example_set [1]%Z 0)
                (on_client 0 (set_request (Some (example_set [1]%Z 0))) example_server)
                eq_refl eq_refl eq_refl) as (H1 & _ & _ & _ & H2).
  cbv zeta. split; [exact H1|]. rewrite H2. reflexivity.
Defined.

(** ** The registry *)

Lemma set_add_present c l : c ∈ l → set_add c l = l.
Proof. intros H. unfold set_add. by rewrite decide_True. Qed.

Lemma set_delete_set_add c l : c ∉ l → set_delete c (set_add c l) = l.
Proof.
  intros H. unfold set_add, set_delete. rewrite decide_False by done.
  rewrite filter_app. cbn. rewrite decide_False by (intros ?; done).
  rewrite app_nil_r. apply filter_all. intros x Hx ->. done.
Qed.

(** X5.  Subscribing and unsubscribing.  Both are idempotent.  For a
    path that has a set, unsubscribing a client that has just been
    subscribed and was not in the set before gives back the store as it
    was; for a path that had no set, an empty set is left behind. *)
Theorem subscribe_unsubscribe_round_trip client p s :
  subscribe client p (subscribe client p s) = subscribe client p s ∧
  unsubscribe client p (unsubscribe client p s) = unsubscribe client p s ∧
  (∀ l, subscribers s !! p = Some l → client ∉ l →
     unsubscribe client p (subscribe client p s) = s) ∧
  (subscribers s !! p = None →
     unsubscribe client p (subscribe client p s) =
     set_subscribers (<[p := []]> (subscribers s)) s).
Proof.
  repeat split.
  - unfold subscribe. cbn. rewrite lookup_insert_eq. cbn.
    rewrite insert_insert_eq.
    rewrite set_add_present; [done|]. apply elem_of_set_add. by left.
  - unfold unsubscribe. destruct (subscribers s !! p) as [l|] eqn:Hl.
    + cbn. rewrite lookup_insert_eq, insert_insert_eq.
      rewrite (set_delete_absent client (set_delete client l)); [done|].
      rewrite elem_of_set_delete. tauto.
    + by rewrite Hl.
  - intros l Hl Hn. unfold unsubscribe, subscribe. cbn.
    rewrite lookup_insert_eq, insert_insert_eq, Hl. cbn.
    rewrite set_delete_set_add by done. rewrite insert_id by done.
    by destruct s.
  - intros Hl. unfold unsubscribe, subscribe. cbn.
    rewrite lookup_insert_eq, insert_insert_eq, Hl. cbn.
    by rewrite set_delete_set_add by apply not_elem_of_nil.
Qed.

Lemma subscribe_unsubscribe_round_trip_witness :
  unsubscribe 0 [3]%Z (subscribe 0 [3]%Z example_server) = example_server ∧
  subscribers (unsubscribe 0 [9]%Z (subscribe 0 [9]%Z example_server)) !! [9]%Z = Some [].
Proof.
  destruct (subscribe_unsubscribe_round_trip 0 [3]%Z example_server) as (_ & _ & H & _).
  destruct (subscribe_unsubscribe_round_trip 0 [9]%Z example_server) as (_ & _ & _ & H').
  split.
  - apply (H [1; 2]); [reflexivity|].
    intros Hx. repeat (apply elem_of_cons in Hx as [Hx|Hx]; [discriminate|]).
    by apply not_elem_of_nil in Hx.
  - rewrite H' by reflexivity. cbn. by rewrite lookup_insert_eq.
Defined.

(** ** The queue of a client *)

Lemma on_client_lookup cid f c (s : Server) :
  sessions s !! cid = Some c →
  on_client cid f s = set_sessions (<[cid := f c]> (sessions s)) s.
Proof.
  intros Hc. unfold on_client. f_equal. apply map_eq. intros x.
  destruct (decide (x = cid)) as [->|Hx].
  - by rewrite lookup_alter_eq, lookup_insert_eq, Hc.
  - by rewrite lookup_alter_ne, lookup_insert_ne.
Qed.

Lemma set_sessions_insert cid c c' (s : Server) :
  set_sessions (<[cid := c']> (sessions (set_sessions (<[cid := c]> (sessions s)) s)))
    (set_sessions (<[cid := c]> (sessions s)) s)
  = set_sessions (<[cid := c']> (sessions s)) s.
Proof. unfold set_sessions. cbn. by rewrite insert_insert_eq. Qed.

Lemma sendBERNodes_fields nodes : ∀ c,
  let c' := foldl (λ c m, sendBERNode m c) c nodes in
  written c' = written c ++ wire c nodes ∧
  pendingRequests c' = pendingRequests c ∧ activeRequest c' = activeRequest c ∧
  connected c' = connected c ∧ remote c' = remote c ∧ request c' = request c.
Proof.
  induction nodes as [|m nodes IH]; intros c; cbn [foldl]; cbv zeta.
  - unfold wire. destruct (connected c); by rewrite app_nil_r.
  - destruct (IH (sendBERNode m c)) as (-> & -> & -> & -> & -> & ->).
    unfold wire. destruct m as [m|]; cbn; [|done].
    unfold sendBER, isConnected. destruct (connected c) eqn:Hc; cbn.
    + by rewrite Hc, <- app_assoc.
    + by rewrite Hc.
Qed.

Lemma sendBERNodes_set_pending l nodes : ∀ c,
  foldl (λ c m, sendBERNode m c) (set_pending l c) nodes =
  set_pending l (foldl (λ c m, sendBERNode m c) c nodes).
Proof.
  induction nodes as [|m nodes IH]; intros c; cbn [foldl]; [done|].
  rewrite <- IH. f_equal. destruct m as [m|]; cbn; [|done].
  unfold sendBER, isConnected. cbn. by destruct (connected c).
Qed.

Lemma queueMessage_backlog fuel cid c q m h q1 s :
  sessions s !! cid = Some c → activeRequest c = None →
  pendingRequests c = WSend <$> q → q ++ [m] = h :: q1 →
  queueMessage (invoke (S fuel)) cid m s =
  set_sessions (<[cid := set_pending (WSend <$> q1) (sendBERNode h c)]> (sessions s)) s.
Proof.
  intros Hc Ha Hp Hq. unfold queueMessage, addRequest.
  rewrite (on_client_lookup _ _ c) by done.
  set (c0 := set_pending (pendingRequests c ++ [WSend m]) c).
  set (s0 := set_sessions (<[cid := c0]> (sessions s)) s).
  assert (sessions s0 !! cid = Some c0) as Hc0 by apply lookup_insert_eq.
  rewrite (makeRequest_runs_oldest _ cid c0 (WSend h) (WSend <$> q1) s0); try done.
  - rewrite invoke_send, !on_client_on_client.
    rewrite (on_client_lookup _ _ c0) by done. subst s0.
    rewrite set_sessions_insert. do 2 f_equal. subst c0. clear Hc Hp.
    destruct c as [r co w rq pe ac]. cbn in Ha. subst ac.
    destruct h as [h|]; [|done]. cbn. unfold sendBER, isConnected. cbn.
    by destruct co.
  - subst c0. cbn. rewrite Hp.
    change [WSend m] with (WSend <$> [m]). by rewrite <- fmap_app, Hq.
Qed.

Lemma queueMessages_backlog fuel cid ms : ∀ s c q,
  sessions s !! cid = Some c → activeRequest c = None →
  pendingRequests c = WSend <$> q →
  foldl (λ s m, queueMessage (invoke (S fuel)) cid m s) s ms =
  set_sessions
    (<[cid := set_pending (WSend <$> drop (length ms) (q ++ ms))
                (foldl (λ c m, sendBERNode m c) c (take (length ms) (q ++ ms)))]>
       (sessions s)) s.
Proof.
  induction ms as [|m ms IH]; intros s c q Hc Ha Hp; cbn [foldl length].
  - rewrite take_0, drop_0, app_nil_r. cbn [foldl]. rewrite <- Hp.
    replace (set_pending (pendingRequests c) c) with c by by destruct c.
    rewrite insert_id by done. by rewrite set_sessions_id.
  - rewrite (cons_middle m q ms), app_assoc.
    destruct (q ++ [m]) as [|h q1] eqn:Hq; [by destruct q|].
    rewrite (queueMessage_backlog fuel cid c q m h q1) by done.
    rewrite (IH _ (set_pending (WSend <$> q1) (sendBERNode h c)) q1).
    + rewrite set_sessions_insert. cbn [app take drop foldl].
      rewrite sendBERNodes_set_pending. by destruct (foldl _ _ _).
    + apply lookup_insert_eq.
    + cbn. by destruct (pending_sendBERNode h c) as [_ ->].
    + done.
Qed.

(** X6.  The queue is first in, first out, and a backlog never drains.
    For a client with no active request whose queue holds the messages
    [q], queueing the messages [ms] one after the other sends, in order,
    the first [length ms] messages of [q ++ ms] (each call sends one)
    and leaves the others queued: as many remain as there were.  With an
    empty queue every message is sent when it is queued.  Only this
    client changes. *)
Theorem queueMessage_fifo fuel cid c q ms s :
  sessions s !! cid = Some c → activeRequest c = None →
  pendingRequests c = WSend <$> q →
  let s' := foldl (λ s m, queueMessage (invoke (S fuel)) cid m s) s ms in
  ∃ c', s' = set_sessions (<[cid := c']> (sessions s)) s ∧
        written c' = written c ++ wire c (take (length ms) (q ++ ms)) ∧
        pendingRequests c' = WSend <$> drop (length ms) (q ++ ms) ∧
        length (pendingRequests c') = length q ∧
        activeRequest c' = None ∧ connected c' = connected c ∧
        (q = [] → written c' = written c ++ wire c ms ∧ pendingRequests c' = []).
Proof.
  intros Hc Ha Hp s'. subst s'.
  rewrite (queueMessages_backlog fuel cid ms s c q) by done.
  eexists. split; [reflexivity|].
  destruct (sendBERNodes_fields (take (length ms) (q ++ ms)) c)
    as (Hw & _ & Hact & Hco & _ & _).
  cbv zeta in *. cbn.
  repeat split; try done.
  - by rewrite length_fmap, length_drop, length_app; lia.
  - congruence.
  - subst q. rewrite Hw. by rewrite take_ge by (cbn; lia).
  - subst q. by rewrite drop_ge by (cbn; lia).
Qed.

Lemma queueMessage_fifo_witness :
  let a := TreeBranch [1]%Z LeafBare in
  let b := TreeBranch [3]%Z LeafBare in
  ∃ c', foldl (λ s m, queueMessage (invoke 1) 0 m s) example_server [Some a; Some b]
        = set_sessions (<[0 := c']> (sessions example_server)) example_server ∧
        written c' = [a; b] ∧ pendingRequests c' = [].
Proof.
  cbv zeta.
  destruct (queueMessage_fifo 0 0 (example_client "10.0.0.1:9000" true) []
              [Some (TreeBranch [1]%Z LeafBare); Some (TreeBranch [3]%Z LeafBare)]
              example_server eq_refl eq_refl eq_refl)
    as (c' & H & _ & _ & _ & _ & _ & H').
  exists c'. split; [exact H|]. exact (H' eq_refl).
Defined.

Lemma on_client_id cid f (s : Server) :
  (∀ c, sessions s !! cid = Some c → f c = c) → on_client cid f s = s.
Proof.
  intros H. unfold on_client. rewrite alter_id by done. apply set_sessions_id.
Qed.

(** X7.  While a request of a client is active, whatever is added to
    its queue is only appended, in order: no closure is run, whatever
    the closures are, and nothing else in the store changes. *)
Theorem addRequest_while_active_only_queues call cid c a ws s :
  sessions s !! cid = Some c → activeRequest c = Some a →
  foldl (λ s w, addRequest call cid w s) s ws =
  on_client cid (λ c, set_pending (pendingRequests c ++ ws) c) s.
Proof.
  revert s c. induction ws as [|w ws IH]; intros s c Hc Ha; cbn [foldl].
  - symmetry. apply on_client_id. intros c0 _. rewrite app_nil_r. by destruct c0.
  - rewrite (addRequest_while_active call cid c a w s) by done.
    rewrite (IH _ (set_pending (pendingRequests c ++ [w]) c)).
    + rewrite on_client_on_client. apply on_client_ext. intros c0 _. cbn.
      by rewrite <- app_assoc.
    + rewrite sessions_on_client, decide_True by done. by rewrite Hc.
    + done.
Qed.

Lemma addRequest_while_active_only_queues_witness :
  let busy := on_client 0 (set_active (Some (WSend None))) example_server in
  pendingRequests <$>
    sessions (foldl (λ s w, addRequest (invoke 3) 0 w s) busy
                [WSend (Some MinimalRoot); WRequest None]) !! 0
  = Some [WSend (Some MinimalRoot); WRequest None].
Proof.
  cbv zeta.
  rewrite (addRequest_while_active_only_queues (invoke 3) 0
             (set_active (Some (WSend None)) (example_client "10.0.0.1:9000" true))
             (WSend None) [WSend (Some MinimalRoot); WRequest None]
             (on_client 0 (set_active (Some (WSend None))) example_server)
             eq_refl eq_refl).
  reflexivity.
Defined.

(** ** The matrix operations of the server *)

(** X8.  What [validateMatrixOperation] accepts.  With sources that are
    an array, it returns without an exception exactly for an element
    that has contents with a target count and a target that is not
    negative and not at or above the count, compared as JavaScript
    compares a number with the count.  For a count that is an integer
    these are the targets from 0 up to the count, excluded; for a count
    that is a string which is no number, every target from 0 on.
    Sources that are undefined or a number are never accepted. *)
Theorem validateMatrixOperation_accepts matrix tgt l :
  (validateMatrixOperation matrix tgt (SArray l) = Ok () ↔
   ∃ m tc, matrix = Some m ∧ contents_defined m = true ∧
           targetCount m = Some tc ∧ (0 ≤ tgt)%Z ∧ js_ge tgt tc = false) ∧
  (∀ m n, matrix = Some m → targetCount m = Some (VInteger n) →
     (validateMatrixOperation matrix tgt (SArray l) = Ok () ↔ (0 ≤ tgt < n)%Z)) ∧
  (∀ m x, matrix = Some m → targetCount m = Some (VString x) →
     string_to_number x = NaN →
     (validateMatrixOperation matrix tgt (SArray l) = Ok () ↔ (0 ≤ tgt)%Z)) ∧
  validateMatrixOperation matrix tgt SUndefined ≠ Ok () ∧
  (∀ z, validateMatrixOperation matrix tgt (SNumber z) ≠ Ok ()).
Proof.
  assert (∀ m tc, targetCount m = Some tc → contents_defined m = true) as Hcd.
  { intros m tc. unfold targetCount, contents_defined.
    by destruct (kind m) as [| |[?|]|[?|] ?]. }
  assert (validateMatrixOperation matrix tgt (SArray l) = Ok () ↔
          ∃ m tc, matrix = Some m ∧ contents_defined m = true ∧
                  targetCount m = Some tc ∧ (0 ≤ tgt)%Z ∧ js_ge tgt tc = false) as Hiff.
  { split.
    - intros (m & tc & l' & ? & ? & ? & ? & ? & _)%validateMatrixOperation_ok_inv.
      by exists m, tc.
    - intros (m & tc & -> & Hc & Ht & H0 & Hge).
      unfold validateMatrixOperation. rewrite Hc, Ht, Hge. cbn.
      by rewrite bool_decide_eq_false_2 by lia. }
  split; [exact Hiff|]. split; [|split; [|split]].
  - intros m n -> Ht. rewrite Hiff. split.
    + intros (m' & tc & [= <-] & _ & Ht' & H0 & Hge). rewrite Ht in Ht'.
      injection Ht' as <-. rewrite js_ge_integer in Hge.
      apply bool_decide_eq_false in Hge. lia.
    + intros [H0 Hn]. exists m, (VInteger n). repeat split; try done.
      * by apply (Hcd m (VInteger n)).
      * rewrite js_ge_integer. apply bool_decide_eq_false. lia.
  - intros m x -> Ht Hnan. rewrite Hiff. split.
    + by intros (m' & tc & _ & _ & _ & H0 & _).
    + intros H0. exists m, (VString x). repeat split; try done.
      * by apply (Hcd m (VString x)).
      * unfold js_ge. cbn. by rewrite Hnan.
  - intros (m & tc & l' & _ & _ & _ & _ & _ & [=])%validateMatrixOperation_ok_inv.
  - intros z (m & tc & l' & _ & _ & _ & _ & _ & [=])%validateMatrixOperation_ok_inv.
Qed.

(** X9.  The matrix operations of the server are all or nothing: when
    [matrixConnect], [matrixDisconnect] or [matrixSet] raises an
    exception, the store is as it was before the call. *)
Theorem doMatrixOperation_all_or_nothing call path tgt srcs op s e s' :
  doMatrixOperation call path tgt srcs op s = (Throw e, s') → s' = s.
Proof.
  unfold doMatrixOperation.
  destruct (validateMatrixOperation _ _ _); [|by intros [= _ <-]].
  unfold handleMatrixConnections.
  destruct (deref path s) as [m|] eqn:Hm; [|by intros [= _ <-]].
  destruct (if isQualified m then _ else _); [|by intros [= _ <-]].
  unfold default, id. cbn [applyConnections]. unfold applyConnection.
  rewrite Hm. cbn.
  destruct (matrix_connections m) as [conns|]; [|by intros [= _ <-]].
  destruct (conns !! tgt); [|by intros [= _ <-]].
  by destruct op.
Qed.

Lemma doMatrixOperation_all_or_nothing_witness :
  (matrixSet (invoke 1) [3]%Z 9 (SArray [0%Z]) example_server).2 = example_server.
Proof.
  apply (doMatrixOperation_all_or_nothing (invoke 1) [3]%Z 9 (SArray [0%Z]) absolute
           example_server (Error "target id 9 out of range 0 - 4")).
  reflexivity.
Defined.

Lemma applyConnections_request client p conns addr : ∀ acc s m c cm,
  deref p s = Some m → kind m = KMatrix c (Some cm) →
  (∀ x, x ∈ conns → is_Some (cm !! target x)) →
  remoteAddress client s = Ok addr →
  ∃ res s1,
    applyConnections (Some client) p true conns acc s = (Ok res, s1) ∧
    sessions s1 = sessions s ∧
    events s1 = events s ++
      ((λ x, EMatrix (matrix_event (operation x)) (target x) (sources x) addr) <$> conns).
Proof.
  induction conns as [|x conns IH]; intros acc s m c cm Hm Hk Hin Ha.
  - exists acc, s. cbn. by rewrite app_nil_r.
  - destruct (Hin x) as [cur Hcur]; [by left|].
    cbn [applyConnections]. unfold applyConnection.
    rewrite Hm. cbn. unfold matrix_connections at 1. rewrite Hk, Hcur.
    set (r := match operation x with
              | None | Some absolute => _ | Some connect => _ | Some disconnect => _
              end).
    assert (r.2 = matrix_event (operation x)) as Hev.
    { subst r. by destruct (operation x) as [[]|]. }
    destruct r as [result emitType]. cbn in Hev. subst emitType.
    set (s1 := set_tree _ s).
    assert (remoteAddress client s1 = Ok addr) as -> by done.
    edestruct (IH (<[target x := mkConResult (target x) result (Some modified) None]> acc)
                 (emit (EMatrix (matrix_event (operation x)) (target x) (sources x) addr) s1)
                 (set_connection (target x) result m) c (<[target x := result]> cm))
      as (res & s2 & -> & Hs & He).
    + unfold deref, s1. cbn. rewrite getElementByPath_update_at
        by apply number_set_connection.
      fold (deref p s). by rewrite Hm.
    + unfold set_connection. by rewrite Hk.
    + intros y Hy. rewrite lookup_insert_is_Some'. right. apply Hin. by right.
    + done.
    + exists res, s2. split; [done|]. split; [by rewrite Hs|].
      rewrite He. cbn. by rewrite <- app_assoc.
Qed.

(** X10.  The events of a matrix request.  When a client asks for
    connections on a matrix, each on a target the matrix has, one event
    is emitted per connection, in the order of the request: [matrix-
    change] for the absolute operation or none, [matrix-connect] and
    [matrix-disconnect] for the other two, each with the target and the
    sources as requested and the address of the client.  Nothing else is
    emitted. *)
Theorem matrix_request_events fuel client p conns s m c cm addr :
  deref p s = Some m → kind m = KMatrix c (Some cm) →
  qualified m = true ∨ p ≠ [] →
  (∀ x, x ∈ conns → is_Some (cm !! target x)) →
  remoteAddress client s = Ok addr →
  others_idle client s →
  let r := handleMatrixConnections (invoke (S fuel)) (Some client) p (Some conns) true s in
  r.1 = Ok () ∧
  events r.2 = events s ++
    ((λ x, EMatrix (matrix_event (operation x)) (target x) (sources x) addr) <$> conns).
Proof.
  intros Hm Hk Hq Hin Ha Hidle r. subst r. unfold handleMatrixConnections.
  rewrite Hm. unfold isQualified.
  destruct (applyConnections_request client p conns addr ∅ s m c cm)
    as (res & s1 & Happ & Hs & He); try done.
  assert (∀ (root : Leaf → Msg),
    (match applyConnections (Some client) p true (default [] (Some conns)) ∅ s with
     | (Ok res, s1) =>
         (Ok (), updateSubscribers (invoke (S fuel)) p (root (LeafMatrix res)) (Some client)
                   (on_client client (sendBERNode (Some (root (LeafMatrix res)))) s1))
     | (Throw e, s1) => (Throw e, s1)
     end).1 = Ok () ∧
    events (match applyConnections (Some client) p true (default [] (Some conns)) ∅ s with
     | (Ok res, s1) =>
         (Ok (), updateSubscribers (invoke (S fuel)) p (root (LeafMatrix res)) (Some client)
                   (on_client client (sendBERNode (Some (root (LeafMatrix res)))) s1))
     | (Throw e, s1) => (Throw e, s1)
     end).2 = events s ++
    ((λ x, EMatrix (matrix_event (operation x)) (target x) (sources x) addr) <$> conns))
    as Hgen.
  { intros root. change (default [] (Some conns)) with conns.
    rewrite Happ. split; [done|]. cbn [snd].
    rewrite updateSubscribers_quiet; [done|].
    apply others_idle_on_client. by apply (others_idle_sessions client s). }
  destruct (qualified m) eqn:Hqm.
  - apply Hgen.
  - destruct Hq as [|Hp]; [done|]. destruct p; [done|]. apply Hgen.
Qed.

Lemma example_clients_idle x c : sessions example_server !! x = Some c → idle c.
Proof.
  unfold example_server; simpl. rewrite !lookup_insert, lookup_singleton.
  repeat case_decide; first [intros [= <-]; split; reflexivity | done].
Qed.

Lemma matrix_request_events_witness :
  events (handleMatrixConnections (invoke 1) (Some 0) [3]%Z
            (Some [mkMatrixConnection 1 [2%Z] (Some connect);
                   mkMatrixConnection 0 [3%Z] None]) true example_server).2
  = [EMatrix matrix_connect 1 [2%Z] "10.0.0.1:9000";
     EMatrix matrix_change 0 [3%Z] "10.0.0.1:9000"].
Proof.
  eapply (matrix_request_events 0 0 [3]%Z
            [mkMatrixConnection 1 [2%Z] (Some connect); mkMatrixConnection 0 [3%Z] None]
            example_server example_matrix).
  - reflexivity.
  - reflexivity.
  - right. discriminate.
  - intros x Hx.
    repeat (apply elem_of_cons in Hx as [->|Hx]); [by eexists ..|].
    by apply not_elem_of_nil in Hx.
  - reflexivity.
  - intros x c0 Hx _. by apply (example_clients_idle x).
Defined.

(** ** Setting a value *)

Lemma find_update_child_ne n m g l :
  (∀ c, number (g c) = number c) → m ≠ n →
  find_child m (update_child n g l) = find_child m l.
Proof.
  intros Hg Hne. induction l as [|c l IH]; [done|]. cbn.
  destruct (decide (number c = n)) as [Hc|Hc]; cbn.
  - rewrite Hg. rewrite !decide_False by congruence. done.
  - by rewrite IH.
Qed.

Lemma view_update_at_other p f : ∀ q t,
  (∀ c, number (f c) = number c) → (∀ c, children (f c) = children c) →
  q ≠ p →
  view <$> getElementByPath q (update_at p f t) = view <$> getElementByPath q t.
Proof.
  induction p as [|n p IH]; intros q t Hn Hc Hq.
  - destruct q as [|m q]; [done|]. cbn. by rewrite Hc.
  - destruct q as [|m q]; [done|]. cbn.
    destruct (decide (m = n)) as [->|Hm].
    + rewrite find_update_child by (intros; by apply number_update_at).
      destruct (find_child n (children t)) as [c|]; [|done]. cbn.
      apply IH; try done. congruence.
    + rewrite find_update_child_ne; try done.
      intros. by apply number_update_at.
Qed.

(** X11.  [setValue] touches one element.  It leaves the live set, the
    registry and every client as they are (nobody is notified by
    [setValue] itself), emits at most one event, and changes at most the
    contents of the element it is given: every other path of the tree
    leads to an element with the number and the contents it had, and the
    element itself keeps its number and its children. *)
Theorem setValue_touches_one_element p v origin key s :
  let s' := setValue p v origin key s in
  clients s' = clients s ∧ subscribers s' = subscribers s ∧
  sessions s' = sessions s ∧
  (∃ evs, events s' = events s ++ evs ∧ length evs ≤ 1) ∧
  (∀ q, q ≠ p → view <$> deref q s' = view <$> deref q s) ∧
  number <$> deref p s' = number <$> deref p s ∧
  children <$> deref p s' = children <$> deref p s.
Proof.
  intros s'. subst s'.
  assert (clients s = clients s ∧ subscribers s = subscribers s ∧
          sessions s = sessions s ∧
          (∃ evs, events s = events s ++ evs ∧ length evs ≤ 1) ∧
          (∀ q, q ≠ p → view <$> deref q s = view <$> deref q s) ∧
          number <$> deref p s = number <$> deref p s ∧
          children <$> deref p s = children <$> deref p s) as Hsame.
  { repeat split; try done. exists []. split; [by rewrite app_nil_r|cbn; lia]. }
  assert (∀ k ev,
    let s1 := emit ev (set_tree (update_at p (set_kind k) (tree s)) s) in
    clients s1 = clients s ∧ subscribers s1 = subscribers s ∧
    sessions s1 = sessions s ∧
    (∃ evs, events s1 = events s ++ evs ∧ length evs ≤ 1) ∧
    (∀ q, q ≠ p → view <$> deref q s1 = view <$> deref q s) ∧
    number <$> deref p s1 = number <$> deref p s ∧
    children <$> deref p s1 = children <$> deref p s) as Hset.
  { intros k ev s1. repeat split; try done.
    - exists [ev]. split; [done|cbn; lia].
    - intros q Hq. unfold deref, s1. cbn. by apply view_update_at_other.
    - unfold deref, s1. cbn. rewrite getElementByPath_update_at by done.
      by destruct (getElementByPath p (tree s)).
    - unfold deref, s1. cbn. rewrite getElementByPath_update_at by done.
      by destruct (getElementByPath p (tree s)). }
  assert (setValue p v origin key s = s ∨
          ∃ k ev, setValue p v origin key s =
                  emit ev (set_tree (update_at p (set_kind k) (tree s)) s)) as Hcases.
  { unfold setValue. destruct (deref p s) as [e|]; [|by left].
    destruct (kind e) as [| |[pc|]|[mc|] conns]; try by left.
    - destruct (access pc) as [a|]; [|by left].
      case_bool_decide; [right; by do 2 eexists|by left].
    - destruct key as [k|]; [|by left].
      case_bool_decide; [right; by do 2 eexists|by left]. }
  destruct Hcases as [->|(k & ev & ->)]; [exact Hsame|apply Hset].
Qed.

(** X12.  [setValue] on a matrix.  Without a key, or with a key that is
    no property of the contents, nothing happens: [setValue] never adds
    a property to a matrix.  With a key the contents have, the property
    takes the value whatever the access, the connections are kept, and
    one value-change event without a previous value is emitted.  The key
    may be [targetCount]: the targets the operations of the server
    accept then follow the new count, the connections being as they
    were. *)
Theorem setValue_matrix_key p v origin s m c conns :
  deref p s = Some m → kind m = KMatrix (Some c) conns →
  setValue p v origin None s = s ∧
  (∀ k, c !! k = None → setValue p v origin (Some k) s = s) ∧
  (∀ k, is_Some (c !! k) →
     let s' := setValue p v origin (Some k) s in
     deref p s' = Some (set_kind (KMatrix (Some (<[k := v]> c)) conns) m) ∧
     events s' = events s ++ [EValueChange p None]) ∧
  (let s' := setValue p v origin (Some "targetCount") s in
   is_Some (c !! "targetCount") →
   matrix_connections <$> deref p s' = Some conns ∧
   ∀ tgt l, validateMatrixOperation (deref p s') tgt (SArray l) = Ok () ↔
            (0 ≤ tgt)%Z ∧ js_ge tgt v = false).
Proof.
  intros Hm Hk.
  assert (∀ k, is_Some (c !! k) →
     let s' := setValue p v origin (Some k) s in
     deref p s' = Some (set_kind (KMatrix (Some (<[k := v]> c)) conns) m) ∧
     events s' = events s ++ [EValueChange p None]) as Hset.
  { intros k Hin s'. subst s'. unfold setValue. rewrite Hm, Hk.
    rewrite bool_decide_eq_true_2 by done. split; [|done].
    unfold deref. cbn. rewrite getElementByPath_update_at by done.
    fold (deref p s). by rewrite Hm. }
  split; [|split; [|split; [exact Hset|]]].
  - unfold setValue. by rewrite Hm, Hk.
  - intros k Hn. unfold setValue. rewrite Hm, Hk.
    rewrite bool_decide_eq_false_2; [done|]. rewrite Hn. by intros [? ?].
  - intros s' Hin. subst s'. destruct (Hset _ Hin) as [Hd _]. cbv zeta in Hd.
    rewrite Hd. split; [done|]. intros tgt l.
    unfold validateMatrixOperation. cbn. unfold targetCount. cbn.
    rewrite lookup_insert_eq.
    destruct (bool_decide_reflect (tgt < 0)%Z), (js_ge tgt v); cbn;
      (split; [intros Hv; first [done|split; [lia|done]]
              | intros [? ?]; first [done|lia]]).
Qed.

Lemma setValue_matrix_key_witness :
  let s' := setValue [3]%Z (VString "2.5") None (Some "targetCount") example_server in
  setValue [3]%Z (VString "2.5") None (Some "gain") example_server = example_server ∧
  events s' = [EValueChange [3]%Z None] ∧
  validateMatrixOperation (deref [3]%Z s') 2 (SArray []) = Ok () ∧
  validateMatrixOperation (deref [3]%Z s') 3 (SArray []) ≠ Ok ().
Proof.
  destruct (setValue_matrix_key [3]%Z (VString "2.5") None example_server
              example_matrix _ _ eq_refl eq_refl) as (_ & H1 & H2 & H3).
  cbv zeta. split; [by apply H1|].
  split; [by apply (H2 "targetCount"); eexists|].
  destruct H3 as [_ H3]; [by eexists|].
  split.
  - apply H3. split; [lia|]. by vm_compute.
  - intros H. apply H3 in H as [_ H]. vm_compute in H. discriminate H.
Defined.

(** ** Connections *)

Lemma example_settled : settled example_server.
Proof.
  split; [|split].
  - intros x c Hx _. by apply (example_clients_idle x).
  - intros x c Hx. by apply (example_clients_idle x).
  - intros p l. unfold example_server; simpl.
    rewrite !lookup_insert, lookup_singleton.
    repeat case_decide; try done; intros [= <-];
      repeat (apply NoDup_cons; split;
              [intros Hx; repeat (apply elem_of_cons in Hx as [Hx|Hx]; [done|]);
               by apply not_elem_of_nil in Hx|]);
      apply NoDup_nil_2.
Qed.

Lemma settled_idle_subscribers origin s k : settled s → idle_subscribers origin s k.
Proof. intros (H & _ & _) x c _ Hc. by apply (H x). Qed.

Lemma settled_set_clients l s : settled s → settled (set_clients l s).
Proof. by apply dispatching_same. Qed.

Lemma onConnection_settled address w :
  settled (server w) → settled (server (onConnection address w)).
Proof.
  intros (H1 & H2 & H3). unfold onConnection. cbn.
  split; [|split]; [| |done].
  - intros y c. cbn. rewrite lookup_insert. case_decide.
    + by intros [= <-] _.
    + intros Hy Ho. by apply (H1 y).
  - intros y c. cbn. rewrite lookup_insert. case_decide.
    + by intros [= <-].
    + intros Hy. by apply (H2 y).
Qed.

Lemma onClose_settled client w :
  settled (server w) → settled (server (onClose client w).2).
Proof.
  intros H. unfold onClose. destruct (remoteAddress _ _); cbn.
  - apply dispatching_on_client; [done|]. by apply settled_set_clients.
  - by apply settled_set_clients.
Qed.

Lemma onClientError_server client error w :
  server (onClientError client error w).2 = server w.
Proof. unfold onClientError. by destruct (remoteAddress _ _). Qed.

Lemma replaceElement_settled fuel path element s :
  settled s → settled (replaceElement (invoke (S fuel)) path element s).2.
Proof.
  intros H. unfold replaceElement.
  destruct (deref path s) as [old|]; [|done]. destruct path as [|n path]; [done|].
  cbn [snd]. apply dispatching_updateSubscribers. by apply (dispatching_same None s).
Qed.

Lemma step_settled fuel i w :
  settled (server w) → settled (server (step (invoke (S (S fuel))) i w)).
Proof.
  intros H. destruct i as [address|client|client decoded|client error|op path tgt srcs
                          |element v origin key|path element]; cbn [step].
  - by apply onConnection_settled.
  - by apply onClose_settled.
  - unfold onEmberPacket. destruct decoded as [[root|]|e]; cbn; try done.
    + by apply onEmberTree_settled.
    + by rewrite onClientError_server.
  - by rewrite onClientError_server.
  - cbn. by apply doMatrixOperation_settled.
  - cbn. by apply dispatching_setValue.
  - cbn. by apply replaceElement_settled.
Qed.

Lemma run_settled_from fuel inputs : ∀ w,
  settled (server w) → settled (server (run (invoke (S (S fuel))) inputs w)).
Proof.
  induction inputs as [|i inputs IH]; intros w H; [done|].
  cbn. apply IH. by apply step_settled.
Qed.

(** X13.  The server is settled between inputs.  Whatever connections,
    closed sockets, packets (decodable or not), socket errors and calls
    of [matrixConnect], [matrixDisconnect], [matrixSet], [setValue] and
    [replaceElement] a freshly built server sees, when the last of them
    has returned no client has a request active or anything left in its
    queue, and no set of the registry holds a client twice.  Every
    response has therefore been written when the input that caused it
    returns. *)
Theorem run_settled fuel t inputs :
  settled (server (run (invoke (S (S fuel))) inputs (initial t))).
Proof.
  apply run_settled_from. split; [|split]; intros ? ?; cbn;
    by rewrite lookup_empty.
Qed.

(** X14.  A client whose socket has closed.  The close takes the client
    out of the live set and emits [disconnect] with the address of the
    socket; the registry is not touched, so the client is still a
    subscriber.  Nothing is written to it any more, and the next update
    of the subscribers of a path it subscribed to removes it from the
    set of that path. *)
Theorem closed_client_is_dropped fuel client w w' path l response origin :
  onClose client w = (Ok (), w') → settled (server w) →
  subscribers (server w) !! path = Some l → client ∈ l → origin ≠ Some client →
  (∃ c, sessions (server w) !! client = Some c ∧
        lifecycle w' = lifecycle w ++ [LDisconnect (remote c)] ∧
        sessions (server w') !! client = Some (set_connected false c)) ∧
  (client ∉ clients (server w')) ∧
  subscribers (server w') = subscribers (server w) ∧
  (∀ node, on_client client (sendBERNode node) (server w') = server w') ∧
  let s' := updateSubscribers (invoke (S fuel)) path response origin (server w') in
  ¬ subscribed client path s' ∧
  sessions s' !! client = sessions (server w') !! client.
Proof.
  intros Hclose Hs Hl Hin Ho. unfold onClose in Hclose.
  unfold remoteAddress in Hclose. cbn in Hclose.
  destruct (sessions (server w) !! client) as [c|] eqn:Hc; [|done].
  destruct (connected c) eqn:Hco; [|done]. injection Hclose as <-. cbn [server lifecycle].
  set (s1 := on_client client (set_connected false) _).
  assert (sessions s1 !! client = Some (set_connected false c)) as Hc1.
  { unfold s1. rewrite sessions_on_client, decide_True by done. cbn. by rewrite Hc. }
  assert (client ∉ clients s1) as Hout by (cbn; set_solver).
  assert (settled s1) as Hs1
    by (by apply dispatching_on_client; [|apply settled_set_clients]).
  split; [by exists c|]. split; [done|]. split; [done|]. split.
  - intros node. apply on_client_id. intros c' Hc'. rewrite Hc1 in Hc'.
    injection Hc' as <-. destruct node as [n|]; [|done]. done.
  - destruct (updateSubscribers_spec _ (invoke_send fuel) path response origin s1 l)
      as (_ & _ & _ & Hsub & Hses).
    + done.
    + destruct Hs1 as (_ & _ & H). by apply (H path).
    + by apply settled_idle_subscribers.
    + split.
      * unfold subscribed. cbv zeta in Hsub. rewrite Hsub, lookup_insert_eq. cbn.
        rewrite list_elem_of_filter. intros [[?|?] _]; done.
      * cbv zeta in Hses. rewrite Hses. rewrite decide_False; [done|].
        by intros (_ & _ & ?).
Qed.

Lemma closed_client_is_dropped_witness :
  let w' := (onClose 1 (mkListener example_server [])).2 in
  lifecycle w' = [LDisconnect "10.0.0.2:9000"] ∧
  ¬ subscribed 1 [3]%Z
      (updateSubscribers (invoke 1) [3]%Z MinimalRoot None (server w')).
Proof.
  destruct (closed_client_is_dropped 0 1 (mkListener example_server [])
              (onClose 1 (mkListener example_server [])).2 [3]%Z [1; 2]
              MinimalRoot None) as ((c & Hc & Hl & _) & _ & _ & _ & Hn & _).
  - reflexivity.
  - apply example_settled.
  - reflexivity.
  - by left.
  - done.
  - cbv zeta. split; [|exact Hn]. rewrite Hl.
    vm_compute in Hc. by injection Hc as <-.
Defined.

(** ** Replacing an element *)

Lemma find_update_child_found n g l c :
  find_child n l = Some c → number (g c) = n →
  find_child n (update_child n g l) = Some (g c).
Proof.
  intros Hf Hg. induction l as [|x l IH]; [done|]. cbn in *.
  destruct (decide (number x = n)) as [Hx|Hx]; cbn.
  - injection Hf as ->. by rewrite decide_True.
  - rewrite decide_False by done. by apply IH.
Qed.

Lemma find_child_number n l c : find_child n l = Some c → number c = n.
Proof.
  induction l as [|x l IH]; [done|]. cbn. case_decide; [by intros [= <-]|done].
Qed.

Lemma getElementByPath_update_found p f : ∀ t old,
  getElementByPath p t = Some old → number (f old) = number old →
  getElementByPath p (update_at p f t) = Some (f old).
Proof.
  induction p as [|n p IH]; intros t old Hg Hn; cbn in *.
  - by injection Hg as ->.
  - destruct (find_child n (children t)) as [c|] eqn:Hc; [|done].
    rewrite (find_update_child_found n _ _ c Hc).
    + by apply IH.
    + destruct p as [|m p]; cbn in *.
      * injection Hg as ->. rewrite Hn. by apply (find_child_number _ (children t)).
      * by apply (find_child_number _ (children t)).
Qed.

Lemma getElementByPath_last p : ∀ t e,
  getElementByPath p t = Some e → p ≠ [] → last p = Some (number e).
Proof.
  induction p as [|n p IH]; intros t e Hg Hp; [done|]. cbn in Hg.
  destruct (find_child n (children t)) as [c|] eqn:Hc; [|done].
  destruct p as [|m p].
  - cbn in *. injection Hg as <-. f_equal. symmetry.
    by apply (find_child_number _ (children t)).
  - rewrite last_cons_cons. by apply (IH c).
Qed.

(** X15.  [replaceElement].  For a path that leads nowhere it throws
    the error "Could not find element at path ..."; for the path of the
    root it throws a [TypeError]; in both cases the store is as before.
    For a path that leads to another element, the element given takes
    its place; when it has the number of the element it replaces, the
    path then leads to it, and every live subscriber of the path (nobody
    is taken as the origin) has the new element with its children
    written to its socket, as a tree branch.  No event is emitted. *)
Theorem replaceElement_spec fuel path element s :
  settled s →
  (deref path s = None →
   replaceElement (invoke (S fuel)) path element s =
     (Throw (Error ("Could not find element at path " +:+ path_string "." path)), s)) ∧
  (path = [] →
   replaceElement (invoke (S fuel)) path element s =
     (Throw (TypeError "Cannot read properties of null"), s)) ∧
  (∀ old, deref path s = Some old → path ≠ [] → number element = number old →
     let msg := TreeBranch path
                  (LeafElement (mkView (number element) (kind element))
                     ((λ k, mkView (number k) (kind k)) <$> children element)) in
     ∃ s', replaceElement (invoke (S fuel)) path element s = (Ok (), s') ∧
           deref path s' = Some element ∧
           events s' = events s ∧ clients s' = clients s ∧
           (∀ x, sessions s' !! x =
                 if decide (subscribed x path s ∧ x ∈ clients s)
                 then sendBERNode (Some msg) <$> sessions s !! x
                 else sessions s !! x) ∧
           (∀ x c, sessions s !! x = Some c → connected c = true →
                   subscribed x path s → x ∈ clients s →
                   written <$> sessions s' !! x = Some (written c ++ [msg]))).
Proof.
  intros Hs. split; [|split].
  - intros Hn. unfold replaceElement. by rewrite Hn.
  - intros ->. done.
  - intros old Ho Hp Hnum msg. unfold replaceElement. rewrite Ho.
    destruct path as [|n path]; [done|]. eexists. split; [reflexivity|].
    set (p := n :: path) in *.
    assert (removelast p ++ [number element] = p) as ->.
    { rewrite Hnum. pose proof (getElementByPath_last p (tree s) old Ho Hp) as Hlast.
      destruct (exists_last Hp) as (q & z & Hq). rewrite Hq in Hlast |- *.
      rewrite last_snoc in Hlast. injection Hlast as ->.
      by rewrite removelast_last. }
    set (s1 := set_tree _ s).
    destruct (updateSubscribers_frame _ (invoke_send fuel) p
                (getResponse p element) None s1) as (Ht & Hcl & Hev & Hses).
    + by apply (dispatching_NoDup None s).
    + by apply (dispatching_idle_subscribers None s).
    + cbv zeta in *. rewrite Hev, Hcl.
      assert (∀ x, sessions (updateSubscribers (invoke (S fuel)) p
                               (getResponse p element) None s1) !! x =
                   if decide (subscribed x p s ∧ x ∈ clients s)
                   then sendBERNode (Some msg) <$> sessions s !! x
                   else sessions s !! x) as Hses'.
      { intros x. rewrite Hses. unfold notified, subscribed. cbn.
        repeat case_decide; try done; exfalso; naive_solver. }
      repeat split; try done.
      * unfold deref. rewrite Ht. unfold s1. cbn.
        by apply (getElementByPath_update_found p (λ _, element) (tree s) old).
      * intros x c Hc Hopen Hsub Hlive. rewrite Hses', decide_True by done.
        rewrite Hc. cbn. unfold sendBER, isConnected. by rewrite Hopen.
Qed.

Lemma replaceElement_spec_witness :
  ∃ s', replaceElement (invoke 1) [1; 4]%Z (Elem 4 false KNode []) example_server
        = (Ok (), s') ∧
        deref [1; 4]%Z s' = Some (Elem 4 false KNode []) ∧
        written <$> sessions s' !! 1 =
          Some [TreeBranch [1; 4]%Z (LeafElement (mkView 4 KNode) [])].
Proof.
  destruct (replaceElement_spec 0 [1; 4]%Z (Elem 4 false KNode []) example_server
              example_settled) as (_ & _ & H).
  destruct (H example_read_only eq_refl) as (s' & Hr & Hd & _ & _ & _ & Hw);
    [done|reflexivity|].
  exists s'. split; [exact Hr|]. split; [exact Hd|].
  apply (Hw 1 (example_client "10.0.0.2:9000" true)).
  - reflexivity.
  - reflexivity.
  - apply (bool_decide_unpack _). by vm_compute.
  - apply (bool_decide_unpack _). by vm_compute.
Defined.

(** ** Trees from JSON *)

Lemma Json_ind' (P : Json → Prop) :
  (∀ c, (∀ l, j_children c = Some l → Forall P l) → P c) → ∀ c, P c.
Proof.
  intros H. fix IH 1. intros [n v ty a md tc cs si ot kids]. apply H. cbn.
  intros l E. destruct kids as [l0|]; [|discriminate E]. injection E as <-.
  revert l0. fix IHl 1. intros [|x l0]; constructor; [apply IH|apply IHl].
Qed.

Section Loading.

Variable get : string → option ParameterAccess.

Lemma parseContent_eq i content :
  parseContent get i content =
  match parseKind get content with
  | Throw e => Throw e
  | Ok k =>
      match match j_children content with
            | None => Ok []
            | Some l => parseObj get 0 l
            end with
      | Throw e => Throw e
      | Ok es => Ok (Elem (default i (j_number content)) false k es)
      end
  end.
Proof.
  destruct content as [n v ty a md tc cs si ot kids]. cbn.
  destruct (parseKind get _) as [k|e]; [|done].
  destruct kids as [l|]; [|done].
  match goal with |- match ?f 0%Z l with _ => _ end = _ =>
    assert (∀ l i, f i l = parseObj get i l) as ->; [|done] end.
  clear l. induction l as [|c l IH]; intros j; [done|]. cbn.
  destruct (parseContent get j c); [|done]. by rewrite IH.
Qed.

Lemma parseObj_cons i c obj :
  parseObj get i (c :: obj) =
  match parseContent get i c with
  | Throw e => Throw e
  | Ok e =>
      match parseObj get (i + 1) obj with
      | Throw err => Throw err
      | Ok es => Ok (e :: es)
      end
  end.
Proof. done. Qed.

Lemma parseKind_cases content k :
  parseKind get content = Ok k →
  (∃ v, j_value content = Some v ∧
        k = KParameter (Some (mkParameterContents (Some v) (parseAccess get content)
                                (j_streamIdentifier content)))) ∨
  (∃ n m, j_value content = None ∧ j_targetCount content = Some n ∧
          parseMatrixContent content = Ok m ∧
          k = KMatrix (Some (<[ "targetCount" := VInteger n ]> (m ∪ copied content)))
                (Some (parseConnections content n))) ∨
  (j_value content = None ∧ j_targetCount content = None ∧ k = KNode).
Proof.
  unfold parseKind.
  destruct (j_value content) as [v|]; [intros [= <-]; left; by eexists|].
  destruct (j_targetCount content) as [n|]; [|intros [= <-]; by right; right].
  destruct (parseMatrixContent content) as [m|]; [|done].
  intros [= <-]. right; left. by do 2 eexists.
Qed.

(** X16.  The elements [parseObj] builds.  When it returns, there is one
    element per content, in the order of the contents.  The element of
    a content has the number the content gives, or else the index of the
    content in its array; it is a parameter when the content has a
    value, a matrix when it has no value but a target count, and a node
    otherwise; it is never of a qualified class. *)
Theorem parseObj_shape obj : ∀ i es,
  parseObj get i obj = Ok es →
  length es = length obj ∧
  ∀ (k : nat) c e, obj !! k = Some c → es !! k = Some e →
    number e = default (i + Z.of_nat k)%Z (j_number c) ∧ qualified e = false ∧
    isParameter e = bool_decide (is_Some (j_value c)) ∧
    isMatrix e = matrix_shaped c ∧
    (isParameter e = false → isMatrix e = false → kind e = KNode).
Proof.
  induction obj as [|c obj IH]; intros i es.
  - intros [= <-]. split; [done|]. intros k c e Hk. by rewrite lookup_nil in Hk.
  - rewrite parseObj_cons, parseContent_eq.
    destruct (parseKind get c) as [kd|] eqn:Hkd; [|done].
    destruct (match j_children c with None => _ | Some l => _ end) as [kids|]; [|done].
    destruct (parseObj get (i + 1) obj) as [es'|] eqn:Hes; [|done].
    intros [= <-]. destruct (IH _ _ Hes) as [Hlen Hall].
    split; [cbn; by rewrite Hlen|].
    intros [|k] c' e; cbn.
    + intros [= <-] [= <-]. cbn. rewrite Z.add_0_r.
      unfold isParameter, isMatrix, matrix_shaped. cbn.
      destruct (parseKind_cases c kd Hkd)
        as [(v & -> & ->)|[(n & m & -> & -> & _ & ->)|(-> & -> & ->)]]; done.
    + intros Hc He. destruct (Hall k c' e Hc He) as (Hn & ?).
      split; [|done]. rewrite Hn. f_equal. lia.
Qed.


Lemma parseMatrixContent_ok content :
  (∃ m, parseMatrixContent content = Ok m) ↔ type_ok content && mode_ok content = true.
Proof.
  unfold parseMatrixContent, type_ok, mode_ok.
  destruct (j_type content) as [t|], (j_mode content) as [md|]; cbn;
    repeat case_decide; rewrite ?bool_decide_eq_true_2, ?bool_decide_eq_false_2 by done;
    cbn; split; try done; try (intros _; by eexists); by intros [? ?].
Qed.

Lemma parseMatrixContent_error content e :
  parseMatrixContent content = Throw e →
  ∃ x, e = Error ("Invalid matrix type " +:+ x) ∨ e = Error ("Invalid matrix mode " +:+ x).
Proof.
  unfold parseMatrixContent.
  destruct (j_type content) as [t|], (j_mode content) as [md|]; cbn;
    repeat case_decide; try done; intros [= <-]; eexists; by (left + right).
Qed.

Lemma parseKind_ok content :
  (∃ k, parseKind get content = Ok k) ↔
  negb (matrix_shaped content) || (type_ok content && mode_ok content) = true.
Proof.
  unfold parseKind, matrix_shaped.
  destruct (j_value content) as [v|]; [split; [done|by eexists]|].
  destruct (j_targetCount content) as [n|]; [|split; [done|by eexists]].
  cbn. rewrite <- parseMatrixContent_ok.
  destruct (parseMatrixContent content) as [m|e]; split; try (by eexists).
  - by intros [? ?].
  - by intros [? ?].
Qed.

Lemma parseKind_error content e :
  parseKind get content = Throw e →
  ∃ x, e = Error ("Invalid matrix type " +:+ x) ∨ e = Error ("Invalid matrix mode " +:+ x).
Proof.
  unfold parseKind. destruct (j_value content); [done|].
  destruct (j_targetCount content); [|done].
  destruct (parseMatrixContent content) eqn:E; [done|].
  intros [= <-]. by apply (parseMatrixContent_error content).
Qed.

Lemma json_every_eq P content :
  json_every P content =
  P content && match j_children content with
               | None => true
               | Some l => forallb (json_every P) l
               end.
Proof. by destruct content. Qed.

Lemma every_eq P e : every P e = P e && forallb (every P) (children e).
Proof. by destruct e. Qed.

Lemma parseObj_loadable obj :
  Forall (λ c, ∀ i,
    ((∃ e, parseContent get i c = Ok e) ↔ loadable c = true) ∧
    (∀ err, parseContent get i c = Throw err →
       ∃ x, err = Error ("Invalid matrix type " +:+ x) ∨
            err = Error ("Invalid matrix mode " +:+ x))) obj →
  ∀ i,
    ((∃ es, parseObj get i obj = Ok es) ↔ forallb loadable obj = true) ∧
    (∀ err, parseObj get i obj = Throw err →
       ∃ x, err = Error ("Invalid matrix type " +:+ x) ∨
            err = Error ("Invalid matrix mode " +:+ x)).
Proof.
  induction 1 as [|c obj Hc _ IH]; intros i.
  - split; [|done]. split; [done|by eexists].
  - rewrite parseObj_cons. cbn [forallb]. destruct (Hc i) as [Hc1 Hc2].
    destruct (IH (i + 1)%Z) as [IH1 IH2].
    destruct (parseContent get i c) as [e|err] eqn:He.
    + assert (loadable c = true) as -> by (apply Hc1; by eexists). cbn.
      destruct (parseObj get (i + 1) obj) as [es|err] eqn:Hes.
      * split; [|done]. split; [intros _; apply IH1; by eexists|by eexists].
      * split; [|intros ? [= <-]; by apply IH2].
        split; [by intros [? ?]|]. intros H. apply IH1 in H as [? ?]. done.
    + split; [|intros ? [= <-]; by apply Hc2].
      split; [by intros [? ?]|]. intros [H _]%andb_prop. apply Hc1 in H as [? ?]. done.
Qed.

Lemma parseContent_loadable c : ∀ i,
  ((∃ e, parseContent get i c = Ok e) ↔ loadable c = true) ∧
  (∀ err, parseContent get i c = Throw err →
     ∃ x, err = Error ("Invalid matrix type " +:+ x) ∨
          err = Error ("Invalid matrix mode " +:+ x)).
Proof.
  induction c as [c IH] using Json_ind'. intros i.
  rewrite parseContent_eq. unfold loadable. rewrite json_every_eq.
  pose proof (parseKind_ok c) as Hk. pose proof (parseKind_error c) as Hke.
  destruct (parseKind get c) as [k|err].
  - assert (negb (matrix_shaped c) || type_ok c && mode_ok c = true) as ->
      by (apply Hk; by eexists). cbn.
    destruct (j_children c) as [l|].
    + destruct (parseObj_loadable l (IH l eq_refl) 0%Z) as [H1 H2].
      fold loadable. destruct (parseObj get 0 l) as [es|err].
      * split; [|done]. split; [intros _; apply H1; by eexists|by eexists].
      * split; [|intros ? [= <-]; by apply H2].
        split; [by intros [? ?]|]. intros H. apply H1 in H as [? ?]. done.
    + split; [|done]. split; [done|by eexists].
  - split; [|intros ? [= <-]; by apply Hke].
    split; [by intros [? ?]|]. intros [H _]%andb_prop. apply Hk in H as [? ?]. done.
Qed.

(** X17.  What [JSONtoTree] loads.  It returns a tree exactly when
    every content that becomes a matrix, at any depth, gives as its type
    (when it gives one) one of [oneToN], [oneToOne] and [nToN] and as its
    mode one of [linear] and [nonLinear]; the tree is then the root with
    the elements of the contents.  Otherwise it throws, and the error
    names an invalid matrix type or an invalid matrix mode. *)
Theorem JSONtoTree_loads obj :
  ((∃ t, JSONtoTree get obj = Ok t) ↔ forallb loadable obj = true) ∧
  (∀ t, JSONtoTree get obj = Ok t →
     ∃ es, parseObj get 0 obj = Ok es ∧ t = Elem 0 false KRoot es) ∧
  (∀ err, JSONtoTree get obj = Throw err →
     ∃ x, err = Error ("Invalid matrix type " +:+ x) ∨
          err = Error ("Invalid matrix mode " +:+ x)).
Proof.
  destruct (parseObj_loadable obj) with (i := 0%Z) as [H1 H2].
  { apply Forall_forall. intros c _. apply parseContent_loadable. }
  unfold JSONtoTree. destruct (parseObj get 0 obj) as [es|err].
  - split; [|split; [|done]].
    + split; [intros _; apply H1; by eexists|by eexists].
    + intros t [= <-]. by eexists.
  - split; [|split; [done|]].
    + split; [by intros [? ?]|]. intros H. apply H1 in H as [? ?]. done.
    + intros ? [= <-]. by apply H2.
Qed.

Lemma every_lookup P p : ∀ t e,
  every P t = true → getElementByPath p t = Some e → P e = true.
Proof.
  induction p as [|n p IH]; intros t e Ht.
  - intros [= <-]. rewrite every_eq in Ht. by apply andb_prop in Ht as [? _].
  - cbn. destruct (find_child n (children t)) as [c|] eqn:Hc; [|done].
    apply IH. rewrite every_eq in Ht. apply andb_prop in Ht as [_ Ht].
    rewrite forallb_forall in Ht. apply Ht.
    clear -Hc. induction (children t) as [|x l IHl]; [done|]. cbn in Hc.
    case_decide; [injection Hc as ->; by left|right; by apply IHl].
Qed.

Lemma parseObj_every (P : Json → bool) (Q : Element → bool) obj :
  Forall (λ c, ∀ i e, parseContent get i c = Ok e →
                      json_every P c = true → every Q e = true) obj →
  ∀ i es, parseObj get i obj = Ok es →
          forallb (json_every P) obj = true → forallb (every Q) es = true.
Proof.
  induction 1 as [|c obj Hc _ IH]; intros i es.
  - by intros [= <-].
  - rewrite parseObj_cons. destruct (parseContent get i c) as [e|] eqn:He; [|done].
    destruct (parseObj get (i + 1) obj) as [es'|] eqn:Hes; [|done].
    intros [= <-] [H1 H2]%andb_prop. cbn.
    rewrite (Hc i e He H1). by apply (IH _ _ Hes).
Qed.

Lemma parseContent_every (P : Json → bool) (Q : Element → bool) :
  (∀ c k, P c = true → parseKind get c = Ok k →
          ∀ n q es, Q (Elem n q k es) = true) →
  ∀ c i e, parseContent get i c = Ok e → json_every P c = true → every Q e = true.
Proof.
  intros HPQ c. induction c as [c IH] using Json_ind'. intros i e.
  rewrite parseContent_eq, json_every_eq.
  destruct (parseKind get c) as [k|] eqn:Hk; [|done].
  destruct (j_children c) as [l|].
  - destruct (parseObj get 0 l) as [es|] eqn:Hes; [|done].
    intros [= <-] [H1 H2]%andb_prop. rewrite every_eq. cbn.
    rewrite (HPQ c k H1 Hk). cbn.
    by apply (parseObj_every P Q l (IH l eq_refl) 0%Z es).
  - intros [= <-] [H1 _]%andb_prop. rewrite every_eq. cbn.
    by rewrite (HPQ c k H1 Hk).
Qed.

(** X18.  Access defaults to read.  In a tree loaded from contents none
    of which gives an access, every parameter is read-only: on every
    server that holds the tree, [setValue] on any parameter, with any
    value, origin and key, leaves the server as it is. *)
Theorem loaded_defaults_read_only obj t :
  JSONtoTree get obj = Ok t →
  forallb (json_every (λ c, bool_decide (j_access c = None))) obj = true →
  ∀ s p e v origin key,
    tree s = t → deref p s = Some e → isParameter e = true →
    setValue p v origin key s = s.
Proof.
  intros Ht Hobj s p e v origin key Hs He Hp.
  assert (every read_only t = true) as Hro.
  { unfold JSONtoTree in Ht. destruct (parseObj get 0 obj) as [es|] eqn:Hes; [|done].
    injection Ht as <-. rewrite every_eq. cbn.
    apply (parseObj_every (λ c, bool_decide (j_access c = None)) read_only obj)
      with (i := 0%Z); try done.
    apply Forall_forall. intros c _. apply parseContent_every.
    intros c0 k Hacc Hk n q es0. unfold read_only. cbn.
    destruct (parseKind_cases c0 k Hk)
      as [(v0 & _ & ->)|[(n0 & m & _ & _ & _ & ->)|(_ & _ & ->)]]; try done.
    cbn. unfold parseAccess. apply bool_decide_eq_true_1 in Hacc. by rewrite Hacc. }
  unfold deref in He. rewrite Hs in He.
  pose proof (every_lookup read_only p t e Hro He) as Hre.
  unfold setValue, deref. rewrite Hs, He.
  unfold isParameter in Hp. unfold read_only in Hre.
  destruct (kind e) as [| |[c|]|]; try done.
  destruct (access c) as [a|]; [|done].
  apply bool_decide_eq_true_1 in Hre. by rewrite bool_decide_eq_false_2 by lia.
Qed.

Lemma parseConnections_default content n :
  j_connections content = None →
  ∀ t, parseConnections content n !! t =
       if decide (0 ≤ t < n)%Z then Some ∅ else None.
Proof.
  intros Hc t. unfold parseConnections. rewrite Hc.
  assert (((λ t0 : Z, (t0, (∅ : gset Z))) <$> seqZ 0 n).*1 = seqZ 0 n) as Hfst.
  { rewrite <- list_fmap_compose. apply list_fmap_id. }
  case_decide as Ht.
  - apply elem_of_list_to_map; [rewrite Hfst; apply NoDup_seqZ|].
    apply list_elem_of_fmap. exists t. split; [done|]. apply elem_of_seqZ. lia.
  - apply not_elem_of_list_to_map. rewrite Hfst, elem_of_seqZ. lia.
Qed.

Lemma parseConnections_listed content n l :
  j_connections content = Some l →
  ∀ t, is_Some (parseConnections content n !! t) ↔
       t ∈ (λ x, default 0%Z (jc_target x)) <$> l.
Proof.
  intros Hc t. unfold parseConnections. rewrite Hc.
  assert (∀ m : gmap Z (gset Z),
    is_Some (foldl (λ m c, <[default 0%Z (jc_target c) :=
                              setSources (jc_sources c) ∅]> m) m l !! t) ↔
    is_Some (m !! t) ∨ t ∈ (λ x, default 0%Z (jc_target x)) <$> l) as H.
  { clear Hc. induction l as [|x l IH]; intros m; cbn.
    - rewrite elem_of_nil. tauto.
    - rewrite IH, lookup_insert_is_Some, elem_of_cons.
      destruct (decide (default 0%Z (jc_target x) = t)); naive_solver. }
  rewrite H, lookup_empty. split; [intros [[? ?]|?]; done|by right].
Qed.

(** X19.  The targets of a loaded matrix.  A content that becomes a
    matrix and lists no connections gets one connection without sources
    for each target below its count, so that the operations of the
    server go through on every target in range.  A content that lists
    connections gets those only: on a target in range that is not
    listed [validateMatrixOperation] passes and the operation then fails
    on the missing connection, the store being left as it was. *)
Theorem loaded_matrix_api fuel i c e n p s tgt l op :
  parseContent get i c = Ok e →
  j_value c = None → j_targetCount c = Some n →
  deref p s = Some e → p ≠ [] → (0 ≤ tgt < n)%Z →
  (j_connections c = None →
   matrix_connections e = Some (parseConnections c n) ∧
   (∀ t, parseConnections c n !! t = if decide (0 ≤ t < n)%Z then Some ∅ else None) ∧
   (doMatrixOperation (invoke (S fuel)) p tgt (SArray l) op s).1 = Ok ()) ∧
  (∀ cs, j_connections c = Some cs →
   tgt ∉ (λ x, default 0%Z (jc_target x)) <$> cs →
   doMatrixOperation (invoke (S fuel)) p tgt (SArray l) op s =
     (Throw undefined_element, s)).
Proof.
  intros He Hv Hn Hd Hp Ht. rewrite parseContent_eq in He.
  destruct (parseKind get c) as [k|] eqn:Hk; [|done].
  destruct (match j_children c with None => _ | Some l0 => _ end) as [es|]; [|done].
  injection He as <-.
  destruct (parseKind_cases c k Hk)
    as [(v0 & Hv0 & _)|[(n0 & m & _ & Hn0 & _ & ->)|(_ & Hn0 & _)]];
    [congruence| |congruence].
  rewrite Hn in Hn0. injection Hn0 as <-.
  set (e := Elem _ false _ es) in *.
  assert (validateMatrixOperation (deref p s) tgt (SArray l) = Ok ()) as Hval.
  { rewrite Hd. eapply validateMatrixOperation_ok; [done| |done].
    apply lookup_insert_eq. }
  assert (deref p s ≫= matrix_connections = Some (parseConnections c n)) as Hcm
    by (by rewrite Hd).
  split.
  - intros Hc. split; [done|]. split; [by apply parseConnections_default|].
    unfold doMatrixOperation. rewrite Hval. unfold handleMatrixConnections.
    rewrite Hd. cbn [isQualified qualified e]. destruct p as [|z p]; [done|].
    change (default [] (Some [mkMatrixConnection tgt l (Some op)]))
      with [mkMatrixConnection tgt l (Some op)].
    destruct (applyConnections_ok None (z :: p) false
                [mkMatrixConnection tgt l (Some op)] ∅ s e _ _ Hd eq_refl)
      as (s1 & res & m1 & -> & _).
    + intros x ->%list_elem_of_singleton. cbn.
      rewrite parseConnections_default by done. by rewrite decide_True.
    + by intros [=].
    + intros t r. by rewrite lookup_empty.
    + done.
  - intros cs Hc Hnot. unfold doMatrixOperation. rewrite Hval.
    unfold handleMatrixConnections. rewrite Hd. cbn [isQualified qualified e].
    destruct p as [|z p]; [done|].
    change (default [] (Some [mkMatrixConnection tgt l (Some op)]))
      with [mkMatrixConnection tgt l (Some op)].
    cbn [applyConnections]. unfold applyConnection. rewrite Hcm. cbn.
    destruct (parseConnections c n !! tgt) eqn:E; [|done].
    exfalso. apply Hnot. apply (parseConnections_listed c n cs Hc). by eexists.
Qed.

End Loading.

Lemma parseObj_shape_witness :
  ∃ es, parseObj access_of_name 0
          [json_node None []; json_parameter (VInteger 5) None;
           json_node (Some 7%Z) []] = Ok es ∧
        length es = 3 ∧
        ∀ e, es !! 2 = Some e → number e = 7%Z ∧ isParameter e = false.
Proof.
  eexists. split; [reflexivity|].
  match goal with |- length ?es = _ ∧ _ =>
    destruct (parseObj_shape access_of_name
                [json_node None []; json_parameter (VInteger 5) None;
                 json_node (Some 7%Z) []] 0%Z es eq_refl) as [Hlen H] end.
  split; [exact Hlen|]. intros e He.
  destruct (H 2 (json_node (Some 7%Z) []) e eq_refl He) as (H1 & _ & H2 & _).
  split; [exact H1|exact H2].
Defined.

Lemma JSONtoTree_loads_witness :
  (∃ t, JSONtoTree access_of_name [json_node None [json_matrix 2 None]] = Ok t) ∧
  ∃ x, JSONtoTree access_of_name
         [mkJson None None (Some "star") None None (Some 2%Z) None None ∅ None]
       = Throw (Error ("Invalid matrix type " +:+ x)).
Proof.
  split.
  - apply (proj1 (JSONtoTree_loads access_of_name [json_node None [json_matrix 2 None]])).
    reflexivity.
  - destruct (proj2 (proj2 (JSONtoTree_loads access_of_name
               [mkJson None None (Some "star") None None (Some 2%Z) None None ∅ None]))
               (Error "Invalid matrix type star") eq_refl) as [x [H|H]].
    + exists x. by rewrite <- H.
    + exists "star". reflexivity.
Defined.

Lemma loaded_defaults_read_only_witness :
  let t := Elem 0 false KRoot
             [Elem 0 false (KParameter (Some (mkParameterContents
                (Some (VInteger 5)) (Some AccessRead) None))) []] in
  JSONtoTree access_of_name [json_parameter (VInteger 5) None] = Ok t ∧
  setValue [0%Z] (VInteger 6) None None (mkServer t ∅ ∅ ∅ []) = mkServer t ∅ ∅ ∅ [].
Proof.
  cbv zeta. split; [reflexivity|].
  apply (loaded_defaults_read_only access_of_name [json_parameter (VInteger 5) None]
           _ eq_refl eq_refl _ [0%Z]
           (Elem 0 false (KParameter (Some (mkParameterContents
              (Some (VInteger 5)) (Some AccessRead) None))) []));
    reflexivity.
Defined.

Lemma loaded_matrix_api_witness :
  (matrixConnect (invoke 1) [0%Z] 1 (SArray [0%Z]) example_loaded_server).1 = Ok ().
Proof.
  destruct (loaded_matrix_api access_of_name 0 0%Z (json_matrix 2 None) _ 2 [0%Z]
              example_loaded_server 1 [0%Z] connect eq_refl eq_refl eq_refl eq_refl)
    as [H _]; [done|lia|].
  exact (proj2 (proj2 (H eq_refl))).
Defined.

(** ** Sockets *)

Lemma same_sockets_refl s : same_sockets s s.
Proof. by split. Qed.

Lemma same_sockets_trans s1 s2 s3 :
  same_sockets s1 s2 → same_sockets s2 s3 → same_sockets s1 s3.
Proof. intros [H1 H2] [H3 H4]. split; [congruence|]. intros x. by rewrite H4. Qed.

Lemma same_sockets_eq s s' :
  sessions s' = sessions s → clients s' = clients s → same_sockets s s'.
Proof. intros H1 H2. split; [done|]. intros x. by rewrite H1. Qed.

Lemma same_sockets_on_client x f s :
  (∀ c, socket (f c) = socket c) → same_sockets s (on_client x f s).
Proof.
  intros Hf. split; [done|]. intros y. rewrite sessions_on_client.
  case_decide; [|done]. rewrite <- option_fmap_compose.
  destruct (sessions s !! y) as [c|]; [|done]. cbn. by rewrite Hf.
Qed.

Lemma socket_sendBERNode node c : socket (sendBERNode node c) = socket c.
Proof.
  destruct node as [n|]; [|done]. cbn. unfold sendBER. by destruct (isConnected c).
Qed.

Lemma same_sockets_send x node s :
  same_sockets s (on_client x (sendBERNode node) s).
Proof. apply same_sockets_on_client. intros c. apply socket_sendBERNode. Qed.

Ltac sockets_step lem := eapply same_sockets_trans; [|apply lem].

Section Sockets.

Variable call : nat → Work → Server → Server.
Hypothesis call_sockets : ∀ cid w s, same_sockets s (call cid w s).

Lemma makeRequest_sockets cid s : same_sockets s (makeRequest call cid s).
Proof.
  unfold makeRequest. destruct (sessions s !! cid) as [c|]; [|apply same_sockets_refl].
  destruct (activeRequest c) as [a|], (pendingRequests c) as [|w rest];
    try apply same_sockets_refl.
  sockets_step same_sockets_on_client; [|done].
  sockets_step call_sockets. by apply same_sockets_on_client.
Qed.

Lemma addRequest_sockets cid w s : same_sockets s (addRequest call cid w s).
Proof.
  unfold addRequest. sockets_step makeRequest_sockets.
  by apply same_sockets_on_client.
Qed.

Lemma notify_sockets path response origin x s :
  same_sockets s (notify call path response origin x s).
Proof.
  unfold notify. case_decide; [apply same_sockets_refl|].
  case_decide; [apply addRequest_sockets|by apply same_sockets_eq].
Qed.

Lemma updateSubscribers_sockets path response origin s :
  same_sockets s (updateSubscribers call path response origin s).
Proof.
  unfold updateSubscribers.
  destruct (subscribers s !! path) as [l|]; [|apply same_sockets_refl].
  revert s. induction l as [|x l IH]; intros s; cbn [foldl]; [apply same_sockets_refl|].
  eapply same_sockets_trans; [apply notify_sockets|apply IH].
Qed.

Lemma handleError_sockets client node s : same_sockets s (handleError client node s).
Proof.
  unfold handleError. destruct client; [apply same_sockets_send|apply same_sockets_refl].
Qed.

Lemma handleGetDirectory_sockets client p s :
  same_sockets s (handleGetDirectory client p s).2.
Proof.
  unfold handleGetDirectory. destruct client as [c|]; [|apply same_sockets_refl].
  destruct (deref p s) as [e|]; [|apply same_sockets_refl].
  set (s1 := if (isMatrix e || isParameter e) && negb (isStream e)
             then subscribe c p s
             else foldl (λ s child, subscribe c (p ++ [number child]) s)
                    s (children e)).
  assert (same_sockets s s1) as H1.
  { subst s1. destruct (_ && _); [by apply same_sockets_eq|].
    destruct (subscribe_children_frame c p (children e) s) as (_ & ? & ?).
    by apply same_sockets_eq. }
  destruct (request <$> sessions s1 !! c) as [[rq|]|]; cbn [snd]; try done.
  sockets_step same_sockets_send. done.
Qed.

Lemma handleCommand_sockets client p cmd s :
  same_sockets s (handleCommand client p cmd s).2.
Proof.
  unfold handleCommand. repeat case_decide.
  - apply handleGetDirectory_sockets.
  - by apply same_sockets_eq.
  - unfold handleUnSubscribe, unsubscribe. cbn.
    destruct (subscribers s !! p); by apply same_sockets_eq.
  - by apply same_sockets_eq.
Qed.

Lemma applyConnection_sockets client p response x acc s :
  same_sockets s (applyConnection client p response x acc s).2.
Proof.
  unfold applyConnection.
  destruct (deref p s ≫= matrix_connections) as [conns|]; [|apply same_sockets_refl].
  destruct (conns !! target x) as [cur|]; [|apply same_sockets_refl].
  destruct (match operation x with
            | None | Some absolute => (setSources (sources x) cur, matrix_change)
            | Some connect => (connectSources (sources x) cur, matrix_connect)
            | Some disconnect => (disconnectSources (sources x) cur, matrix_disconnect)
            end) as [result emitType].
  destruct response; [|by apply same_sockets_eq].
  destruct client as [c|]; [|by apply same_sockets_eq].
  destruct (remoteAddress c _); by apply same_sockets_eq.
Qed.

Lemma applyConnections_sockets client p response conns : ∀ acc s,
  same_sockets s (applyConnections client p response conns acc s).2.
Proof.
  induction conns as [|x conns IH]; intros acc s; cbn; [apply same_sockets_refl|].
  pose proof (applyConnection_sockets client p response x acc s) as H1.
  destruct (applyConnection client p response x acc s) as [[acc1|e] s1]; [|done].
  eapply same_sockets_trans; [exact H1|apply IH].
Qed.

Lemma handleMatrixConnections_sockets client p conns response s :
  same_sockets s (handleMatrixConnections call client p conns response s).2.
Proof.
  unfold handleMatrixConnections.
  destruct (deref p s) as [m|]; [|apply same_sockets_refl].
  destruct (if isQualified m then _ else _) as [root|e]; [|apply same_sockets_refl].
  pose proof (applyConnections_sockets client p response (default [] conns) ∅ s) as H1.
  destruct (applyConnections _ _ _ _ _ _) as [[res|e] s1]; cbn [snd] in *; [|done].
  sockets_step updateSubscribers_sockets.
  destruct client as [c|]; [|done]. sockets_step same_sockets_send. done.
Qed.

Lemma setValue_sockets p v origin key s : same_sockets s (setValue p v origin key s).
Proof.
  unfold setValue. destruct (deref p s) as [e|]; [|apply same_sockets_refl].
  destruct (kind e) as [| |[c|]|[c|] conns]; try apply same_sockets_refl.
  - destruct (access c) as [a|]; [|apply same_sockets_refl].
    case_bool_decide; [by apply same_sockets_eq|apply same_sockets_refl].
  - destruct key as [k|]; [|apply same_sockets_refl].
    case_bool_decide; [by apply same_sockets_eq|apply same_sockets_refl].
Qed.

Lemma reply_sockets client p v res s :
  same_sockets s
    (updateSubscribers call p res (Some client)
       (on_client client (sendBERNode (Some res))
          (setValue p v (Some client) None s))).
Proof.
  sockets_step updateSubscribers_sockets. sockets_step same_sockets_send.
  apply setValue_sockets.
Qed.

Lemma handleQualifiedParameter_sockets client p req s :
  same_sockets s (handleQualifiedParameter call client p req s).2.
Proof.
  unfold handleQualifiedParameter.
  destruct (r_contents req) as [[v|]|]; try apply same_sockets_refl.
  destruct (deref p _) as [e|]; cbn [snd]; [apply reply_sockets|apply setValue_sockets].
Qed.

Lemma handleQualifiedNode_sockets client node s :
  same_sockets s (handleQualifiedNode call client node s).2.
Proof.
  unfold handleQualifiedNode.
  destruct (r_path node) as [path|]; [|apply same_sockets_refl].
  destruct (deref path s) as [e|].
  - assert (∀ r : Result () * Server, same_sockets s r.2 →
              same_sockets s (match r with
                              | (Ok _, s1) => (Ok (RPathString path), s1)
                              | (Throw err, s1) => (Throw err, s1)
                              end).2) as Hr by (by intros [[?|?] ?]).
    apply Hr. destruct (single_command node) as [c|].
    + apply handleCommand_sockets.
    + repeat case_decide.
      * apply handleMatrixConnections_sockets.
      * apply handleQualifiedParameter_sockets.
      * apply same_sockets_refl.
  - cbn [snd]. sockets_step handleError_sockets. by apply same_sockets_eq.
Qed.

Lemma handleNode_sockets client node s :
  same_sockets s (handleNode call client node s).2.
Proof.
  unfold handleNode.
  destruct (traverse node []) as [[path cmd]|]; [|by apply same_sockets_eq].
  destruct (deref path s) as [e|];
    [|cbn [snd]; sockets_step handleError_sockets; by apply same_sockets_eq].
  assert (∀ r : Result () * Server, same_sockets s r.2 →
            same_sockets s (match r with
                            | (Ok _, s1) => (Ok (RPathArray path), s1)
                            | (Throw err, s1) => (Throw err, s1)
                            end).2) as Hr by (by intros [[?|?] ?]).
  assert (same_sockets s
            (handleError (Some client) (Some (TreeBranch path LeafBare))
               (emit (EError (Error "invalid request format")) s))) as Hfmt
    by (sockets_step handleError_sockets; by apply same_sockets_eq).
  case_decide; [apply Hr, handleCommand_sockets|].
  destruct (r_class cmd), (r_connections cmd) as [conns|],
    (r_contents cmd) as [[v|]|]; cbn [snd]; try exact Hfmt;
    try (apply Hr; apply handleMatrixConnections_sockets).
  - destruct (deref path _) as [e1|]; cbn [snd];
      [apply reply_sockets|apply setValue_sockets].
  - destruct (deref path _) as [e1|]; cbn [snd];
      [apply reply_sockets|apply setValue_sockets].
Qed.

Lemma handleRoot_sockets client root s :
  same_sockets s (handleRoot call client root s).2.
Proof.
  unfold handleRoot.
  destruct (root ≫= elements) as [els|]; [|by apply same_sockets_eq].
  destruct (elements_lt_one els); [by apply same_sockets_eq|].
  assert (same_sockets s (on_client client (set_request (head els)) s)) as H1
    by (by apply same_sockets_on_client).
  destruct (head els) as [node|]; [|done].
  case_bool_decide; [sockets_step handleQualifiedNode_sockets; done|].
  case_decide; [|sockets_step handleNode_sockets; done].
  pose proof (handleCommand_sockets client [] (r_number node)
                (on_client client (set_request (Some node)) s)) as H2.
  destruct (handleCommand _ _ _ _) as [[?|?] ?]; cbn [snd] in *;
    by eapply same_sockets_trans.
Qed.

Lemma requestCallback_sockets client root s :
  same_sockets s (requestCallback call client root s).
Proof.
  unfold requestCallback. pose proof (handleRoot_sockets client root s) as H1.
  destruct (handleRoot _ _ _ _) as [[path|e] s1]; cbn [snd] in *.
  - destruct (remoteAddress client s1);
      (eapply same_sockets_trans; [exact H1|by apply same_sockets_eq]).
  - eapply same_sockets_trans; [exact H1|by apply same_sockets_eq].
Qed.

Lemma doMatrixOperation_sockets path tgt srcs op s :
  same_sockets s (doMatrixOperation call path tgt srcs op s).2.
Proof.
  unfold doMatrixOperation.
  destruct (validateMatrixOperation _ _ _); [|apply same_sockets_refl].
  apply handleMatrixConnections_sockets.
Qed.

Lemma replaceElement_sockets path element s :
  same_sockets s (replaceElement call path element s).2.
Proof.
  unfold replaceElement. destruct (deref path s); [|apply same_sockets_refl].
  destruct path; [apply same_sockets_refl|]. cbn [snd].
  sockets_step updateSubscribers_sockets. by apply same_sockets_eq.
Qed.

End Sockets.

Lemma invoke_sockets fuel : ∀ cid w s, same_sockets s (invoke fuel cid w s).
Proof.
  induction fuel as [|fuel IH]; intros cid w s; [apply same_sockets_refl|].
  destruct w as [node|root|node|w|w1 w2].
  - apply same_sockets_send.
  - by apply requestCallback_sockets.
  - by apply addRequest_sockets.
  - by apply addRequest_sockets.
  - change (invoke (S fuel) cid (WSeq w1 w2) s)
      with (invoke fuel cid w2 (invoke fuel cid w1 s)).
    eapply same_sockets_trans; apply IH.
Qed.

(** X22.  Sockets change on connection and on close only.  Whatever a
    client requests, whatever the queue of a client runs, and whatever
    the application calls ([matrixConnect], [matrixDisconnect],
    [matrixSet], [setValue], [replaceElement]), the live set is as it
    was and every client object has the peer address and the socket it
    had: handling never closes a socket or forgets a client, even when
    it fails. *)
Theorem handling_keeps_sockets fuel s :
  (∀ client root, same_sockets s (onEmberTree (invoke fuel) client root s)) ∧
  (∀ client w, same_sockets s (invoke fuel client w s)) ∧
  (∀ path tgt srcs op,
     same_sockets s (doMatrixOperation (invoke fuel) path tgt srcs op s).2) ∧
  (∀ p v origin key, same_sockets s (setValue p v origin key s)) ∧
  (∀ path element, same_sockets s (replaceElement (invoke fuel) path element s).2).
Proof.
  split; [|split; [|split; [|split]]]; intros.
  - apply addRequest_sockets, invoke_sockets.
  - apply invoke_sockets.
  - apply doMatrixOperation_sockets, invoke_sockets.
  - apply setValue_sockets.
  - apply replaceElement_sockets, invoke_sockets.
Qed.

Lemma live_open_same s s' : same_sockets s s' → live_open s → live_open s'.
Proof.
  intros [Hc Hs] H x Hx. rewrite Hc in Hx. destruct (H x Hx) as (c & Hc0 & Hopen).
  specialize (Hs x). rewrite Hc0 in Hs. cbn in Hs.
  destruct (sessions s' !! x) as [c'|]; [|done]. exists c'. split; [done|].
  injection Hs as _ Hs. congruence.
Qed.

Lemma step_live_open fuel i w :
  live_open (server w) → live_open (server (step (invoke fuel) i w)).
Proof.
  intros H. destruct i as [address|client|client decoded|client error|op path tgt srcs
                          |element v origin key|path element]; cbn [step].
  - unfold onConnection. cbn. intros x Hx. cbn in *.
    destruct (decide (x = newClient (server w))) as [->|Hne].
    + rewrite lookup_insert_eq. by eexists.
    + rewrite lookup_insert_ne by done. apply H. set_solver.
  - unfold onClose. destruct (remoteAddress _ _); cbn.
    + intros x Hx. rewrite sessions_on_client. cbn in *.
      rewrite decide_False by set_solver. apply H. set_solver.
    + intros x Hx. cbn in *. apply H. set_solver.
  - unfold onEmberPacket. destruct decoded as [[root|]|e]; cbn; try done.
    + eapply live_open_same; [|exact H]. apply addRequest_sockets, invoke_sockets.
    + by rewrite onClientError_server.
  - by rewrite onClientError_server.
  - cbn. eapply live_open_same; [|exact H].
    apply doMatrixOperation_sockets, invoke_sockets.
  - cbn. eapply live_open_same; [|exact H]. apply setValue_sockets.
  - cbn. eapply live_open_same; [|exact H].
    apply replaceElement_sockets, invoke_sockets.
Qed.

Lemma run_live_open_from fuel inputs : ∀ w,
  live_open (server w) → live_open (server (run (invoke fuel) inputs w)).
Proof.
  induction inputs as [|i inputs IH]; intros w H; [done|].
  cbn. apply IH. by apply step_live_open.
Qed.

(** X23.  Live clients have open sockets.  In every state a freshly
    built server reaches, every client of the live set is a client
    object whose socket is open, so that its address can be read: the
    [request] event of a live client always carries its address, and a
    response written to it is not dropped. *)
Theorem run_live_open fuel t inputs :
  let s := server (run (invoke fuel) inputs (initial t)) in
  live_open s ∧
  ∀ x, x ∈ clients s →
       (∃ addr, remoteAddress x s = Ok addr) ∧
       ∀ m, written <$> sessions (on_client x (sendBERNode (Some m)) s) !! x =
            (λ c, written c ++ [m]) <$> sessions s !! x.
Proof.
  intros s.
  assert (live_open s) as H.
  { apply run_live_open_from. intros x Hx. cbn in Hx. set_solver. }
  split; [done|]. intros x Hx. destruct (H x Hx) as (c & Hc & Hopen). split.
  - unfold remoteAddress. rewrite Hc, Hopen. by eexists.
  - intros m. rewrite sessions_on_client, decide_True by done. rewrite Hc. cbn.
    unfold sendBER, isConnected. by rewrite Hopen.
Qed.

(** X24.  A request is handled when it arrives, and logged.  On a
    settled server, a decoded root arriving from a client whose socket
    is open is handled before the listener returns: the request is the
    active request of the client while [handleRoot] runs, and when it
    has run exactly one more event is emitted, [request] with the
    address of the client, the root and the path [handleRoot] returned,
    or [error] with the exception it raised. *)
Theorem request_is_logged fuel client c root s :
  settled s → sessions s !! client = Some c → connected c = true →
  let s0 := on_client client (set_active (Some (WRequest root))) s in
  let r := handleRoot (invoke (S fuel)) client root s0 in
  onEmberTree (invoke (S (S fuel))) client root s =
  on_client client (set_active None)
    (emit (match r.1 with
           | Ok path => ERequest (remote c) root path
           | Throw e => EError e
           end) r.2).
Proof.
  intros Hs Hc Hopen s0 r. unfold onEmberTree, addRequest.
  destruct Hs as (Hi & _ & _). destruct (Hi client c Hc) as [Hp Ha]; [done|].
  set (s1 := on_client client _ s).
  rewrite (makeRequest_runs_oldest _ client
             (set_pending (pendingRequests c ++ [WRequest root]) c)
             (WRequest root) [] s1).
  - change (invoke (S (S fuel)) client (WRequest root))
      with (requestCallback (invoke (S fuel)) client root).
    subst s1. rewrite on_client_on_client.
    assert (on_client client
              ((λ c0, set_active (Some (WRequest root)) (set_pending [] c0))
               ∘ (λ c0, set_pending (pendingRequests c0 ++ [WRequest root]) c0)) s
            = s0) as ->.
    { apply on_client_ext. intros c0 Hc0. rewrite Hc in Hc0. injection Hc0 as <-.
      cbn. destruct c. cbn in *. by subst. }
    f_equal. unfold requestCallback. fold r.
    pose proof (handleRoot_sockets _ (invoke_sockets (S fuel)) client root s0) as [_ Hsock].
    fold r in Hsock. specialize (Hsock client).
    assert (socket <$> sessions s0 !! client = Some (remote c, true)) as Hs0.
    { unfold s0. rewrite sessions_on_client, decide_True by done.
      rewrite Hc. cbn. unfold socket. cbn. by rewrite Hopen. }
    rewrite Hs0 in Hsock.
    destruct r as [[path|e] s2]; cbn [fst snd] in *; [|done].
    unfold remoteAddress. destruct (sessions s2 !! client) as [c2|]; [|done].
    injection Hsock as -> ->. done.
  - unfold s1. rewrite sessions_on_client, decide_True by done. by rewrite Hc.
  - exact Ha.
  - cbn. by rewrite Hp.
Qed.

Lemma request_is_logged_witness :
  let root := Some (mkRoot (Some [example_set [1; 2]%Z 42])) in
  events (onEmberTree (invoke 2) 0 root example_server)
  = [EValueChange [1; 2]%Z (Some (VInteger 10));
     ERequest "10.0.0.1:9000" root (RPathString [1; 2]%Z)].
Proof.
  cbv zeta.
  rewrite (request_is_logged 0 0 (example_client "10.0.0.1:9000" true)
             (Some (mkRoot (Some [example_set [1; 2]%Z 42]))) example_server
             example_settled eq_refl eq_refl).
  reflexivity.
Defined.
